(** * Help Scout MCP server: search aggregation and content normalisation

    A shallow embedding of the parts of the TypeScript sources that the
    specification talks about:

    - [src/utils/html-stripper.ts]: [extractInlineImages], [stripHtml],
      [stripQuotedContent];
    - [src/tools/index.ts]: [appendCreatedAtFilter], the multi-status
      branch of [searchConversations], [executeMultiStatusSearch],
      [searchSingleStatus], [applyCreatedBeforeFilter],
      [buildFilteredPagination], [formatComprehensiveSearchResults].

    Further parts of the sources, embedded in the modules behind these:

    - [src/tools/index.ts]: [escapeQueryTerm], [buildSearchQuery],
      [buildComprehensiveSearchContext], [calculateTimeRange],
      [advancedConversationSearch], [structuredConversationFilter],
      [formatInboxScope], [searchInboxes], [getConversationSummary],
      [getThreads], [getAttachments], [getAttachmentData];
    - [src/utils/config.ts]: the credentials of [config] and
      [validateConfig];
    - [src/index.ts]: [discoverAndBuildInstructions], [create], [start].

    JavaScript strings are sequences of UTF-16 code units; they are modelled
    as [list N].  Regular expressions are modelled by a small backtracking
    matcher that enumerates matches in the priority order of the ECMAScript
    semantics (greedy / lazy quantifiers, alternation left to right). *)

From Stdlib Require Import ZArith NArith List Bool Lia String Ascii Decimal.
From stdpp Require Import base gmap sets list.

Local Open Scope nat_scope.

(** ** JavaScript strings *)

Abbreviation jsstr := (list N).

Fixpoint str (s : string) : jsstr :=
  match s with
  | EmptyString => []
  | String a s' => N_of_ascii a :: str s'
  end.

Definition jsstr_eqb (a b : jsstr) : bool := bool_decide (a = b).

(** [!s] of JavaScript for a string: only the empty string is falsy. *)
Definition falsy (s : jsstr) : bool :=
  match s with [] => true | _ => false end.

(** [!s] for [string | undefined]. *)
Definition ofalsy (s : option jsstr) : bool :=
  match s with None => true | Some t => falsy t end.

Module Chars.
Definition LF : N := 10.
Definition TAB : N := 9.
Definition SP : N := 32.

(** [\s], which is also the set of code units removed by [trim()]:
    WhiteSpace and LineTerminator of ECMAScript. *)
Definition is_space (c : N) : bool :=
  ((9 <=? c) && (c <=? 13) || (c =? 32) || (c =? 160) || (c =? 5760)
   || (8192 <=? c) && (c <=? 8202) || (c =? 8232) || (c =? 8233)
   || (c =? 8239) || (c =? 8287) || (c =? 12288) || (c =? 65279))%N.

(** [\d] *)
Definition is_digit (c : N) : bool := ((48 <=? c) && (c <=? 57))%N.

(** [\w] *)
Definition is_word (c : N) : bool :=
  ((97 <=? c) && (c <=? 122) || (65 <=? c) && (c <=? 90)
   || is_digit c || (c =? 95))%N.

(** [.] without the s flag: anything but a line terminator. *)
Definition is_dot (c : N) : bool :=
  negb ((c =? 10) || (c =? 13) || (c =? 8232) || (c =? 8233))%N.

(** Case folding of the [i] flag without the [u] flag: only the ASCII
    letters have a partner among the code units a pattern letter can
    match. *)
Definition lower (c : N) : N :=
  if ((65 <=? c) && (c <=? 90))%N then (c + 32)%N else c.
End Chars.

(** ** Regular expressions *)

Module Regex.
Import Chars.

Inductive re : Type :=
| Eps
| Cls (p : N -> bool)
| Seq (r1 r2 : re)
| Alt (r1 r2 : re)
| Rep (greedy : bool) (lo : nat) (hi : option nat) (r : re)
| Bol
| Eol
| WordB.

(** A position of the matcher: the code unit before it, if any, and the
    rest of the input. *)
Definition st : Type := option N * jsstr.

Definition progress (s s' : st) : bool := length (snd s') <? length (snd s).

Definition dec_hi (hi : option nat) : option nat :=
  match hi with Some h => Some (pred h) | None => None end.

Definition hi_is_zero (hi : option nat) : bool :=
  match hi with Some 0 => true | _ => false end.

(** The quantifier loop ({m,n} of RepeatMatcher): [step] matches the
    body once.  As long as [lo] is positive an iteration may be empty;
    afterwards an iteration that consumes nothing is rejected.  The
    counter [fuel] is [lo + length input], the number of iterations that
    can possibly succeed. *)
Fixpoint rep_iter (step : st -> list st) (greedy : bool)
    (fuel lo : nat) (hi : option nat) (s : st) : list st :=
  let stop := match lo with 0 => [s] | _ => [] end in
  if hi_is_zero hi then [s] else
  match fuel with
  | 0 => stop
  | S f =>
      let more :=
        flat_map (fun s' =>
          if (match lo with 0 => negb (progress s s') | _ => false end)
          then []
          else rep_iter step greedy f (pred lo) (dec_hi hi) s')
        (step s) in
      if greedy then more ++ stop else stop ++ more
  end.

Definition at_word (c : option N) : bool :=
  match c with Some x => is_word x | None => false end.

(** All the ways [r] matches at a position, best first. *)
Fixpoint run (r : re) (s : st) : list st :=
  match r with
  | Eps => [s]
  | Cls p =>
      match snd s with
      | c :: t => if p c then [(Some c, t)] else []
      | [] => []
      end
  | Seq r1 r2 => flat_map (run r2) (run r1 s)
  | Alt r1 r2 => run r1 s ++ run r2 s
  | Rep g lo hi r1 => rep_iter (run r1) g (lo + length (snd s)) lo hi s
  | Bol => match fst s with None => [s] | Some _ => [] end
  | Eol => match snd s with [] => [s] | _ => [] end
  | WordB => if xorb (at_word (fst s)) (at_word (head (snd s))) then [s] else []
  end.

(** *** Building patterns *)

Definition chr (c : N) : re := Cls (N.eqb c).
Definition chri (c : N) : re := Cls (fun x => N.eqb (lower x) (lower c)).
Definition notchr (c : N) : re := Cls (fun x => negb (N.eqb x c)).

Fixpoint seqs (l : list re) : re :=
  match l with
  | [] => Eps
  | [r] => r
  | r :: l' => Seq r (seqs l')
  end.

Fixpoint alts (l : list re) : re :=
  match l with
  | [] => Cls (fun _ => false)
  | [r] => r
  | r :: l' => Alt r (alts l')
  end.

Definition lit (s : string) : re := seqs (List.map chr (str s)).
Definition liti (s : string) : re := seqs (List.map chri (str s)).

Definition star (r : re) : re := Rep true 0 None r.
Definition plus (r : re) : re := Rep true 1 None r.
Definition opt (r : re) : re := Rep true 0 (Some 1) r.
Definition at_least (n : nat) (r : re) : re := Rep true n None r.
Definition exactly (n : nat) (r : re) : re := Rep true n (Some n) r.
Definition between (lo hi : nat) (r : re) : re := Rep true lo (Some hi) r.

Definition space : re := Cls is_space.
Definition digit : re := Cls is_digit.
Definition dot : re := Cls is_dot.
Definition anychar : re := Cls (fun _ => true).

(** *** The operations of [RegExp] and [String] that the code uses *)

(** The match that starts at this position, if there is one. *)
Definition first_match (r : re) (prev : option N) (s : jsstr) : option jsstr :=
  match run r (prev, s) with
  | [] => None
  | s' :: _ => Some (firstn (length s - length (snd s')) s)
  end.

(** [s.match(r)] without the g flag: index and text of the leftmost
    match. *)
Fixpoint search_from (r : re) (prev : option N) (s : jsstr) (idx : nat)
    : option (nat * jsstr) :=
  match first_match r prev s with
  | Some m => Some (idx, m)
  | None =>
      match s with
      | [] => None
      | c :: t => search_from r (Some c) t (S idx)
      end
  end.

Definition search (r : re) (s : jsstr) : option (nat * jsstr) :=
  search_from r None s 0.

(** [r.test(s)] *)
Definition test (r : re) (s : jsstr) : bool :=
  match search r s with Some _ => true | None => false end.

(** The pieces [s.replace(r, ...)] with the g flag walks through:
    code units copied as they are, and matches. *)
Inductive tok : Type :=
| Txt (c : N)
| Mat (m : jsstr).

Fixpoint tokens_from (r : re) (prev : option N) (s : jsstr) (skip : nat)
    : list tok :=
  match skip with
  | S k =>
      match s with
      | [] => []
      | c :: t => tokens_from r (Some c) t k
      end
  | 0 =>
      match first_match r prev s with
      | Some m =>
          Mat m ::
          match s with
          | [] => []
          | c :: t =>
              match m with
              | [] => Txt c :: tokens_from r (Some c) t 0
              | _ :: m' => tokens_from r (Some c) t (length m')
              end
          end
      | None =>
          match s with
          | [] => []
          | c :: t => Txt c :: tokens_from r (Some c) t 0
          end
      end
  end.

Definition tokens (r : re) (s : jsstr) : list tok := tokens_from r None s 0.

Definition render (f : jsstr -> jsstr) (t : tok) : jsstr :=
  match t with
  | Txt c => [c]
  | Mat m => f m
  end.

(** [s.replace(r, f)] with the g flag. *)
Definition replace_all (r : re) (f : jsstr -> jsstr) (s : jsstr) : jsstr :=
  flat_map (render f) (tokens r s).

(** [s.replace(r, by)] without the g flag: the leftmost match only. *)
Definition replace_first (r : re) (by_ : jsstr) (s : jsstr) : jsstr :=
  match search r s with
  | Some (i, m) => firstn i s ++ by_ ++ skipn (i + length m) s
  | None => s
  end.



End Regex.

(** ** String helpers of the standard library of JavaScript *)

Module JS.
Import Chars.

Fixpoint trim_start (s : jsstr) : jsstr :=
  match s with
  | c :: t => if is_space c then trim_start t else s
  | [] => []
  end.

Definition trim_end (s : jsstr) : jsstr := rev (trim_start (rev s)).

(** [s.trim()] *)
Definition trim (s : jsstr) : jsstr := trim_end (trim_start s).

(** [s.split('\n')]: never empty, one more piece than line feeds. *)
Fixpoint split_lines (s : jsstr) : list jsstr :=
  match s with
  | [] => [[]]
  | c :: t =>
      if N.eqb c LF then [] :: split_lines t
      else match split_lines t with
           | l :: ls => (c :: l) :: ls
           | [] => [[c]]
           end
  end.

(** [a.join(sep)] *)
Fixpoint join (sep : jsstr) (l : list jsstr) : jsstr :=
  match l with
  | [] => []
  | [x] => x
  | x :: l' => x ++ sep ++ join sep l'
  end.

Definition digit_of (d : nat) : N := (48 + N.of_nat d)%N.

Fixpoint uint_digits (u : Decimal.uint) : jsstr :=
  match u with
  | Nil => []
  | D0 u' => 48%N :: uint_digits u'
  | D1 u' => 49%N :: uint_digits u'
  | D2 u' => 50%N :: uint_digits u'
  | D3 u' => 51%N :: uint_digits u'
  | D4 u' => 52%N :: uint_digits u'
  | D5 u' => 53%N :: uint_digits u'
  | D6 u' => 54%N :: uint_digits u'
  | D7 u' => 55%N :: uint_digits u'
  | D8 u' => 56%N :: uint_digits u'
  | D9 u' => 57%N :: uint_digits u'
  end.

(** [String(n)] for a natural number: decimal, no leading zero. *)
Definition of_nat (n : nat) : jsstr := uint_digits (Nat.to_uint n).

(** [s.slice(0, n)] for an integer [n]: a negative end counts from the
    end of the string. *)
Definition slice0 (s : jsstr) (n : Z) : jsstr :=
  if (n <? 0)%Z then firstn (length s - Z.to_nat (- n)) s
  else firstn (Z.to_nat n) s.
End JS.

(** ** src/utils/html-stripper.ts *)

Module HtmlStripper.
Import Chars Regex JS.

(** *** The patterns, in the order they occur in the file *)

Definition not_gt : re := notchr 62.
Definition not_dq : re := notchr 34.
Definition to_end : re := Seq (star anychar) Eol.






(** The four patterns of [htmlQuotePatterns]. *)
Definition re_blockquote : re :=
  seqs [liti "<blockquote"; star not_gt; chr 62; to_end].
Definition re_div_class (cls : string) : re :=
  seqs [liti "<div"; space; star not_gt; liti "class="; chr 34; star not_dq;
        liti cls; star not_dq; chr 34; star not_gt; chr 62; to_end].
Definition re_appendonsend : re :=
  seqs [liti "<div"; space; star not_gt; liti "id="; chr 34;
        liti "appendonsend"; chr 34; star not_gt; chr 62; to_end].
Definition htmlQuotePatterns : list re :=
  [re_blockquote; re_div_class "gmail_quote"; re_appendonsend;
   re_div_class "yahoo_quoted"].

(** [/<br\s*\/?>/gi] *)
Definition re_br : re := seqs [liti "<br"; star space; opt (chr 47); chr 62].

(** [/<\/(p|div|li|tr|h[1-6])>/gi] *)
Definition re_block_close : re :=
  seqs [lit "</";
        alts [liti "p"; liti "div"; liti "li"; liti "tr";
              Seq (chri 104) (Cls (fun x => (49 <=? x)%N && (x <=? 54)%N))];
        chr 62].

(** [/<[^>]+>/g] *)
Definition re_tag : re := seqs [chr 60; plus not_gt; chr 62].

(** [/[ \t]+/g] and [/\n{3,}/g] *)
Definition re_blanks : re := plus (Cls (fun x => (x =? SP)%N || (x =? TAB)%N)).
Definition re_newlines : re := at_least 3 (chr LF).

(** [text.replace(/lit/g, by)] *)
Definition subst (pat : string) (by_ : jsstr) (s : jsstr) : jsstr :=
  replace_all (lit pat) (fun _ => by_) s.

(** The patterns of [stripQuotedContent]. *)
Definition dashes : re := at_least 3 (chr 45).

(** [/^-{3,}\s*(Forwarded message|Original Message)\s*-{3,}$/i] *)
Definition re_forward_marker : re :=
  seqs [Bol; dashes; star space;
        Alt (liti "Forwarded message") (liti "Original Message");
        star space; dashes; Eol].

(** [/^Begin forwarded message:\s*$/i] *)
Definition re_begin_forwarded : re :=
  seqs [Bol; liti "Begin forwarded message:"; star space; Eol].

(** [/^On\s+.{10,100}\s+wrote:\s*$/] *)
Definition re_on_wrote : re :=
  seqs [Bol; lit "On"; plus space; between 10 100 dot; plus space;
        lit "wrote:"; star space; Eol].

(** [/^Am\s+.{10,100}\s+schrieb\s+.+:\s*$/] *)
Definition re_am_schrieb : re :=
  seqs [Bol; lit "Am"; plus space; between 10 100 dot; plus space;
        lit "schrieb"; plus space; plus dot; chr 58; star space; Eol].

(** [/^Le\s+.{10,100}\s+a\s+.+crit\s*:\s*$/i] *)
Definition re_le_ecrit : re :=
  seqs [Bol; liti "Le"; plus space; between 10 100 dot; plus space;
        liti "a"; plus space; plus dot; liti "crit"; star space; chr 58;
        star space; Eol].

(** [/^(Von|From|De|Da|Di):\s+.+/] *)
Definition re_header_from : re :=
  seqs [Bol; alts [lit "Von"; lit "From"; lit "De"; lit "Da"; lit "Di"];
        chr 58; plus space; plus dot].

(** [/^(Datum|Date|Fecha|Data):\s+.+/] *)
Definition re_header_date : re :=
  seqs [Bol; alts [lit "Datum"; lit "Date"; lit "Fecha"; lit "Data"];
        chr 58; plus space; plus dot].

(** *** extractInlineImages *)






Definition label (imageIndex : nat) (alt : jsstr) : jsstr :=
  if falsy alt then str "[Image " ++ of_nat imageIndex ++ str "]"
  else str "[Image " ++ of_nat imageIndex ++ str ": " ++ alt ++ str "]".





(** *** stripHtml *)

(** The loop over [htmlQuotePatterns]: the first pattern that matches
    after more than 50 code units cuts the text. *)
Fixpoint cut_html_quote (ps : list re) (text : jsstr) : jsstr :=
  match ps with
  | [] => text
  | p :: ps' =>
      match search p text with
      | Some (i, _) => if 50 <? i then firstn i text else cut_html_quote ps' text
      | None => cut_html_quote ps' text
      end
  end.

Definition decode_entities (text : jsstr) : jsstr :=
  subst "&nbsp;" (str " ")
    (subst "&#39;" (str "'")
      (subst "&quot;" [34%N]
        (subst "&gt;" (str ">")
          (subst "&lt;" (str "<")
            (subst "&amp;" (str "&") text))))).

(** Everything after the quote cut and before the length cap; this is
    also the whole body of the older [stripHtml] of the repository,
    which has no quote cut. *)
Definition to_text (text : jsstr) : jsstr :=
  let text := replace_all re_br (fun _ => [LF]) text in
  let text := replace_all re_block_close (fun _ => [LF]) text in
  let text := replace_all re_tag (fun _ => []) text in
  let text := decode_entities text in
  let text := replace_all re_blanks (fun _ => [SP]) text in
  let text := replace_all re_newlines (fun _ => [LF; LF]) text in
  trim text.

(** [maxLength ? text.slice(0, maxLength) : text]; [maxLength] is an
    optional number, [undefined] and [0] are falsy. *)
Definition cap (maxLength : option Z) (text : jsstr) : jsstr :=
  match maxLength with
  | None => text
  | Some n => if (n =? 0)%Z then text else slice0 text n
  end.

Definition stripHtml (h : jsstr) (maxLength : option Z) : jsstr :=
  if falsy h then []
  else cap maxLength (to_text (cut_html_quote htmlQuotePatterns h)).

(** The [stripHtml] of src/utils/html-stripper.ts as it was before the
    quote cut was added. *)
Definition stripHtml_v1 (h : jsstr) (maxLength : option Z) : jsstr :=
  if falsy h then [] else cap maxLength (to_text h).

(** *** stripQuotedContent *)

Definition line_at (lines : list jsstr) (i : nat) : jsstr :=
  trim (nth i lines []).

(** The inner loop: [for (j = i + 1; j < Math.min(i + 8, lines.length); j++)]. *)
Definition date_follows (lines : list jsstr) (i : nat) : bool :=
  existsb (fun j => test re_header_date (line_at lines j))
          (seq (i + 1) (Nat.min (i + 8) (length lines) - (i + 1))).

(** Whether the body of the outer loop sets [cutIndex] at line [i]. *)
Definition cuts_at (lines : list jsstr) (i : nat) : bool :=
  let line := line_at lines i in
  test re_forward_marker line || test re_begin_forwarded line
  || (test re_on_wrote line || test re_am_schrieb line || test re_le_ecrit line)
  || (test re_header_from line && date_follows lines i).

(** [cutIndex], [None] for -1. *)
Definition cutIndex (lines : list jsstr) : option nat :=
  List.find (cuts_at lines) (seq 0 (length lines)).

Definition notice (removedChars : nat) : jsstr :=
  [LF; LF] ++ str "[Quoted/forwarded content removed - "
    ++ of_nat removedChars ++ str " chars]".

Definition stripQuotedContent (text : jsstr) : jsstr :=
  if falsy text then []
  else
    let lines := split_lines text in
    match cutIndex lines with
    | None => text
    | Some cut =>
        let kept := trim (join [LF] (firstn cut lines)) in
        if length kept <? 10 then text
        else
          let removedChars := length (join [LF] (skipn cut lines)) in
          if removedChars <? 100 then text
          else kept ++ notice removedChars
    end.
End HtmlStripper.

(** ** src/tools/index.ts: what is thrown and what is logged *)

Module Effects.

(** The codes of [ErrorSchema]. *)
Inductive error_code : Type :=
| INVALID_INPUT | NOT_FOUND | UNAUTHORIZED | RATE_LIMIT | UPSTREAM_ERROR.

Definition code_name (c : error_code) : jsstr :=
  match c with
  | INVALID_INPUT => str "INVALID_INPUT"
  | NOT_FOUND => str "NOT_FOUND"
  | UNAUTHORIZED => str "UNAUTHORIZED"
  | RATE_LIMIT => str "RATE_LIMIT"
  | UPSTREAM_ERROR => str "UPSTREAM_ERROR"
  end.

(** A thrown value: a structured API error (an object with a [code] of
    [ErrorSchema] and a [message]), or anything else (an [Error] with its
    message, a [TypeError], ...). *)
Inductive thrown : Type :=
| ApiError (code : error_code) (message : jsstr)
| OtherError (message : jsstr).

(** Modelled from the spec: the type guard [isApiError] of
    utils/mcp-errors.js, which is not among the sources.  It recognises the
    structured API errors and nothing else. *)
Definition isApiError (e : thrown) : bool :=
  match e with ApiError _ _ => true | OtherError _ => false end.

(** [reason.message], and [String(reason)] for a value that is no error
    object. *)
Definition message_of (e : thrown) : jsstr :=
  match e with ApiError _ m => m | OtherError m => m end.

(** The statuses of the [z.enum] of the schemas. *)
Inductive status : Type := active | pending | closed | spam.

Definition status_name (s : status) : jsstr :=
  match s with
  | active => str "active"
  | pending => str "pending"
  | closed => str "closed"
  | spam => str "spam"
  end.

#[global] Instance status_eq_dec : EqDecision status.
Proof. solve_decision. Defined.

#[global] Instance error_code_eq_dec : EqDecision error_code.
Proof. solve_decision. Defined.

(** The calls of [logger] in the functions below. *)
Inductive log_entry : Type :=
| LogStatusFailed (st : status) (errorCode message : jsstr)
| LogUnexpected (st : status) (error : jsstr)
| LogCritical (st : status) (errorCode message : jsstr)
| LogCompleted (statusesSearched : list status) (totalResults : nat)
| LogFiltered (originalCount filteredCount removedCount : nat).

(** Code that logs and may throw: the log written so far and either the
    thrown value or the result. *)
Definition M (A : Type) : Type := list log_entry * (thrown + A).

#[global] Instance M_ret : MRet M := fun A a => ([], inr a).

#[global] Instance M_bind : MBind M := fun A B f m =>
  match m with
  | (w, inl e) => (w, inl e)
  | (w, inr a) => (w ++ fst (f a), snd (f a))
  end.

Definition throw {A : Type} (e : thrown) : M A := ([], inl e).

Definition tell (l : log_entry) : M unit := ([l], inr tt).

(** [try { m } catch (error) { h error }] *)
Definition try_catch {A : Type} (m : M A) (h : thrown -> M A) : M A :=
  match m with
  | (w, inl e) => (w ++ fst (h e), snd (h e))
  | (w, inr a) => (w, inr a)
  end.

(** A synchronous function that throws, called from logging code. *)
Definition lift {A : Type} (r : thrown + A) : M A := ([], r).

Definition outcome {A : Type} (m : M A) : thrown + A := snd m.
Definition logged {A : Type} (m : M A) : list log_entry := fst m.

End Effects.

(** ** src/tools/index.ts: the query builder *)

Module Query.
Import Chars Regex JS Effects.

(** The pattern of [isoDatePattern]: four digits, two digits, two digits
    with dashes between, then optionally T, one or more of digit, colon and
    full stop, and an optional Z; anchored at both ends. *)
Definition isoDatePattern : re :=
  seqs [Bol; exactly 4 digit; chr 45; exactly 2 digit; chr 45; exactly 2 digit;
        opt (seqs [chr 84;
                   plus (Cls (fun x => is_digit x || (x =? 58)%N || (x =? 46)%N));
                   opt (chr 90)]);
        Eol].

(** [/\.\d{3}Z$/] *)
Definition re_millis : re := seqs [chr 46; exactly 3 digit; chr 90; Eol].

(** [normalize]: [d.replace(/\.\d{3}Z$/, 'Z')] *)
Definition normalize (d : jsstr) : jsstr := replace_first re_millis (str "Z") d.

(** [value ? normalize(value) : '*'] *)
Definition bound (d : option jsstr) : jsstr :=
  if ofalsy d then str "*" else normalize (default [] d).

Definition invalid_date (field : string) (d : jsstr) : thrown :=
  OtherError (str "Invalid " ++ str field ++ str " date format: " ++ d
              ++ str ". Expected ISO 8601 (e.g., 2024-01-15T00:00:00Z)").

(** [value && !isoDatePattern.test(value)] *)
Definition bad_date (d : option jsstr) : bool :=
  negb (ofalsy d) && negb (test isoDatePattern (default [] d)).

Definition clause (createdAfter createdBefore : option jsstr) : jsstr :=
  str "(createdAt:[" ++ bound createdAfter ++ str " TO "
    ++ bound createdBefore ++ str "])".

Definition appendCreatedAtFilter
    (existingQuery createdAfter createdBefore : option jsstr)
    : thrown + option jsstr :=
  if ofalsy createdAfter && ofalsy createdBefore then inr existingQuery
  else if bad_date createdAfter
  then inl (invalid_date "createdAfter" (default [] createdAfter))
  else if bad_date createdBefore
  then inl (invalid_date "createdBefore" (default [] createdBefore))
  else
    let clause := clause createdAfter createdBefore in
    if ofalsy existingQuery then inr (Some clause)
    else inr (Some (str "(" ++ default [] existingQuery ++ str ") AND " ++ clause)).

End Query.

(** ** src/tools/index.ts: searching conversations *)

Module Search.
Import Chars JS Effects Query.

(** A conversation of the API.  [createdAt] is the time value of its ISO
    date string, [new Date(createdAt).getTime()], in milliseconds; the
    fields no function below reads are left out. *)
Record Conversation : Type := {
  id : Z;
  number : Z;
  subject : jsstr;
  createdAt : Z;
}.

(** [PaginatedResponse<Conversation>]: [_embedded?.conversations] and
    [page?.totalElements]. *)
Record page : Type := { totalElements : option nat }.

Record response : Type := {
  embedded : option (list Conversation);
  page_of : option page;
}.

(** What [helpScoutClient.get('/conversations', params)] is asked. *)
Record request : Type := {
  rq_status : status;
  rq_query : option jsstr;
  rq_size : nat;
}.

(** The transport: the answer to a request, or the error it throws. *)
Definition transport : Type := request -> thrown + response.

(** The outcome of a promise after [Promise.allSettled]. *)
Inductive settled : Type :=
| Fulfilled (value : response)
| Rejected (reason : thrown).

Definition settle (r : thrown + response) : settled :=
  match r with inl e => Rejected e | inr v => Fulfilled v end.

(** [Promise.allSettled(xs.map(f))]: one outcome for each element, in the
    order of the elements. *)
Definition allSettled {A : Type} (f : A -> thrown + response) (xs : list A)
    : list settled :=
  List.map (fun x => settle (f x)) xs.

(** [response._embedded?.conversations || []] *)
Definition conversations_of (v : response) : list Conversation :=
  default [] (embedded v).

(** [response.page?.totalElements || 0] *)
Definition total_of (v : response) : nat :=
  default 0 (page_of v ≫= totalElements).

(** [Array.prototype.sort(cmp)], which is stable: an element moves behind
    the elements after it only where [cmp] is positive. *)
Fixpoint sort_insert {A : Type} (cmp : A -> A -> Z) (x : A) (l : list A) : list A :=
  match l with
  | [] => [x]
  | y :: l' => if (0 <? cmp x y)%Z then y :: sort_insert cmp x l' else x :: l
  end.

Definition js_sort {A : Type} (cmp : A -> A -> Z) (l : list A) : list A :=
  foldr (sort_insert cmp) [] l.

(** [(a, b) => new Date(b.createdAt).getTime() - new Date(a.createdAt).getTime()] *)
Definition by_createdAt_desc (a b : Conversation) : Z :=
  (createdAt b - createdAt a)%Z.

(** An entry of [failedStatuses]. *)
Record failure : Type := {
  f_status : status;
  f_message : jsstr;
  f_code : jsstr;
}.

(** A [Record<string, number>] keyed by status, in insertion order. *)
Definition set_total (k : status) (v : nat) (o : list (status * nat))
    : list (status * nat) :=
  if existsb (fun e => bool_decide (fst e = k)) o
  then List.map (fun e => if bool_decide (fst e = k) then (k, v) else e) o
  else o ++ [(k, v)].

(** The variables of the merge loop of [searchConversations]. *)
Record merge : Type := {
  seenIds : gset Z;
  conversations : list Conversation;
  failedStatuses : list failure;
  totalAvailable : nat;
  totalByStatus : list (status * nat);
}.

Definition merge_start : merge :=
  {| seenIds := ∅; conversations := []; failedStatuses := [];
     totalAvailable := 0; totalByStatus := [] |}.

(** [if (!seenIds.has(conv.id)) { seenIds.add(conv.id); conversations.push(conv); }] *)
Definition add_conversation (m : merge) (conv : Conversation) : merge :=
  if bool_decide (id conv ∈ seenIds m) then m
  else {| seenIds := {[ id conv ]} ∪ seenIds m;
          conversations := conversations m ++ [conv];
          failedStatuses := failedStatuses m;
          totalAvailable := totalAvailable m;
          totalByStatus := totalByStatus m |}.

Definition add_total (m : merge) (statusName : status) (statusTotal : nat) : merge :=
  {| seenIds := seenIds m;
     conversations := conversations m;
     failedStatuses := failedStatuses m;
     totalAvailable := totalAvailable m + statusTotal;
     totalByStatus := set_total statusName statusTotal (totalByStatus m) |}.

Definition add_failure (m : merge) (f : failure) : merge :=
  {| seenIds := seenIds m;
     conversations := conversations m;
     failedStatuses := failedStatuses m ++ [f];
     totalAvailable := totalAvailable m;
     totalByStatus := totalByStatus m |}.

(** [isApiError(reason) ? reason.code : 'UNKNOWN'] *)
Definition errorCode_of (reason : thrown) : jsstr :=
  match reason with
  | ApiError c _ => code_name c
  | OtherError _ => str "UNKNOWN"
  end.

(** [errorCode === 'UNAUTHORIZED' || errorCode === 'INVALID_INPUT'] *)
Definition is_critical (errorCode : jsstr) : bool :=
  jsstr_eqb errorCode (str "UNAUTHORIZED") || jsstr_eqb errorCode (str "INVALID_INPUT").

(** One turn of [for (const [index, result] of results.entries())]. *)
Definition merge_step (statuses : list status) (index : nat) (result : settled)
    (m : merge) : M merge :=
  match result with
  | Fulfilled value =>
      let statusName := nth index statuses active in
      let statusTotal := total_of value in
      mret (fold_left add_conversation (conversations_of value)
              (add_total m statusName statusTotal))
  | Rejected reason =>
      let failedStatus := nth index statuses active in
      let errorMessage := message_of reason in
      let errorCode := errorCode_of reason in
      if negb (isApiError reason) then throw reason
      else if is_critical errorCode then throw reason
      else
        tell (LogStatusFailed failedStatus errorCode errorMessage) ;;
        mret (add_failure m {| f_status := failedStatus;
                               f_message := errorMessage;
                               f_code := errorCode |})
  end.

Fixpoint merge_loop (statuses : list status) (index : nat)
    (results : list settled) (m : merge) : M merge :=
  match results with
  | [] => mret m
  | result :: rest =>
      m' ← merge_step statuses index result m;
      merge_loop statuses (S index) rest m'
  end.

(** The pagination objects [searchConversations] returns. *)
Record counts : Type := {
  totalResults : nat;
  c_totalAvailable : option nat;
  c_totalByStatus : option (list (status * nat));
  errors : option (list failure);
  note : option jsstr;
}.

Inductive pagination : Type :=
| ApiPage (p : option page)
| Counts (c : counts).

(** [`${f.status} (${f.code})`] joined with a comma and a blank. *)
Definition failed_list (fs : list failure) : jsstr :=
  join (str ", ")
    (List.map (fun f => status_name (f_status f) ++ str " (" ++ f_code f ++ str ")") fs).

Definition merged_note (m : merge) (returned : nat) : jsstr :=
  if 0 <? length (failedStatuses m)
  then str "[WARNING] " ++ of_nat (length (failedStatuses m))
       ++ str " status(es) failed - results incomplete! Failed: "
       ++ failed_list (failedStatuses m)
       ++ str ". Totals reflect successful statuses only."
  else str "Merged results from " ++ of_nat (length (totalByStatus m))
       ++ str " statuses. Returned " ++ of_nat returned ++ str " of "
       ++ of_nat (totalAvailable m) ++ str " total conversations.".

(** [xs.length > 0 ? x : undefined] *)
Definition when_some {A B : Type} (xs : list A) (x : B) : option B :=
  if 0 <? length xs then Some x else None.

(** The arguments of [searchConversations] that the function reads after
    [SearchConversationsInputSchema.parse]; [createdBefore] is given with
    the time value of [new Date(createdBefore)], [None] for an invalid
    date. *)
Record input : Type := {
  query : option jsstr;
  in_status : option status;
  createdAfter : option jsstr;
  createdBefore : option (jsstr * option Z);
  limit : nat;
}.

(** [limit: z.number().min(1).max(100).default(50)] of the schema, for an
    integer argument. *)
Definition parse_limit (raw : option Z) : thrown + nat :=
  match raw with
  | None => inr 50
  | Some n =>
      if (n <? 1)%Z then inl (OtherError (str "Number must be greater than or equal to 1"))
      else if (100 <? n)%Z then inl (OtherError (str "Number must be less than or equal to 100"))
      else inr (Z.to_nat n)
  end.

(** [applyCreatedBeforeFilter] *)
Record filter_result : Type := {
  filtered : list Conversation;
  wasFiltered : bool;
  removedCount : nat;
}.

Definition applyCreatedBeforeFilter (convs : list Conversation)
    (createdBefore : jsstr * option Z) : M filter_result :=
  match snd createdBefore with
  | None =>
      throw (OtherError (str "Invalid createdBefore date format: "
               ++ fst createdBefore
               ++ str ". Expected ISO 8601 format (e.g., 2023-01-15T00:00:00Z)"))
  | Some beforeDate =>
      let originalCount := length convs in
      let filtered := List.filter (fun conv => (createdAt conv <? beforeDate)%Z) convs in
      let removedCount := originalCount - length filtered in
      (if 0 <? removedCount
       then tell (LogFiltered originalCount (length filtered) removedCount)
       else mret tt) ;;
      mret {| filtered := filtered; wasFiltered := 0 <? removedCount;
              removedCount := removedCount |}
  end.

(** [`${n}`] for [number | undefined] *)
Definition show_total (n : option nat) : jsstr :=
  match n with Some k => of_nat k | None => str "undefined" end.

(** [buildFilteredPagination] *)
Definition buildFilteredPagination (filteredCount : nat) (apiPage : option page)
    (wasFiltered : bool) : pagination :=
  if negb wasFiltered then ApiPage apiPage
  else
    let total := apiPage ≫= totalElements in
    Counts {| totalResults := filteredCount;
              c_totalAvailable := total;
              c_totalByStatus := None;
              errors := None;
              note := Some (str "Results filtered client-side by createdBefore. totalResults shows filtered count ("
                            ++ of_nat filteredCount
                            ++ str "), totalAvailable shows pre-filter API total ("
                            ++ show_total total ++ str ").") |}.

(** The pagination of a merged search after the client-side filter. *)
Definition filtered_merged (filteredCount : nat) (merged : counts) : counts :=
  {| totalResults := filteredCount;
     c_totalAvailable := c_totalAvailable merged;
     c_totalByStatus := c_totalByStatus merged;
     errors := errors merged;
     note := Some (str "Client-side createdBefore filter applied to merged results. totalResults shows filtered count ("
                   ++ of_nat filteredCount
                   ++ str "), totalAvailable shows pre-filter total ("
                   ++ show_total (c_totalAvailable merged) ++ str "). "
                   ++ default [] (note merged)) |}.

Record search_result : Type := {
  results : list Conversation;
  r_pagination : pagination;
  statusesSearched : list status;
  clientSideFiltering : bool;
}.

Definition all_statuses : list status := [active; pending; closed].

Definition base_request (i : input) (q : option jsstr) (s : status) : request :=
  {| rq_status := s; rq_query := q; rq_size := limit i |}.

(** The part of [searchConversations] before the client-side filter:
    the conversations, the statuses searched and the pagination. *)
Definition fetch (api : transport) (i : input) (q : option jsstr)
    : M (list Conversation * list status * pagination) :=
  match in_status i with
  | Some s =>
      response ← lift (api (base_request i q s));
      mret (conversations_of response, [s], ApiPage (page_of response))
  | None =>
      let statuses := all_statuses in
      let results := allSettled (fun s => api (base_request i q s)) statuses in
      m ← merge_loop statuses 0 results merge_start;
      let searchedStatuses :=
        if 0 <? length (failedStatuses m)
        then List.filter
               (fun s => negb (existsb (fun f => bool_decide (f_status f = s))
                                       (failedStatuses m)))
               statuses
        else statuses in
      let sorted := js_sort by_createdAt_desc (conversations m) in
      let effectiveLimit := if limit i =? 0 then 50 else limit i in
      let convs :=
        if effectiveLimit <? length sorted then firstn effectiveLimit sorted
        else sorted in
      let pagination :=
        {| totalResults := length convs;
           c_totalAvailable := when_some (totalByStatus m) (totalAvailable m);
           c_totalByStatus := when_some (totalByStatus m) (totalByStatus m);
           errors := when_some (failedStatuses m) (failedStatuses m);
           note := Some (merged_note m (length convs)) |} in
      tell (LogCompleted searchedStatuses (length convs)) ;;
      mret (convs, searchedStatuses, Counts pagination)
  end.

(** [searchConversations], from the parsed input to the object that is
    serialised; the selection of [input.fields], which projects each
    record, is left out. *)
Definition searchConversations (api : transport) (i : input) : M search_result :=
  let baseQuery := if ofalsy (query i) then None else query i in
  queryWithDate ← lift (appendCreatedAtFilter baseQuery (createdAfter i) None);
  let q := if ofalsy queryWithDate then baseQuery else queryWithDate in
  '(convs, searchedStatuses, originalPagination) ← fetch api i q;
  match createdBefore i with
  | Some cb =>
      if falsy (fst cb)
      then mret {| results := convs; r_pagination := originalPagination;
                   statusesSearched := searchedStatuses;
                   clientSideFiltering := false |}
      else
        filterResult ← applyCreatedBeforeFilter convs cb;
        let convs := filtered filterResult in
        let clientSideFiltered := wasFiltered filterResult in
        let pagination :=
          if clientSideFiltered then
            (* the page object of the API on the single-status path,
               the merged structure on the multi-status path *)
            match originalPagination with
            | ApiPage p => buildFilteredPagination (length convs) p true
            | Counts merged => Counts (filtered_merged (length convs) merged)
            end
          else originalPagination in
        mret {| results := convs; r_pagination := pagination;
                statusesSearched := searchedStatuses;
                clientSideFiltering := clientSideFiltered |}
  | None =>
      mret {| results := convs; r_pagination := originalPagination;
              statusesSearched := searchedStatuses;
              clientSideFiltering := false |}
  end.

(** *** comprehensiveConversationSearch *)

(** The search context: the parsed input and what
    [buildComprehensiveSearchContext] adds to it. *)
Record context : Type := {
  statuses : list status;
  searchQuery : jsstr;
  ctx_createdAfter : jsstr;
  limitPerStatus : nat;
  ctx_createdBefore : option (jsstr * option Z);
}.

(** An element of [allResults]. *)
Record status_result : Type := {
  sr_status : status;
  totalCount : nat;
  totalCountBeforeFilter : option nat;
  sr_conversations : list Conversation;
  sr_searchQuery : jsstr;
  filteredByCreatedBefore : option bool;
}.

(** [a || b] for [number | undefined] and a number. *)
Definition or_nat (a : option nat) (b : nat) : nat :=
  match a with
  | Some 0 | None => b
  | Some n => n
  end.

(** [if (params.createdBefore) { ... }] of [searchSingleStatus]: the
    conversations kept and [filteredByDate]. *)
Definition filter_if_asked (createdBefore : option (jsstr * option Z))
    (convs : list Conversation) : M (list Conversation * bool) :=
  match createdBefore with
  | Some cb =>
      if falsy (fst cb) then mret (convs, false)
      else
        result ← applyCreatedBeforeFilter convs cb;
        mret (filtered result, wasFiltered result)
  | None => mret (convs, false)
  end.

Definition searchSingleStatus (api : transport) (c : context) (s : status)
    : M status_result :=
  queryWithDate ← lift (appendCreatedAtFilter (Some (searchQuery c))
                          (Some (ctx_createdAfter c)) None);
  let q := if ofalsy queryWithDate then Some (searchQuery c) else queryWithDate in
  response ← lift (api {| rq_status := s; rq_query := q;
                          rq_size := limitPerStatus c |});
  let convs := conversations_of response in
  let apiTotalElements := or_nat (page_of response ≫= totalElements) (length convs) in
  filter_if_asked (ctx_createdBefore c) convs ≫=
  λ r : list Conversation * bool,
    let convs := fst r in
    let filteredByDate := snd r in
    mret {| sr_status := s;
            totalCount := if filteredByDate then length convs else apiTotalElements;
            totalCountBeforeFilter :=
              if filteredByDate then Some apiTotalElements else None;
            sr_conversations := convs;
            sr_searchQuery := searchQuery c;
            filteredByCreatedBefore := Some filteredByDate |}.

(** The [catch] block of [executeMultiStatusSearch]. *)
Definition on_branch_error (c : context) (s : status) (error : thrown)
    : M status_result :=
  match error with
  | OtherError m =>
      tell (LogUnexpected s m) ;; throw error
  | ApiError code message =>
      if bool_decide (code = UNAUTHORIZED) || bool_decide (code = INVALID_INPUT)
      then tell (LogCritical s (code_name code) message) ;; throw error
      else
        tell (LogStatusFailed s (code_name code) message) ;;
        mret {| sr_status := s; totalCount := 0; totalCountBeforeFilter := None;
                sr_conversations := []; sr_searchQuery := searchQuery c;
                filteredByCreatedBefore := None |}
  end.

(** The loop [for (const status of input.statuses)] with [allResults]. *)
Fixpoint search_statuses (api : transport) (c : context) (todo : list status)
    (allResults : list status_result) : M (list status_result) :=
  match todo with
  | [] => mret allResults
  | s :: rest =>
      result ← try_catch (searchSingleStatus api c s) (on_branch_error c s);
      search_statuses api c rest (allResults ++ [result])
  end.

Definition executeMultiStatusSearch (api : transport) (c : context)
    : M (list status_result) :=
  search_statuses api c (statuses c) [].

(** The fields of the summary that depend on the branches. *)
Record summary : Type := {
  totalConversationsFound : nat;
  totalAvailableAcrossStatuses : nat;
  totalBeforeClientSideFiltering : option nat;
  clientSideFilteringApplied : option jsstr;
  resultsByStatus : list status_result;
}.

(** [xs.reduce((sum, x) => sum + f(x), 0)] *)
Definition reduce_sum {A : Type} (f : A -> nat) (xs : list A) : nat :=
  fold_left (fun sum x => sum + f x) xs 0.

Definition formatComprehensiveSearchResults (allResults : list status_result)
    : summary :=
  let totalConversations := reduce_sum (fun r => length (sr_conversations r)) allResults in
  let totalAvailable := reduce_sum totalCount allResults in
  let hasClientSideFiltering :=
    existsb (fun r => default false (filteredByCreatedBefore r)) allResults in
  let totalBeforeFilter :=
    if hasClientSideFiltering
    then Some (reduce_sum (fun r => or_nat (totalCountBeforeFilter r) (totalCount r))
                          allResults)
    else None in
  {| totalConversationsFound := totalConversations;
     totalAvailableAcrossStatuses := totalAvailable;
     totalBeforeClientSideFiltering := totalBeforeFilter;
     clientSideFilteringApplied :=
       if hasClientSideFiltering
       then Some (str "createdBefore filter applied - totalConversationsFound ("
                  ++ of_nat totalConversations
                  ++ str ") reflects filtered results, totalBeforeClientSideFiltering ("
                  ++ show_total totalBeforeFilter
                  ++ str ") shows pre-filter API totals")
       else None;
     resultsByStatus := allResults |}.

Definition comprehensiveConversationSearch (api : transport) (c : context)
    : M summary :=
  searchResults ← executeMultiStatusSearch api c;
  mret (formatComprehensiveSearchResults searchResults).

End Search.

(** ** The reconciliation as the specification words it

    These definitions follow the sentences of the specification, not the
    code; the theorems below compare them with the code. *)

Module SearchSpec.
Import Chars JS Effects Query Search.

(** An error that aborts a multi-status search: one that is no structured
    API error, or an API error classified unauthorized or invalid input. *)
Definition fatal (e : thrown) : bool :=
  match e with
  | OtherError _ => true
  | ApiError c _ => bool_decide (c = UNAUTHORIZED) || bool_decide (c = INVALID_INPUT)
  end.

(** The first fatal error among the branches, in branch order. *)
Fixpoint first_fatal (rs : list settled) : option thrown :=
  match rs with
  | [] => None
  | Rejected e :: rs' => if fatal e then Some e else first_fatal rs'
  | Fulfilled _ :: rs' => first_fatal rs'
  end.

Definition branch_conversations (r : settled) : list Conversation :=
  match r with
  | Fulfilled v => conversations_of v
  | Rejected _ => []
  end.

(** The total a branch contributes: what the API reported for a
    successful branch, nothing for a failed one. *)
Definition branch_total (r : settled) : nat :=
  match r with
  | Fulfilled v => total_of v
  | Rejected _ => 0
  end.

(** Keep a conversation only if its id has not been added before. *)
Fixpoint keep_first (seen : list Z) (l : list Conversation) : list Conversation :=
  match l with
  | [] => []
  | c :: l' =>
      if bool_decide (id c ∈ seen) then keep_first seen l'
      else c :: keep_first (seen ++ [id c]) l'
  end.

(** The merged sequence: the branches in their order, each in its page
    order, without the ids already added. *)
Definition merged (rs : list settled) : list Conversation :=
  keep_first [] (flat_map branch_conversations rs).

(** The entry of a failed branch: its status, message and code. *)
Definition failure_of (statuses : list status) (index : nat) (e : thrown) : failure :=
  {| f_status := nth index statuses active; f_message := message_of e;
     f_code := errorCode_of e |}.

(** The failed branches in branch order; the branch at position [k] of
    [rs] belongs to the status at position [index + k]. *)
Fixpoint failures_from (statuses : list status) (index : nat) (rs : list settled)
    : list failure :=
  match rs with
  | [] => []
  | Rejected e :: rs' => failure_of statuses index e :: failures_from statuses (S index) rs'
  | Fulfilled _ :: rs' => failures_from statuses (S index) rs'
  end.

(** The totals by status of the successful branches. *)
Fixpoint totals_from (statuses : list status) (index : nat) (rs : list settled)
    (o : list (status * nat)) : list (status * nat) :=
  match rs with
  | [] => o
  | Fulfilled v :: rs' =>
      totals_from statuses (S index) rs'
        (set_total (nth index statuses active) (total_of v) o)
  | Rejected _ :: rs' => totals_from statuses (S index) rs' o
  end.

Definition sum_list (l : list nat) : nat := foldr Nat.add 0 l.


(** The pre-filter total an original pagination object carries. *)
Definition api_total (pg : pagination) : option nat :=
  match pg with
  | ApiPage p => p ≫= totalElements
  | Counts m => c_totalAvailable m
  end.

Definition api_totals_by_status (pg : pagination) : option (list (status * nat)) :=
  match pg with
  | ApiPage _ => None
  | Counts m => c_totalByStatus m
  end.


Definition log_of_failure (f : failure) : log_entry :=
  LogStatusFailed (f_status f) (f_code f) (f_message f).

(** Non-increasing creation time, neighbour by neighbour. *)
Fixpoint newest_first (l : list Conversation) : Prop :=
  match l with
  | a :: (b :: _) as l' => (createdAt b <= createdAt a)%Z /\ newest_first l'
  | _ => True
  end.


(** [part] occurs in [s]. *)
Definition occurs_in (part s : jsstr) : Prop := exists pre post, s = pre ++ part ++ post.

(** [seenIds] holds the ids of [conversations]. *)
Definition seen_ok (m : merge) : Prop :=
  forall x : Z, x ∈ seenIds m <-> x ∈ List.map id (conversations m).

(** The branch outcomes of a search over all statuses. *)
Definition branches (api : transport) (i : input) (q : option jsstr) : list settled :=
  allSettled (fun s => api (base_request i q s)) all_statuses.

(** The limit in force: the requested one, 50 when it is absent. *)
Definition effective_limit (i : input) : nat :=
  if limit i =? 0 then 50 else limit i.

(** The statuses that did not fail. *)
Definition searched (fs : list failure) : list status :=
  if 0 <? length fs
  then List.filter
         (fun s => negb (existsb (fun f => bool_decide (f_status f = s)) fs))
         all_statuses
  else all_statuses.

(** The accounting of the merged search: totals of the successful
    branches, the failed branches, and the note. *)
Definition merged_counts (rs : list settled) (returned : nat) : counts :=
  let fs := failures_from all_statuses 0 rs in
  let by_status := totals_from all_statuses 0 rs [] in
  let total := sum_list (List.map branch_total rs) in
  {| totalResults := returned;
     c_totalAvailable := when_some by_status total;
     c_totalByStatus := when_some by_status by_status;
     errors := when_some fs fs;
     note := Some (merged_note
                     {| seenIds := ∅; conversations := []; failedStatuses := fs;
                        totalAvailable := total; totalByStatus := by_status |}
                     returned) |}.

(** Merge, then sort, then limit. *)
Definition reconciled (rs : list settled) (i : input) : list Conversation :=
  take (effective_limit i) (js_sort by_createdAt_desc (merged rs)).

(** The query [searchConversations] sends, when the date is accepted. *)
Definition sent_query (i : input) : thrown + option jsstr :=
  let baseQuery := if ofalsy (query i) then None else query i in
  match appendCreatedAtFilter baseQuery (createdAfter i) None with
  | inl e => inl e
  | inr queryWithDate => inr (if ofalsy queryWithDate then baseQuery else queryWithDate)
  end.

Definition before (t : Z) (c : Conversation) : bool := (createdAt c <? t)%Z.

(** The pagination after the client-side filter has removed something. *)
Definition refiltered (count : nat) (pg : pagination) : pagination :=
  match pg with
  | ApiPage p => buildFilteredPagination count p true
  | Counts merged => Counts (filtered_merged count merged)
  end.

(** What a branch of the comprehensive search ends with. *)
Definition branch (api : transport) (c : context) (s : status) : thrown + status_result :=
  outcome (searchSingleStatus api c s).

(** The entry pushed for a branch that failed with a non-fatal error. *)
Definition placeholder (c : context) (s : status) : status_result :=
  {| sr_status := s; totalCount := 0; totalCountBeforeFilter := None;
     sr_conversations := []; sr_searchQuery := searchQuery c;
     filteredByCreatedBefore := None |}.

(** The terminal outcome of a branch: its result, the entry of a recorded
    failure, or the fatal error. *)
Definition terminal (api : transport) (c : context) (s : status)
    : thrown + status_result :=
  match branch api c s with
  | inr r => inr r
  | inl e => if fatal e then inl e else inr (placeholder c s)
  end.

(** One terminal outcome for each status, up to the first fatal error. *)
Fixpoint collect (api : transport) (c : context) (todo : list status)
    : thrown + list status_result :=
  match todo with
  | [] => inr []
  | s :: rest =>
      match terminal api c s with
      | inl e => inl e
      | inr r =>
          match collect api c rest with
          | inl e => inl e
          | inr rs => inr (r :: rs)
          end
      end
  end.


(** How the notes quote the count after the filter and the total from
    before it. *)
Definition filtered_count_text (n : nat) : jsstr :=
  str "totalResults shows filtered count (" ++ of_nat n ++ str ")".

Definition pre_filter_text (total : option nat) : jsstr :=
  str "total (" ++ show_total total ++ str ")".

End SearchSpec.

(** ** Concrete branches and inputs for the scenarios of the specification *)

Module Scenario.
Import Chars JS Effects Query Search SearchSpec.

Definition conv (i t : Z) : Conversation :=
  {| id := i; number := i; subject := []; createdAt := t |}.

Definition answer (convs : list Conversation) (total : nat) : thrown + response :=
  inr {| embedded := Some convs; page_of := Some {| totalElements := Some total |} |}.

(** Active and closed succeed with totals 10 and 5, pending is rate
    limited. *)
Definition api_partial : transport := fun rq =>
  match rq_status rq with
  | active => answer [conv 1 100; conv 2 300; conv 3 200] 10
  | pending => inl (ApiError RATE_LIMIT (str "Too many requests"))
  | closed => answer [conv 4 300; conv 1 100; conv 5 250] 5
  | spam => answer [] 0
  end.



(** Eight records of twenty, three of them created at or after 600. *)
Definition api_twenty : transport := fun _ =>
  answer [conv 1 100; conv 2 200; conv 3 300; conv 4 400; conv 5 500;
          conv 6 600; conv 7 700; conv 8 800] 20.

Definition search_all (n : nat) : input :=
  {| query := None; in_status := None; createdAfter := None;
     createdBefore := None; limit := n |}.

Definition search_active_before (t : Z) : input :=
  {| query := None; in_status := Some active; createdAfter := None;
     createdBefore := Some (str "2024-03-01T00:00:00Z", Some t); limit := 50 |}.

Definition comprehensive : context :=
  {| statuses := [active; pending; closed]; searchQuery := str "(body:refund)";
     ctx_createdAfter := str "2024-01-01T00:00:00Z"; limitPerStatus := 25;
     ctx_createdBefore := None |}.

Definition comprehensive_before (t : Z) : context :=
  {| statuses := [active; pending; closed]; searchQuery := str "(body:refund)";
     ctx_createdAfter := str "2024-01-01T00:00:00Z"; limitPerStatus := 25;
     ctx_createdBefore := Some (str "2024-03-01T00:00:00Z", Some t) |}.

(** What [executeMultiStatusSearch] collects for [api_partial]. *)
Definition partial_lists : list status_result :=
  [ {| sr_status := active; totalCount := 10; totalCountBeforeFilter := None;
       sr_conversations := [conv 1 100; conv 2 300; conv 3 200];
       sr_searchQuery := str "(body:refund)"; filteredByCreatedBefore := Some false |};
    placeholder comprehensive pending;
    {| sr_status := closed; totalCount := 5; totalCountBeforeFilter := None;
       sr_conversations := [conv 4 300; conv 1 100; conv 5 250];
       sr_searchQuery := str "(body:refund)"; filteredByCreatedBefore := Some false |} ].

End Scenario.

(** ** The text functions as the specification words them *)

Module TextSpec.
Import Chars Regex JS HtmlStripper Effects Query.

(** A quantifier over a single class, by recursion on the input. *)
Fixpoint cls_loop (p : N -> bool) (greedy : bool) (lo : nat) (hi : option nat)
    (pv : option N) (s : jsstr) : list st :=
  let stop := match lo with 0 => [(pv, s)] | _ => [] end in
  if hi_is_zero hi then [(pv, s)]
  else
    match s with
    | c :: t =>
        if p c then
          let more := cls_loop p greedy (pred lo) (dec_hi hi) (Some c) t in
          if greedy then more ++ stop else stop ++ more
        else stop
    | [] => stop
    end.

(** The text is exactly a full stop, three digits and a Z. *)
Definition is_millis (s : jsstr) : bool :=
  match s with
  | [d; a; b; c; z] =>
      (d =? 46)%N && is_digit a && is_digit b && is_digit c && (z =? 90)%N
  | _ => false
  end.

(** A millisecond part at the very end becomes a Z. *)
Fixpoint strip_millis (s : jsstr) : jsstr :=
  if is_millis s then str "Z"
  else match s with
       | [] => []
       | c :: t => c :: strip_millis t
       end.

(** The bound written into the clause. *)
Definition range_end (d : option jsstr) : jsstr :=
  match d with
  | None | Some [] => str "*"
  | Some t => strip_millis t
  end.


(** A bound that is given. *)
Definition given (d : option jsstr) : Prop :=
  exists t, d = Some t /\ t <> [].












(** The length of the longest prefix of [s] in the class [p]. *)
Fixpoint span (p : N -> bool) (s : jsstr) : nat :=
  match s with
  | c :: t => if p c then S (span p t) else 0
  | [] => 0
  end.

(** Every run of code units of the class [p] is shorter than [n]. *)
Fixpoint short_runs (p : N -> bool) (n : nat) (s : jsstr) : bool :=
  match s with
  | [] => true
  | c :: t => (span p (c :: t) <? n) && short_runs p n t
  end.

Definition is_lf (c : N) : bool := (LF =? c)%N.




End TextSpec.

(** ** Concrete message bodies *)

Module Bodies.
Import Chars Regex JS HtmlStripper.

Definition lines_of (l : list string) : jsstr := join [LF] (List.map str l).

Definition hundred : string :=
  "0123456789012345678901234567890123456789012345678901234567890123456789012345678901234567890123456789"%string.

(** A reply, a From line, [gap] empty lines, a Date line and a hundred
    code units of quoted text: the Date line is [gap + 1] lines after the
    From line. *)
Definition forwarded (gap : nat) : jsstr :=
  lines_of (["Hello there, thanks."%string; "From: a@b.c"%string]
            ++ repeat EmptyString gap
            ++ ["Date: Mon, 1 Jan 2024"%string; hundred]).

End Bodies.


(** ** src/tools/index.ts: building queries from terms *)

Module QueryTerms.
Import Chars Regex JS.

Definition BACKSLASH : N := 92.
Definition DQUOTE : N := 34.

(** [term.replace(/\\/g, '\\\\').replace(/"/g, '\\"')]: backslashes
    first, then double quotes. *)
Definition escapeQueryTerm (term : jsstr) : jsstr :=
  replace_all (chr DQUOTE) (fun _ => [BACKSLASH; DQUOTE])
    (replace_all (chr BACKSLASH) (fun _ => [BACKSLASH; BACKSLASH]) term).

(** The values of [TOOL_CONSTANTS.SEARCH_LOCATIONS], which are also the
    values the schema admits in [searchIn]. *)
Inductive location : Type := BODY | SUBJECT | BOTH.

#[global] Instance location_eq_dec : EqDecision location.
Proof. solve_decision. Defined.

(** [searchIn.includes(x)] *)
Definition includes (searchIn : list location) (x : location) : bool :=
  bool_decide (x ∈ searchIn).

(** [`field:"${escapedTerm}"`] *)
Definition field_query (field : string) (escapedTerm : jsstr) : jsstr :=
  str field ++ [58%N; DQUOTE] ++ escapedTerm ++ [DQUOTE].

(** [`(${qs.join(' OR ')})`] *)
Definition any_of (qs : list jsstr) : jsstr :=
  str "(" ++ join (str " OR ") qs ++ str ")".

(** The body of the loop of [buildSearchQuery] for one term: the new
    value of [queries]. *)
Definition add_term (searchIn : list location) (queries : list jsstr) (term : jsstr)
    : list jsstr :=
  let escapedTerm := escapeQueryTerm term in
  let termQueries :=
    (if includes searchIn BODY || includes searchIn BOTH
     then [field_query "body" escapedTerm] else [])
    ++ (if includes searchIn SUBJECT || includes searchIn BOTH
        then [field_query "subject" escapedTerm] else []) in
  if 0 <? length termQueries then queries ++ [any_of termQueries] else queries.

Definition buildSearchQuery (terms : list jsstr) (searchIn : list location) : jsstr :=
  join (str " OR ") (fold_left (add_term searchIn) terms []).

(** [s.replace('@', '')]: a string pattern replaces its first occurrence
    only. *)
Fixpoint remove_first (x : N) (s : jsstr) : jsstr :=
  match s with
  | [] => []
  | c :: t => if (c =? x)%N then t else c :: remove_first x t
  end.

(** The criteria of [advancedConversationSearch] that go into the query
    string. *)
Record criteria : Type := {
  contentTerms : option (list jsstr);
  subjectTerms : option (list jsstr);
  customerEmail : option jsstr;
  emailDomain : option jsstr;
  tags : option (list jsstr);
}.

(** [xs && xs.length > 0] then one part, the terms joined with OR. *)
Definition terms_part (field : string) (xs : option (list jsstr)) : list jsstr :=
  match xs with
  | Some (x :: l) =>
      [any_of (List.map (fun term => field_query field (escapeQueryTerm term)) (x :: l))]
  | _ => []
  end.

(** [queryParts] at the end of the five [if]s. *)
Definition queryParts (c : criteria) : list jsstr :=
  terms_part "body" (contentTerms c)
  ++ terms_part "subject" (subjectTerms c)
  ++ (if ofalsy (customerEmail c) then []
      else [field_query "email" (escapeQueryTerm (default [] (customerEmail c)))])
  ++ (if ofalsy (emailDomain c) then []
      else [field_query "email"
              (escapeQueryTerm (remove_first 64 (default [] (emailDomain c))))])
  ++ terms_part "tag" (tags c).

(** [queryParts.length > 0 ? queryParts.join(' AND ') : undefined] *)
Definition queryString (c : criteria) : option jsstr :=
  if 0 <? length (queryParts c) then Some (join (str " AND ") (queryParts c)) else None.

(** [`(${customerIds.map(id => `customerIds:${id}`).join(' OR ')})`] of
    [structuredConversationFilter], for a non-empty list. *)
Definition customer_query (customerIds : list nat) : option jsstr :=
  match customerIds with
  | [] => None
  | _ => Some (any_of (List.map (fun id => str "customerIds:" ++ of_nat id) customerIds))
  end.

End QueryTerms.

(** ** Reading a query back *)

Module QuerySpec.
Import Chars Regex JS QueryTerms.

(** The quoted phrases of a query, read from left to right: a double
    quote opens a phrase, inside a phrase a backslash makes the next code
    unit literal and a double quote closes the phrase.  A phrase that is
    not closed is not a phrase. *)
Fixpoint read (inside : bool) (phrase : jsstr) (s : jsstr) : list jsstr :=
  match s with
  | [] => []
  | c :: t =>
      if inside then
        if (c =? BACKSLASH)%N then
          match t with
          | d :: t' => read true (phrase ++ [d]) t'
          | [] => []
          end
        else if (c =? DQUOTE)%N then phrase :: read false [] t
        else read true (phrase ++ [c]) t
      else if (c =? DQUOTE)%N then read true [] t
      else read false [] t
  end.

Definition phrases (q : jsstr) : list jsstr := read false [] q.

(** One code unit of a term, escaped. *)
Definition escape_unit (c : N) : jsstr :=
  if (c =? BACKSLASH)%N then [BACKSLASH; BACKSLASH]
  else if (c =? DQUOTE)%N then [BACKSLASH; DQUOTE]
  else [c].

(** How often a term is searched for: once in the body, once in the
    subject. *)
Definition places (searchIn : list location) : nat :=
  (if includes searchIn BODY || includes searchIn BOTH then 1 else 0)
  + (if includes searchIn SUBJECT || includes searchIn BOTH then 1 else 0).

(** Wherever [q] stands outside a phrase, its phrases are [l] and what
    follows it is again outside a phrase. *)
Definition reads_as (q : jsstr) (l : list jsstr) : Prop :=
  forall rest, read false [] (q ++ rest) = l ++ read false [] rest.

(** The terms of an optional list. *)
Definition terms_of (xs : option (list jsstr)) : list jsstr := default [] xs.

(** An optional text that is given and not empty. *)
Definition text_of (x : option jsstr) : list jsstr :=
  match x with
  | Some (c :: t) => [c :: t]
  | _ => []
  end.

(** The code units a date that passes [isoDatePattern] is made of. *)
Definition date_unit (c : N) : bool :=
  is_digit c || (c =? 45)%N || (c =? 84)%N || (c =? 58)%N || (c =? 46)%N || (c =? 90)%N.

(** Every class of the pattern lies within [q]: a match is made of code
    units of [q]. *)
Fixpoint made_of (q : N -> bool) (r : re) : Prop :=
  match r with
  | Cls p => forall c, p c = true -> q c = true
  | Seq r1 r2 | Alt r1 r2 => made_of q r1 /\ made_of q r2
  | Rep _ _ _ r1 => made_of q r1
  | Eps | Bol | Eol | WordB => True
  end.

(** The pattern ends with the end of the input. *)
Fixpoint to_the_end (r : re) : Prop :=
  match r with
  | Eol => True
  | Seq _ r2 => to_the_end r2
  | _ => False
  end.

End QuerySpec.

(** ** src/tools/index.ts: the other conversation searches *)

Module Tools.
Import Chars Regex JS Effects Query Search QueryTerms.

(** The query parameters of a GET of /conversations, as
    [advancedConversationSearch] and [structuredConversationFilter] set
    them: a key that is not set is [None]. *)
Record conv_params : Type := {
  p_page : nat;
  p_size : nat;
  p_sortField : jsstr;
  p_sortOrder : jsstr;
  p_query : option jsstr;
  p_mailbox : option jsstr;
  p_status : jsstr;
  p_tag : option jsstr;
  p_assigned_to : option Z;
  p_folder : option nat;
  p_number : option nat;
  p_modifiedSince : option jsstr;
}.

(** A page of conversations with [_links?.next?.href]. *)
Record listing : Type := {
  body_of : response;
  next_href : option jsstr;
}.

Definition client : Type := conv_params -> thrown + listing.

(** [a || b] for [string | undefined] *)
Definition or_text (a b : option jsstr) : option jsstr :=
  if ofalsy a then b else a.

(** [if (x) params.key = x] *)
Definition when_truthy (x : option jsstr) : option jsstr :=
  if ofalsy x then None else x.

Definition formatInboxScope (effectiveInboxId explicitInboxId : option jsstr) : jsstr :=
  if ofalsy effectiveInboxId then str "ALL inboxes"
  else if ofalsy explicitInboxId
       then str "Default inbox: " ++ default [] effectiveInboxId
       else str "Specific inbox: " ++ default [] effectiveInboxId.

(** [`createdBefore filter removed ${originalCount - kept} of ${originalCount} results`] *)
Definition removed_text (originalCount kept : nat) : jsstr :=
  str "createdBefore filter removed " ++ of_nat (originalCount - kept)
    ++ str " of " ++ of_nat originalCount ++ str " results".

(** *** advancedConversationSearch *)

Record advanced_input : Type := {
  a_criteria : criteria;
  a_inboxId : option jsstr;
  a_status : option status;
  a_createdAfter : option jsstr;
  a_createdBefore : option (jsstr * option Z);
  a_limit : nat;
}.

Record advanced_result : Type := {
  ar_results : list Conversation;
  ar_searchQuery : option jsstr;
  ar_inboxScope : jsstr;
  ar_searchCriteria : criteria;
  ar_pagination : pagination;
  ar_nextCursor : option jsstr;
  ar_clientSideFiltering : option jsstr;
  ar_note : option jsstr;
}.

(** [queryParams] at the call of [helpScoutClient.get], or what
    [appendCreatedAtFilter] throws before it. *)
Definition advanced_params (defaultInboxId : option jsstr) (i : advanced_input)
    : thrown + conv_params :=
  let queryString := queryString (a_criteria i) in
  let effectiveInboxId := or_text (a_inboxId i) defaultInboxId in
  match appendCreatedAtFilter (when_truthy queryString) (a_createdAfter i) None with
  | inl e => inl e
  | inr queryWithDate =>
      inr {| p_page := 1;
             p_size := if a_limit i =? 0 then 50 else a_limit i;
             p_sortField := str "createdAt";
             p_sortOrder := str "desc";
             p_query := if ofalsy queryWithDate then when_truthy queryString
                        else queryWithDate;
             p_mailbox := when_truthy effectiveInboxId;
             p_status := match a_status i with
                         | Some s => status_name s
                         | None => str "all"
                         end;
             p_tag := None; p_assigned_to := None; p_folder := None;
             p_number := None; p_modifiedSince := None |}
  end.

Definition advancedConversationSearch (defaultInboxId : option jsstr) (api : client)
    (i : advanced_input) : M advanced_result :=
  let effectiveInboxId := or_text (a_inboxId i) defaultInboxId in
  queryParams ← lift (advanced_params defaultInboxId i);
  response ← lift (api queryParams);
  let conversations := conversations_of (body_of response) in
  let originalCount := length conversations in
  filter_if_asked (a_createdBefore i) conversations ≫=
  λ r : list Conversation * bool,
    let conversations := fst r in
    let clientSideFiltered := snd r in
    mret {| ar_results := conversations;
            ar_searchQuery := queryString (a_criteria i);
            ar_inboxScope := formatInboxScope effectiveInboxId (a_inboxId i);
            ar_searchCriteria := a_criteria i;
            ar_pagination := buildFilteredPagination (length conversations)
                               (page_of (body_of response)) clientSideFiltered;
            ar_nextCursor := next_href response;
            ar_clientSideFiltering :=
              if clientSideFiltered
              then Some (removed_text originalCount (length conversations))
              else None;
            ar_note :=
              if ofalsy effectiveInboxId
              then Some (str "Searching ALL inboxes. Set HELPSCOUT_DEFAULT_INBOX_ID for better LLM context.")
              else None |}.

(** *** structuredConversationFilter *)

(** The values of [sortBy] and [sortOrder] the schema admits. *)
Inductive sort_by : Type :=
| ByCreatedAt | ByModifiedAt | ByNumber | ByWaitingSince | ByCustomerName
| ByCustomerEmail | ByMailboxId | ByStatus | BySubject.

Definition sort_by_name (s : sort_by) : jsstr :=
  match s with
  | ByCreatedAt => str "createdAt"
  | ByModifiedAt => str "modifiedAt"
  | ByNumber => str "number"
  | ByWaitingSince => str "waitingSince"
  | ByCustomerName => str "customerName"
  | ByCustomerEmail => str "customerEmail"
  | ByMailboxId => str "mailboxId"
  | ByStatus => str "status"
  | BySubject => str "subject"
  end.

Inductive sort_order : Type := Asc | Desc.

Definition sort_order_name (o : sort_order) : jsstr :=
  match o with Asc => str "asc" | Desc => str "desc" end.

(** [status]: one of the four statuses or [all], which is the default of
    the schema. *)
Inductive status_filter : Type :=
| Only (s : status)
| All.

Definition status_filter_name (s : status_filter) : jsstr :=
  match s with Only x => status_name x | All => str "all" end.

Record structured_input : Type := {
  assignedTo : option Z;
  folderId : option nat;
  customerIds : option (list nat);
  conversationNumber : option nat;
  s_status : status_filter;
  s_inboxId : option jsstr;
  s_tag : option jsstr;
  s_createdAfter : option jsstr;
  s_createdBefore : option (jsstr * option Z);
  s_modifiedSince : option jsstr;
  sortBy : sort_by;
  sortOrder : sort_order;
  s_limit : nat;
}.

Record filter_applied : Type := {
  fa_assignedTo : option Z;
  fa_folderId : option nat;
  fa_customerIds : option (list nat);
  fa_conversationNumber : option nat;
  uniqueSorting : option jsstr;
}.

Record structured_result : Type := {
  st_results : list Conversation;
  filterApplied : filter_applied;
  st_inboxScope : jsstr;
  st_pagination : pagination;
  st_nextCursor : option jsstr;
  st_clientSideFiltering : option jsstr;
}.

(** [['waitingSince', 'customerName', 'customerEmail'].includes(sortBy)] *)
Definition is_unique_sorting (s : sort_by) : bool :=
  match s with
  | ByWaitingSince | ByCustomerName | ByCustomerEmail => true
  | _ => false
  end.

Definition structured_params (defaultInboxId : option jsstr) (i : structured_input)
    : thrown + conv_params :=
  let query := customerIds i ≫= customer_query in
  let effectiveInboxId := or_text (s_inboxId i) defaultInboxId in
  match appendCreatedAtFilter query (s_createdAfter i) None with
  | inl e => inl e
  | inr queryWithDate =>
      inr {| p_page := 1;
             p_size := s_limit i;
             p_sortField := sort_by_name (sortBy i);
             p_sortOrder := sort_order_name (sortOrder i);
             p_query := if ofalsy queryWithDate then query else queryWithDate;
             p_mailbox := when_truthy effectiveInboxId;
             p_status := status_filter_name (s_status i);
             p_tag := when_truthy (s_tag i);
             p_assigned_to := assignedTo i;
             p_folder := folderId i;
             p_number := conversationNumber i;
             p_modifiedSince := when_truthy (s_modifiedSince i) |}
  end.

Definition structuredConversationFilter (defaultInboxId : option jsstr) (api : client)
    (i : structured_input) : M structured_result :=
  let effectiveInboxId := or_text (s_inboxId i) defaultInboxId in
  queryParams ← lift (structured_params defaultInboxId i);
  response ← lift (api queryParams);
  let conversations := conversations_of (body_of response) in
  let originalCount := length conversations in
  filter_if_asked (s_createdBefore i) conversations ≫=
  λ r : list Conversation * bool,
    let conversations := fst r in
    let clientSideFiltered := snd r in
    mret {| st_results := conversations;
            filterApplied :=
              {| fa_assignedTo := assignedTo i;
                 fa_folderId := folderId i;
                 fa_customerIds := customerIds i;
                 fa_conversationNumber := conversationNumber i;
                 uniqueSorting := if is_unique_sorting (sortBy i)
                                  then Some (sort_by_name (sortBy i)) else None |};
            st_inboxScope := formatInboxScope effectiveInboxId (s_inboxId i);
            st_pagination := buildFilteredPagination (length conversations)
                               (page_of (body_of response)) clientSideFiltered;
            st_nextCursor := next_href response;
            st_clientSideFiltering :=
              if clientSideFiltered
              then Some (removed_text originalCount (length conversations))
              else None |}.

(** *** The context of comprehensiveConversationSearch *)

Record comprehensive_input : Type := {
  searchTerms : list jsstr;
  ci_statuses : list status;
  searchIn : list location;
  timeframeDays : nat;
  ci_createdAfter : option jsstr;
  ci_createdBefore : option (jsstr * option Z);
  ci_limitPerStatus : nat;
}.

(** [calculateTimeRange]: [toISOString] is the ISO text of the date that
    lies [timeframeDays] days before now. *)
Definition calculateTimeRange (toISOString : nat -> jsstr) (timeframeDays : nat) : jsstr :=
  replace_first re_millis (str "Z") (toISOString timeframeDays).

(** [buildComprehensiveSearchContext], with the fields the search reads. *)
Definition buildComprehensiveSearchContext (toISOString : nat -> jsstr)
    (input : comprehensive_input) : context :=
  {| statuses := ci_statuses input;
     searchQuery := buildSearchQuery (searchTerms input) (searchIn input);
     ctx_createdAfter :=
       if ofalsy (ci_createdAfter input)
       then calculateTimeRange toISOString (timeframeDays input)
       else default [] (ci_createdAfter input);
     limitPerStatus := ci_limitPerStatus input;
     ctx_createdBefore := ci_createdBefore input |}.

End Tools.

(** ** The client-side filter and the searches, in words *)

Module ToolSpec.
Import Chars Regex JS Effects Query Search SearchSpec QueryTerms QuerySpec Tools.

(** The conversations a [createdBefore] argument keeps: those created
    strictly before the bound; all of them without the argument. *)
Definition kept_by (cb : option (jsstr * option Z)) (convs : list Conversation)
    : list Conversation :=
  match cb with
  | Some (_ :: _, Some t) => List.filter (before t) convs
  | _ => convs
  end.

(** What is thrown for a [createdBefore] that is no date. *)
Definition invalid_before (cb : option (jsstr * option Z)) : option thrown :=
  match cb with
  | Some (c :: text, None) =>
      Some (OtherError (str "Invalid createdBefore date format: " ++ (c :: text)
              ++ str ". Expected ISO 8601 format (e.g., 2023-01-15T00:00:00Z)"))
  | _ => None
  end.

(** What the filter logs: one warning when it removed something. *)
Definition filter_log (fetched kept : nat) : list log_entry :=
  if 0 <? fetched - kept then [LogFiltered fetched kept (fetched - kept)] else [].

(** The pagination after the filter: the page of the API when nothing was
    removed, the two counts and the note otherwise. *)
Definition accounted (fetched kept : nat) (p : option page) : pagination :=
  if 0 <? fetched - kept then buildFilteredPagination kept p true else ApiPage p.

Definition removed_note (fetched kept : nat) : option jsstr :=
  if 0 <? fetched - kept then Some (removed_text fetched kept) else None.

(** An answer whose total, when it reports one, is not below the number
    of conversations it carries. *)
Definition consistent (resp : response) : Prop :=
  match page_of resp ≫= totalElements with
  | Some (S n) => length (conversations_of resp) <= S n
  | _ => True
  end.

(** The request [searchSingleStatus] sends for a status. *)
Definition status_request (c : context) (s : status) (q : option jsstr) : request :=
  {| rq_status := s; rq_query := q; rq_size := limitPerStatus c |}.

(** The query [searchSingleStatus] sends, or what is thrown for the
    creation date. *)
Definition single_query (c : context) : thrown + option jsstr :=
  match appendCreatedAtFilter (Some (searchQuery c)) (Some (ctx_createdAfter c)) None with
  | inl e => inl e
  | inr queryWithDate =>
      inr (if ofalsy queryWithDate then Some (searchQuery c) else queryWithDate)
  end.

End ToolSpec.

(** ** Concrete searches *)

Module ToolScenario.
Import Chars Regex JS Effects Query Search SearchSpec QueryTerms QuerySpec Tools ToolSpec
  Scenario.

Definition no_criteria : criteria :=
  {| contentTerms := None; subjectTerms := None; customerEmail := None;
     emailDomain := None; tags := None |}.

(** Content terms, one of them with a double quote, and an email domain
    written with its at sign. *)
Definition refund_criteria : criteria :=
  {| contentTerms := Some [str "refund"; [115; 97; 105; 100; 32; 34; 110; 111; 34]%N];
     subjectTerms := None; customerEmail := None;
     emailDomain := Some (str "@acme.com"); tags := Some [str "billing"] |}.

Definition advanced (after : option jsstr) (before : option (jsstr * option Z))
    : advanced_input :=
  {| a_criteria := refund_criteria; a_inboxId := None; a_status := None;
     a_createdAfter := after; a_createdBefore := before; a_limit := 25 |}.

Definition by_number (n : nat) (before : option (jsstr * option Z)) : structured_input :=
  {| assignedTo := None; folderId := None; customerIds := None;
     conversationNumber := Some n; s_status := All; s_inboxId := None; s_tag := None;
     s_createdAfter := None; s_createdBefore := before; s_modifiedSince := None;
     sortBy := ByCreatedAt; sortOrder := Desc; s_limit := 50 |}.

(** Three conversations of seven, created at 100, 300 and 200. *)
Definition three_of_seven : client := fun _ =>
  inr {| body_of := {| embedded := Some [conv 1 100; conv 2 300; conv 3 200];
                       page_of := Some {| totalElements := Some 7 |} |};
         next_href := None |}.

Definition unreachable : client := fun _ => inl (OtherError (str "connect ECONNREFUSED")).

End ToolScenario.

(** ** src/tools/index.ts: threads and attachments *)

Module Threads.
Import Chars Regex JS HtmlStripper Effects Query Search Tools.

(** The part of [config] the tools below read: [security.allowPii],
    [formatting.stripHtml] and [formatting.maxBodyLength], which is the
    result of a [parseInt]: [None] stands for [NaN]. *)
Record settings : Type := {
  allowPii : bool;
  fmt_stripHtml : bool;
  maxBodyLength : option Z;
}.

(** [config.formatting.maxBodyLength || undefined] *)
Definition or_undefined (n : option Z) : option Z :=
  match n with
  | Some n' => if (n' =? 0)%Z then None else Some n'
  | None => None
  end.

Definition HIDDEN : jsstr :=
  str "[Content hidden - set REDACT_MESSAGE_CONTENT=false to view]".

(** A customer or a user of the API; only its presence is read. *)
Record person : Type := { person_id : Z; person_email : jsstr }.

(** An attachment of the API, with the fields the tools read; [att_id]
    is [String(att.id)], the only form in which the id is compared and
    printed. *)
Record attachment : Type := {
  att_id : jsstr;
  filename : option jsstr;
  fileName : option jsstr;
  mimeType : option jsstr;
  att_size : option nat;
  att_width : option nat;
  att_height : option nat;
  att_state : option jsstr;
}.

Record thread_embedded : Type := { attachments : option (list attachment) }.

(** A thread of the API; [th_createdAt] is the time value of its date,
    [new Date(createdAt).getTime()]. *)
Record Thread : Type := {
  th_id : Z;
  th_type : jsstr;
  th_body : option jsstr;
  th_createdAt : Z;
  th_customer : option person;
  th_createdBy : option person;
  th_embedded : option thread_embedded;
}.

(** [PaginatedResponse<Thread>]: [_embedded?.threads], [page] and
    [_links?.next?.href]. *)
Record threads_page : Type := {
  tp_threads : option (list Thread);
  tp_page : option page;
  tp_next : option jsstr;
}.

(** The fields of a conversation that [getConversationSummary] copies. *)
Record details : Type := {
  d_id : Z;
  d_subject : jsstr;
  d_status : jsstr;
  d_createdAt : jsstr;
  d_updatedAt : jsstr;
  d_customer : option person;
  d_assignee : option person;
  d_tags : list jsstr;
}.

(** [helpScoutClient.get] for the three paths the tools ask for:
    /conversations/id, /conversations/id/threads with page 1 and a
    size, and /conversations/id/attachments/id/data. *)
Record helpscout : Type := {
  get_conversation : jsstr -> thrown + details;
  get_threads : jsstr -> nat -> thrown + threads_page;
  get_attachment_data : jsstr -> jsstr -> thrown + jsstr;
}.

(** *** getConversationSummary *)

(** The helper [processBody]. *)
Definition processBody (cfg : settings) (body : option jsstr) : jsstr :=
  if negb (allowPii cfg) then HIDDEN
  else if ofalsy body then []
  else if fmt_stripHtml cfg
       then let text := stripHtml (default [] body) (or_undefined (maxBodyLength cfg)) in
            stripQuotedContent text
       else default [] body.

(** [t => t.type === 'customer'] and
    [t => t.type === 'message' && t.createdBy] *)
Definition is_customer (t : Thread) : bool := jsstr_eqb (th_type t) (str "customer").
Definition is_staff (t : Thread) : bool :=
  jsstr_eqb (th_type t) (str "message")
  && match th_createdBy t with Some _ => true | None => false end.

(** The two comparison functions of the sorts. *)
Definition oldest_first (a b : Thread) : Z := (th_createdAt a - th_createdAt b)%Z.
Definition latest_first (a b : Thread) : Z := (th_createdAt b - th_createdAt a)%Z.

Record message : Type := {
  m_id : Z;
  m_body : jsstr;
  m_createdAt : Z;
  m_from : option person;
}.

Record conversation_summary : Type := {
  cs_conversation : details;
  firstCustomerMessage : option message;
  latestStaffReply : option message;
}.

Definition getConversationSummary (cfg : settings) (api : helpscout)
    (conversationId : jsstr) : thrown + conversation_summary :=
  match get_conversation api conversationId with
  | inl e => inl e
  | inr conversation =>
      match get_threads api conversationId 50 with
      | inl e => inl e
      | inr threadsResponse =>
          let threads := default [] (tp_threads threadsResponse) in
          let customerThreads := List.filter is_customer threads in
          let staffThreads := List.filter is_staff threads in
          let firstCustomerMessage := head (js_sort oldest_first customerThreads) in
          let latestStaffReply := head (js_sort latest_first staffThreads) in
          inr {| cs_conversation := conversation;
                 firstCustomerMessage :=
                   match firstCustomerMessage with
                   | Some t => Some {| m_id := th_id t;
                                       m_body := processBody cfg (th_body t);
                                       m_createdAt := th_createdAt t;
                                       m_from := th_customer t |}
                   | None => None
                   end;
                 latestStaffReply :=
                   match latestStaffReply with
                   | Some t => Some {| m_id := th_id t;
                                       m_body := processBody cfg (th_body t);
                                       m_createdAt := th_createdAt t;
                                       m_from := th_createdBy t |}
                   | None => None
                   end |}
      end
  end.

(** *** getThreads *)

(** A thread of the answer: the thread without [_embedded], with the
    processed body and the number of its attachments. *)
Record processed_thread : Type := {
  pt_id : Z;
  pt_type : jsstr;
  pt_createdAt : Z;
  pt_customer : option person;
  pt_createdBy : option person;
  pt_body : option jsstr;
  attachmentCount : nat;
}.

(** The function mapped over the threads. *)
Definition process_thread (cfg : settings) (thread : Thread) : processed_thread :=
  let rawBody := th_body thread in
  let body := if allowPii cfg then rawBody else Some HIDDEN in
  let body :=
    if allowPii cfg && fmt_stripHtml cfg && negb (ofalsy body)
    then let body := stripHtml (default [] body) (or_undefined (maxBodyLength cfg)) in
         Some (stripQuotedContent body)
    else body in
  {| pt_id := th_id thread;
     pt_type := th_type thread;
     pt_createdAt := th_createdAt thread;
     pt_customer := th_customer thread;
     pt_createdBy := th_createdBy thread;
     pt_body := body;
     attachmentCount :=
       default 0 (length <$> (th_embedded thread ≫= attachments)) |}.

Record threads_result : Type := {
  tr_conversationId : jsstr;
  tr_threads : list processed_thread;
  tr_pagination : option page;
  tr_nextCursor : option jsstr;
}.

Definition getThreads (cfg : settings) (api : helpscout)
    (conversationId : jsstr) (limit : nat) : thrown + threads_result :=
  match get_threads api conversationId limit with
  | inl e => inl e
  | inr response =>
      let threads := default [] (tp_threads response) in
      inr {| tr_conversationId := conversationId;
             tr_threads := List.map (process_thread cfg) threads;
             tr_pagination := tp_page response;
             tr_nextCursor := tp_next response |}
  end.

(** *** getAttachments *)

Definition MAX_THREAD_SIZE : nat := 200.

Record attachment_info : Type := {
  attachmentId : jsstr;
  threadId : Z;
  ai_filename : option jsstr;
  ai_mimeType : option jsstr;
  ai_size : option nat;
  ai_width : option nat;
  ai_height : option nat;
  ai_state : jsstr;
  threadCreatedAt : Z;
}.

(** [n || null] for a number. *)
Definition or_null_nat (n : option nat) : option nat :=
  match n with
  | Some 0 => None
  | _ => n
  end.

(** [(thread as any)._embedded?.attachments || []] *)
Definition threadAttachments (thread : Thread) : list attachment :=
  default [] (th_embedded thread ≫= attachments).

Definition info_of (thread : Thread) (att : attachment) : attachment_info :=
  {| attachmentId := att_id att;
     threadId := th_id thread;
     ai_filename := or_text (filename att) (fileName att);
     ai_mimeType := mimeType att;
     ai_size := att_size att;
     ai_width := or_null_nat (att_width att);
     ai_height := or_null_nat (att_height att);
     ai_state := if ofalsy (att_state att) then str "unknown"
                 else default [] (att_state att);
     threadCreatedAt := th_createdAt thread |}.

(** The two nested loops that push to [attachments]. *)
Definition collect_attachments (threads : list Thread) : list attachment_info :=
  fold_left (fun attachments thread =>
               fold_left (fun attachments att => attachments ++ [info_of thread att])
                         (threadAttachments thread) attachments)
            threads [].

(** A template literal prints an undefined value as its name. *)
Definition shown (x : option jsstr) : jsstr := default (str "undefined") x.

Definition virus_warning (a : attachment_info) : jsstr :=
  str "WARNING: " ++ shown (ai_filename a) ++ str " (ID " ++ attachmentId a
    ++ str ") flagged as virus".

Record attachments_result : Type := {
  at_conversationId : jsstr;
  at_attachments : list attachment_info;
  at_totalCount : nat;
  virusWarnings : option (list jsstr);
}.

Definition getAttachments (api : helpscout) (conversationId : jsstr)
    : thrown + attachments_result :=
  match get_threads api conversationId MAX_THREAD_SIZE with
  | inl e => inl e
  | inr response =>
      let threads := default [] (tp_threads response) in
      let attachments := collect_attachments threads in
      let virusWarnings :=
        List.map virus_warning
          (List.filter (fun a => jsstr_eqb (ai_state a) (str "virus")) attachments) in
      inr {| at_conversationId := conversationId;
             at_attachments := attachments;
             at_totalCount := length attachments;
             virusWarnings := if 0 <? length virusWarnings
                              then Some virusWarnings else None |}
  end.

(** *** getAttachmentData *)







(** [s.startsWith(p)] *)
Fixpoint startsWith (s p : jsstr) : bool :=
  match p with
  | [] => true
  | x :: p' =>
      match s with
      | y :: s' => (x =? y)%N && startsWith s' p'
      | [] => false
      end
  end.

(** The loop that looks for the attachment: the first thread that has
    an attachment with the id decides. *)
Fixpoint find_attachment (attachmentId : jsstr) (threads : list Thread)
    : option attachment :=
  match threads with
  | [] => None
  | thread :: rest =>
      match List.find (fun a => jsstr_eqb (att_id a) attachmentId)
                      (threadAttachments thread) with
      | Some found => Some found
      | None => find_attachment attachmentId rest
      end
  end.






End Threads.

(** ** The thread tools, in words *)

Module ThreadSpec.
Import Chars Regex JS HtmlStripper Effects Query Search Tools Threads.

(** [t] is the thread of [l] created first, and of those created at
    that time the one that comes first in [l]. *)
Definition earliest (l : list Thread) (t : Thread) : Prop :=
  exists l1 l2, l = l1 ++ t :: l2
    /\ (forall u, u ∈ l1 -> (th_createdAt t < th_createdAt u)%Z)
    /\ (forall u, u ∈ l2 -> (th_createdAt t <= th_createdAt u)%Z).

(** [t] is the thread of [l] created last, and of those created at that
    time the one that comes first in [l]. *)
Definition latest (l : list Thread) (t : Thread) : Prop :=
  exists l1 l2, l = l1 ++ t :: l2
    /\ (forall u, u ∈ l1 -> (th_createdAt u < th_createdAt t)%Z)
    /\ (forall u, u ∈ l2 -> (th_createdAt u <= th_createdAt t)%Z).

(** A thread and a page of threads without the message bodies. *)
Definition blank (t : Thread) : Thread :=
  {| th_id := th_id t; th_type := th_type t; th_body := None;
     th_createdAt := th_createdAt t; th_customer := th_customer t;
     th_createdBy := th_createdBy t; th_embedded := th_embedded t |}.

Definition blank_page (p : threads_page) : threads_page :=
  {| tp_threads := List.map blank <$> tp_threads p;
     tp_page := tp_page p; tp_next := tp_next p |}.

(** Two answers of the API that differ at most in the message bodies. *)
Definition same_but_bodies (a b : thrown + threads_page) : Prop :=
  match a, b with
  | inl e, inl e' => e = e'
  | inr p, inr q => blank_page p = blank_page q
  | _, _ => False
  end.

(** The threads of an answer. *)
Definition threads_of (p : threads_page) : list Thread := default [] (tp_threads p).

(** The attachments of a page with the id, in the order of the page. *)
Definition with_id (attachmentId : jsstr) (threads : list Thread) : list attachment :=
  List.filter (fun a => jsstr_eqb (att_id a) attachmentId)
    (flat_map threadAttachments threads).

Definition is_virus (a : attachment) : Prop := att_state a = Some (str "virus").

End ThreadSpec.

(** ** src/utils/config.ts and the fallback of the inbox discovery *)

Module Setup.
Import Chars Regex JS HtmlStripper Effects Tools Threads.

(** [process.env]: the value of a variable, if it is set. *)
Definition env : Type := string -> option jsstr.

(** [a || 'text'] *)
Definition or_str (a : option jsstr) (d : jsstr) : jsstr :=
  if ofalsy a then d else default [] a.

(** [config.helpscout], the part of [config] that [validateConfig]
    reads. *)
Record helpscout_config : Type := {
  apiKey : jsstr;
  clientId : jsstr;
  clientSecret : jsstr;
  baseUrl : jsstr;
  defaultInboxId : option jsstr;
}.

Definition config_helpscout (e : env) : helpscout_config :=
  {| apiKey := or_str (e "HELPSCOUT_API_KEY"%string) [];
     clientId :=
       or_str (or_text (or_text (e "HELPSCOUT_APP_ID"%string)
                                (e "HELPSCOUT_CLIENT_ID"%string))
                       (e "HELPSCOUT_API_KEY"%string)) [];
     clientSecret :=
       or_str (or_text (e "HELPSCOUT_APP_SECRET"%string)
                       (e "HELPSCOUT_CLIENT_SECRET"%string)) [];
     baseUrl := or_str (e "HELPSCOUT_BASE_URL"%string)
                       (str "https://api.helpscout.net/v2/");
     defaultInboxId := e "HELPSCOUT_DEFAULT_INBOX_ID"%string |}.

(** [config.security.allowPii] and [config.formatting.stripHtml] *)
Definition config_allowPii (e : env) : bool :=
  negb (bool_decide (e "REDACT_MESSAGE_CONTENT"%string = Some (str "true")))
  || bool_decide (e "ALLOW_PII"%string = Some (str "true")).

Definition config_stripHtml (e : env) : bool :=
  negb (bool_decide (e "HELPSCOUT_STRIP_HTML"%string = Some (str "false"))).

(** The right arrow of the messages. *)
Definition ARROW : N := 8594.

Definition my_apps : jsstr :=
  str "Help Scout " ++ [ARROW] ++ str " My Apps " ++ [ARROW]
    ++ str " Create Private App".

Definition token_message : jsstr :=
  str "Personal Access Tokens are no longer supported." ++ [LF; LF]
  ++ str "Help Scout API now requires OAuth2 Client Credentials." ++ [LF]
  ++ str "Please migrate your configuration:" ++ [LF; LF]
  ++ str "  OLD (deprecated):" ++ [LF]
  ++ str "    HELPSCOUT_API_KEY=Bearer your-token" ++ [LF; LF]
  ++ str "  NEW (required):" ++ [LF]
  ++ str "    HELPSCOUT_APP_ID=your-app-id" ++ [LF]
  ++ str "    HELPSCOUT_APP_SECRET=your-app-secret" ++ [LF; LF]
  ++ str "Get OAuth2 credentials: " ++ my_apps.

Definition oauth_message : jsstr :=
  str "OAuth2 authentication required. Help Scout API only supports OAuth2 Client Credentials flow."
  ++ [LF]
  ++ str "Please provide:" ++ [LF]
  ++ str "  - HELPSCOUT_APP_ID: Your App ID from Help Scout" ++ [LF]
  ++ str "  - HELPSCOUT_APP_SECRET: Your App Secret from Help Scout" ++ [LF; LF]
  ++ str "Get these from: " ++ my_apps ++ [LF; LF]
  ++ str "Optional configuration:" ++ [LF]
  ++ str "  - HELPSCOUT_DEFAULT_INBOX_ID: Default inbox for scoped searches (improves LLM context)".

Definition https_message (baseUrl : jsstr) : jsstr :=
  str "Security Error: HELPSCOUT_BASE_URL must use HTTPS to protect credentials in transit."
  ++ [LF]
  ++ str "Current value: " ++ baseUrl ++ [LF]
  ++ str "Please use: https://api.helpscout.net/v2/".

(** [validateConfig]: returns, or throws an [Error] with a message. *)
Definition validateConfig (e : env) : thrown + unit :=
  let config := config_helpscout e in
  if match e "HELPSCOUT_API_KEY"%string with
     | Some k => startsWith k (str "Bearer ")
     | None => false
     end
  then inl (OtherError token_message)
  else
    let hasOAuth2 := negb (falsy (clientId config)) && negb (falsy (clientSecret config)) in
    if negb hasOAuth2 then inl (OtherError oauth_message)
    else if negb (falsy (baseUrl config))
            && negb (startsWith (baseUrl config) (str "https://"))
    then inl (OtherError (https_message (baseUrl config)))
    else inr tt.

(** *** The fallback of discoverAndBuildInstructions *)

(** [[A-Za-z0-9_-]] *)
Definition is_token_char (c : N) : bool :=
  ((65 <=? c) && (c <=? 90) || (97 <=? c) && (c <=? 122) || (48 <=? c) && (c <=? 57)
   || (c =? 95) || (c =? 45))%N.

(** [/[A-Za-z0-9_-]{20,}/g] and [/\/[^\s]+/g] *)
Definition re_token : re := at_least 20 (Cls is_token_char).
Definition re_path : re := Seq (chr 47) (plus (Cls (fun x => negb (is_space x)))).

(** [safeError] from [rawError]. *)
Definition sanitize (rawError : jsstr) : jsstr :=
  replace_all re_path (fun _ => str "[PATH]")
    (replace_all re_token (fun _ => str "[REDACTED]") rawError).

(** The instructions that the [catch] block returns. *)
Definition fallback_instructions (rawError : jsstr) : jsstr :=
  let safeError := sanitize rawError in
  str "Help Scout MCP Server - Read-only access to conversations." ++ [LF; LF]
  ++ str "Note: Inbox auto-discovery failed (" ++ safeError
  ++ str "). Use listAllInboxes tool to see available inboxes.".

End Setup.

(** ** The configuration and the fallback, in words *)

Module SetupSpec.
Import Chars Regex JS HtmlStripper Effects Tools Threads Setup TextSpec.

(** The variable is set to a text that is not empty. *)
Definition given (e : env) (name : string) : bool := negb (ofalsy (e name)).

(** The variable is set to a text that begins with [p]. *)
Definition begins (e : env) (name : string) (p : string) : bool :=
  match e name with Some v => startsWith v (str p) | None => false end.

(** Every solidus of the text is its last code unit or is followed by
    white space. *)
Fixpoint no_path (s : jsstr) : bool :=
  match s with
  | [] => true
  | c :: t =>
      (negb (c =? 47)%N || match t with [] => true | d :: _ => is_space d end)
      && no_path t
  end.

(** No run of twenty or more letters, digits, underscores and hyphens. *)
Definition no_token (s : jsstr) : bool := short_runs is_token_char 20 s.

(** [[^\s]] *)
Definition not_space (x : N) : bool := negb (is_space x).

End SetupSpec.

(** ** src/tools/index.ts: searchInboxes *)

Module Inboxes.
Import Chars Regex JS Effects QueryTerms Threads.

(** An inbox of the API; [inbox_id] is the id as a template literal
    prints it. *)
Record Inbox : Type := {
  inbox_id : jsstr;
  inbox_name : jsstr;
  inbox_email : jsstr;
  inbox_slug : jsstr;
  inbox_createdAt : jsstr;
  inbox_updatedAt : jsstr;
}.

(** An entry of [results]. *)
Record inbox_entry : Type := {
  ie_id : jsstr;
  ie_name : jsstr;
  ie_email : jsstr;
  ie_createdAt : jsstr;
  ie_updatedAt : jsstr;
}.

Definition entry_of (inbox : Inbox) : inbox_entry :=
  {| ie_id := inbox_id inbox; ie_name := inbox_name inbox;
     ie_email := inbox_email inbox; ie_createdAt := inbox_createdAt inbox;
     ie_updatedAt := inbox_updatedAt inbox |}.

(** [s.includes(sub)] *)
Fixpoint includes_text (s sub : jsstr) : bool :=
  startsWith s sub
  || match s with
     | [] => false
     | _ :: t => includes_text t sub
     end.

Record inbox_search : Type := {
  is_results : list inbox_entry;
  is_query : jsstr;
  totalFound : nat;
  is_totalAvailable : nat;
  usage : jsstr;
  example : option jsstr;
}.

Definition usage_next : jsstr :=
  str "NEXT STEP: Use the " ++ [DQUOTE] ++ str "id" ++ [DQUOTE]
    ++ str " field from these results in your conversation search tools (comprehensiveConversationSearch or searchConversations)".

Definition usage_none : jsstr :=
  str "No inboxes matched your query. Try a different search term or use empty string "
    ++ [DQUOTE; DQUOTE] ++ str " to list all inboxes.".

Definition example_for (id : jsstr) : jsstr :=
  str "comprehensiveConversationSearch({ searchTerms: [" ++ [DQUOTE]
    ++ str "your search" ++ [DQUOTE] ++ str "], inboxId: " ++ [DQUOTE] ++ id
    ++ [DQUOTE] ++ str " })".

(** [searchInboxes]; [toLowerCase] is the method of [String], and
    [mailboxes] answers the request for page 1 of /mailboxes with a
    size: [_embedded?.mailboxes] or what is thrown. *)
Definition searchInboxes (toLowerCase : jsstr -> jsstr)
    (mailboxes : nat -> thrown + option (list Inbox))
    (query : jsstr) (limit : nat) : thrown + inbox_search :=
  match mailboxes limit with
  | inl e => inl e
  | inr response =>
      let inboxes := default [] response in
      let filteredInboxes :=
        List.filter (fun inbox => includes_text (toLowerCase (inbox_name inbox))
                                                (toLowerCase query))
                    inboxes in
      inr {| is_results := List.map entry_of filteredInboxes;
             is_query := query;
             totalFound := length filteredInboxes;
             is_totalAvailable := length inboxes;
             usage := if 0 <? length filteredInboxes then usage_next else usage_none;
             example := match filteredInboxes with
                        | first :: _ => Some (example_for (inbox_id first))
                        | [] => None
                        end |}
  end.

End Inboxes.

(** ** src/index.ts: the start of the server *)

Module Server.
Import Chars Regex JS Effects QueryTerms Threads Inboxes Setup.

Inductive level : Type := LInfo | LWarn | LError.

(** What the server does to the outside while it is created and
    started: the request for the inboxes, the connection test, the
    connection of the transport, [process.stdin.resume()],
    [process.exit(code)], and the calls of [logger] and
    [console.error] with their texts. *)
Inductive action : Type :=
| GetMailboxes (size : nat)
| TestConnection
| Connect
| Resume
| Exit (code : nat)
| Log (l : level) (message : jsstr)
| ConsoleError (args : list jsstr).

(** Code that acts and may throw. *)
Definition Proc (A : Type) : Type := list action * (thrown + A).

Definition ret {A : Type} (a : A) : Proc A := ([], inr a).

Definition bind {A B : Type} (m : Proc A) (f : A -> Proc B) : Proc B :=
  match m with
  | (w, inl e) => (w, inl e)
  | (w, inr a) => (w ++ fst (f a), snd (f a))
  end.

Definition raise {A : Type} (e : thrown) : Proc A := ([], inl e).

(** An action with its answer, and an action that cannot fail. *)
Definition ask {A : Type} (a : action) (answer : thrown + A) : Proc A := ([a], answer).
Definition do_ (a : action) : Proc unit := ([a], inr tt).

(** [try { m } catch (error) { h error }] *)
Definition catch {A : Type} (m : Proc A) (h : thrown -> Proc A) : Proc A :=
  match m with
  | (w, inl e) => (w ++ fst (h e), snd (h e))
  | (w, inr a) => (w, inr a)
  end.

(** The environment, the answers of the API and of the transport, and
    [String(error)] for a structured API error, which is the text of
    an error that is no instance of [Error]. *)
Record world : Type := {
  w_env : env;
  w_mailboxes : nat -> thrown + option (list Inbox);
  w_testConnection : thrown + bool;
  w_connect : thrown + unit;
  w_describe : error_code -> jsstr -> jsstr;
}.

(** [error instanceof Error ? error.message : String(error)] *)
Definition error_text (w : world) (error : thrown) : jsstr :=
  match error with
  | OtherError m => m
  | ApiError c m => w_describe w c m
  end.

(** The instructions from the tool selection guide to the end. *)
Definition guide : jsstr :=
  join [LF]
    [str "## Tool Selection Guide";
     str "| Task | Tool |";
     str "|------|------|";
     str "| Find tickets by keyword (billing, refund, bug) | comprehensiveConversationSearch |";
     str "| List recent/filtered tickets | searchConversations |";
     str "| Complex filters (email domain, multiple tags) | advancedConversationSearch |";
     str "| Lookup by ticket number (#12345) | structuredConversationFilter |";
     str "| Get full conversation thread | getThreads |";
     str "| Quick conversation preview | getConversationSummary |";
     str "| List agents (get user IDs) | listUsers |";
     str "| Compare all agents (replies, happiness) | getCompanyReport |";
     str "| Deep dive on one agent | getUserReport |";
     str "| Team productivity metrics | getProductivityReport |";
     [];
     str "## Workflow Patterns";
     str "- **Ticket investigation**: searchConversations " ++ [ARROW] ++ str " getConversationSummary " ++ [ARROW] ++ str " getThreads";
     str "- **Keyword research**: comprehensiveConversationSearch " ++ [ARROW] ++ str " getThreads for details";
     str "- **Customer history**: advancedConversationSearch with customerEmail " ++ [ARROW] ++ str " getThreads";
     str "- **Agent comparison**: listUsers " ++ [ARROW] ++ str " getCompanyReport (all agents at once) " ++ [ARROW] ++ str " getUserReport (drill into one)";
     [];
     str "## Notes";
     str "- Always use inbox IDs from the list above (not names)";
     str "- All search tools default to active+pending+closed statuses";
     str "- Use getServerTime for date-relative queries";
     str "- Report tools require start/end date range in ISO 8601 format"].

Definition inboxList (inboxes : list Inbox) : jsstr :=
  join [LF]
    (List.map (fun inbox => str "  - " ++ [DQUOTE] ++ inbox_name inbox ++ [DQUOTE]
                              ++ str " (ID: " ++ inbox_id inbox ++ str ")")
              inboxes).

Definition instructions_for (inboxes : list Inbox) : jsstr :=
  str "Help Scout MCP Server - Search and retrieve customer support conversations."
  ++ [LF; LF]
  ++ str "## Available Inboxes (" ++ of_nat (length inboxes) ++ str " total)" ++ [LF]
  ++ (if 0 <? length inboxes then inboxList inboxes
      else str "  No inboxes found - check API credentials")
  ++ [LF; LF] ++ guide.

Record discovery : Type := {
  instructions : jsstr;
  inboxes : list Inbox;
}.

Definition discoverAndBuildInstructions (w : world) : Proc discovery :=
  catch
    (bind (([], validateConfig (w_env w)) : Proc unit) (fun _ =>
     bind (ask (GetMailboxes 100) (w_mailboxes w 100)) (fun response =>
     let inboxes := default [] response in
     let instructions := instructions_for inboxes in
     bind (do_ (Log LInfo (str "Inbox discovery successful"))) (fun _ =>
     ret {| instructions := instructions; inboxes := inboxes |}))))
    (fun error =>
     let rawError := error_text w error in
     bind (do_ (Log LWarn (str "Inbox auto-discovery failed, using fallback instructions")))
       (fun _ =>
     ret {| instructions := fallback_instructions rawError; inboxes := [] |})).

(** The fields of the server object that are read later. *)
Record server : Type := {
  sv_instructions : jsstr;
  discoveredInboxes : list Inbox;
}.

(** [HelpScoutMCPServer.create()] *)
Definition create (w : world) : Proc server :=
  bind (discoverAndBuildInstructions w) (fun d =>
  let server := {| sv_instructions := instructions d;
                   discoveredInboxes := inboxes d |} in
  bind (do_ (Log LInfo (str "MCP server created with auto-discovered inboxes")))
    (fun _ =>
  ret server)).

(** How [start()] ends: the server listens, or the process has exited. *)
Inductive started : Type := Listening | Exited (code : nat).

Definition start (w : world) (this : server) : Proc started :=
  catch
    (bind (([], validateConfig (w_env w)) : Proc unit) (fun _ =>
     bind (do_ (Log LInfo (str "Configuration validated"))) (fun _ =>
     bind (if length (discoveredInboxes this) =? 0
           then
             catch
               (bind (ask TestConnection (w_testConnection w)) (fun isConnected =>
                bind (if negb isConnected
                      then raise (OtherError (str "Failed to connect to Help Scout API"))
                      else ret tt) (fun _ =>
                do_ (Log LInfo (str "Help Scout API connection established")))))
               (fun error =>
                bind (do_ (Log LError
                             (str "Failed to establish Help Scout API connection")))
                  (fun _ =>
                raise error))
           else
             do_ (Log LInfo
                    (str "Help Scout API connection established (verified during inbox discovery)")))
       (fun _ =>
     bind (ask Connect (w_connect w)) (fun _ =>
     bind (do_ (Log LInfo (str "Help Scout MCP Server started successfully"))) (fun _ =>
     bind (do_ (ConsoleError
                  [str "Help Scout MCP Server started and listening on stdio"]))
       (fun _ =>
     bind (do_ Resume) (fun _ =>
     ret Listening))))))))
    (fun error =>
     let errorMessage := error_text w error in
     bind (do_ (Log LError (str "Failed to start server"))) (fun _ =>
     bind (do_ (ConsoleError [str "MCP Server startup failed:"; errorMessage])) (fun _ =>
     bind (do_ (Exit 1)) (fun _ =>
     ret (Exited 1))))).

(** [create()] and then [start()], as [main] calls them. *)
Definition boot (w : world) : Proc started :=
  bind (create w) (fun server => start w server).

End Server.

(** ** Concrete worlds *)

Module ServerScenario.
Import Chars Regex JS Effects QueryTerms Threads Inboxes Setup Server.

Definition credentials : env := fun name =>
  if String.eqb name "HELPSCOUT_APP_ID" then Some (str "app")
  else if String.eqb name "HELPSCOUT_APP_SECRET" then Some (str "secret")
  else None.

Definition support : Inbox :=
  {| inbox_id := str "7"; inbox_name := str "Support";
     inbox_email := str "help@acme.com"; inbox_slug := str "support";
     inbox_createdAt := str "2024-01-01T00:00:00Z";
     inbox_updatedAt := str "2024-01-02T00:00:00Z" |}.

(** A world with credentials in which the API answers with one inbox. *)
Definition healthy : world :=
  {| w_env := credentials;
     w_mailboxes := fun _ => inr (Some [support]);
     w_testConnection := inr true;
     w_connect := inr tt;
     w_describe := fun _ m => m |}.

End ServerScenario.

(** ** The quote cut of stripHtml, in words *)

Module CutSpec.
Import Chars Regex JS HtmlStripper.

(** Where the leftmost match of a pattern begins, if it has one. *)
Definition first_index (p : re) (text : jsstr) : option nat := fst <$> search p text.

(** The pattern cuts: its leftmost match begins behind the first 51
    code units. *)
Definition cuts (text : jsstr) (p : re) : bool :=
  match first_index p text with Some i => 50 <? i | None => false end.

End CutSpec.

(** ** The default time range, in words *)

Module TimeSpec.
Import Chars Regex JS.

(** The form of [Date.prototype.toISOString()] for a year of four
    digits: YYYY-MM-DDTHH:mm:ss.sssZ. *)
Definition is_iso_instant (s : jsstr) : bool :=
  match s with
  | [y1; y2; y3; y4; a; m1; m2; b; d1; d2; t; h1; h2; c; n1; n2; e; s1; s2; f;
     f1; f2; f3; z] =>
      forallb is_digit [y1; y2; y3; y4; m1; m2; d1; d2; h1; h2; n1; n2; s1; s2;
                        f1; f2; f3]
      && (a =? 45)%N && (b =? 45)%N && (t =? 84)%N && (c =? 58)%N && (e =? 58)%N
      && (f =? 46)%N && (z =? 90)%N
  | _ => false
  end.

End TimeSpec.

(** ** The inbox scope, in words *)

Module ScopeSpec.
Import Chars Regex JS Tools.

(** What a search reports as its inbox scope agrees with the mailbox it
    asked for: the inbox of the arguments, else the default inbox of the
    configuration, else none. *)
Definition scoped (explicit default_ mailbox : option jsstr) (scope : jsstr) : Prop :=
  match mailbox with
  | None =>
      ofalsy explicit = true /\ ofalsy default_ = true /\ scope = str "ALL inboxes"
  | Some m =>
      m <> []
      /\ ((explicit = Some m /\ scope = str "Specific inbox: " ++ m)
          \/ (ofalsy explicit = true /\ default_ = Some m
              /\ scope = str "Default inbox: " ++ m))
  end.

End ScopeSpec.

(** * Theorems *)

Module EffectFacts.
Import Effects.

Lemma outcome_bind {A B : Type} (m : M A) (f : A -> M B) :
  outcome (m ≫= f) = match outcome m with inl e => inl e | inr a => outcome (f a) end.
Proof. destruct m as [w [e|a]]; reflexivity. Qed.

Lemma logged_bind {A B : Type} (m : M A) (f : A -> M B) :
  logged (m ≫= f) =
  logged m ++ match outcome m with inl _ => [] | inr a => logged (f a) end.
Proof. destruct m as [w [e|a]]; simpl; [by rewrite app_nil_r | reflexivity]. Qed.

Lemma M_eta {A : Type} (m : M A) : m = (logged m, outcome m).
Proof. by destruct m. Qed.

End EffectFacts.

Module SortFacts.
Import Search SearchSpec.

Section Sorting.
Context {A : Type} (cmp : A -> A -> Z).

Lemma sort_insert_perm (x : A) (l : list A) : sort_insert cmp x l ≡ₚ x :: l.
Proof.
  induction l as [|y l IH]; simpl; [done|].
  destruct (0 <? cmp x y)%Z; [|done].
  rewrite IH. apply Permutation_swap.
Qed.

Lemma js_sort_perm (l : list A) : js_sort cmp l ≡ₚ l.
Proof.
  induction l as [|x l IH]; simpl; [done|].
  unfold js_sort in *. simpl. rewrite sort_insert_perm. by rewrite IH.
Qed.

Lemma js_sort_length (l : list A) : length (js_sort cmp l) = length l.
Proof. apply Permutation_length, js_sort_perm. Qed.

(** Stability: the elements of one class of a key that [cmp] respects keep
    their order. *)
Lemma sort_insert_filter (P : A -> bool) (x : A) (l : list A) :
  (forall y, P x = true -> P y = true -> cmp x y = 0%Z) ->
  List.filter P (sort_insert cmp x l) = List.filter P (x :: l).
Proof.
  intros Heq. induction l as [|y l IH]; [done|].
  simpl. destruct (0 <? cmp x y)%Z eqn:Hc; [|done].
  simpl in *. destruct (P x) eqn:Px, (P y) eqn:Py; rewrite ?IH; try done.
  rewrite Heq in Hc; done.
Qed.

Lemma js_sort_filter (P : A -> bool) (l : list A) :
  (forall x y, P x = true -> P y = true -> cmp x y = 0%Z) ->
  List.filter P (js_sort cmp l) = List.filter P l.
Proof.
  intros Heq. induction l as [|x l IH]; [done|].
  unfold js_sort in *. simpl foldr. rewrite sort_insert_filter by eauto.
  simpl. by rewrite IH.
Qed.

End Sorting.

Lemma newest_first_insert (x : Conversation) (l : list Conversation) :
  newest_first l -> newest_first (sort_insert by_createdAt_desc x l).
Proof.
  induction l as [|y l IH]; [done|].
  intros Hl. simpl sort_insert. unfold by_createdAt_desc at 1.
  destruct (0 <? createdAt y - createdAt x)%Z eqn:Hc.
  - assert (Hl' : newest_first l) by (destruct l; [done | apply Hl]).
    specialize (IH Hl').
    destruct l as [|z l]; simpl in *.
    + split; [lia | done].
    + unfold by_createdAt_desc in *.
      destruct (0 <? createdAt z - createdAt x)%Z eqn:Hc'.
      * split; [apply Hl | apply IH].
      * split; [lia | apply IH].
  - simpl. split; [lia | done].
Qed.

Lemma js_sort_newest_first (l : list Conversation) :
  newest_first (js_sort by_createdAt_desc l).
Proof.
  induction l as [|x l IH]; [done|].
  unfold js_sort in *. simpl foldr. by apply newest_first_insert.
Qed.

Lemma newest_first_take (n : nat) (l : list Conversation) :
  newest_first l -> newest_first (take n l).
Proof.
  revert n. induction l as [|a l IH]; intros n Hl; [by destruct n|].
  destruct n as [|n]; [done|].
  destruct l as [|b l]; [by destruct n|].
  destruct n as [|n]; [done|].
  destruct Hl as [Hab Hl]. split; [done|]. apply (IH (S n) Hl).
Qed.

End SortFacts.

Module MergeFacts.
Import Effects Search SearchSpec EffectFacts.

Lemma is_critical_code (c : error_code) :
  is_critical (code_name c)
  = bool_decide (c = UNAUTHORIZED) || bool_decide (c = INVALID_INPUT).
Proof. by destruct c. Qed.

Lemma fatal_alt (e : thrown) :
  fatal e = negb (isApiError e) || is_critical (errorCode_of e).
Proof. destruct e as [c m|m]; simpl; [by rewrite is_critical_code | done]. Qed.

Lemma seen_ok_start : seen_ok merge_start.
Proof. intros x. simpl. set_solver. Qed.

Lemma keep_first_app (seen : list Z) (l1 l2 : list Conversation) :
  keep_first seen (l1 ++ l2)
  = keep_first seen l1 ++ keep_first (seen ++ List.map id (keep_first seen l1)) l2.
Proof.
  revert seen. induction l1 as [|c l1 IH]; intros seen; simpl.
  - by rewrite app_nil_r.
  - case_bool_decide; [apply IH|].
    simpl. rewrite IH. by rewrite <- app_assoc.
Qed.

Lemma keep_first_fresh (seen : list Z) (l : list Conversation) (c : Conversation) :
  c ∈ keep_first seen l -> id c ∉ seen.
Proof.
  revert seen. induction l as [|d l IH]; intros seen; simpl; [by rewrite elem_of_nil|].
  case_bool_decide as Hd; [apply IH|].
  rewrite elem_of_cons. intros [->|Hin]; [done|].
  apply IH in Hin. set_solver.
Qed.

Lemma keep_first_NoDup (seen : list Z) (l : list Conversation) :
  NoDup (List.map id (keep_first seen l)).
Proof.
  revert seen. induction l as [|d l IH]; intros seen; simpl; [constructor|].
  case_bool_decide as Hd; [apply IH|].
  simpl. constructor; [|apply IH].
  rewrite list_elem_of_In, in_map_iff. intros (c & Hc & Hin).
  apply list_elem_of_In, keep_first_fresh in Hin. set_solver.
Qed.


(** Every id of the input is in the result or was seen before. *)
Lemma keep_first_complete (seen : list Z) (l : list Conversation) (c : Conversation) :
  c ∈ l -> id c ∈ seen \/ id c ∈ List.map id (keep_first seen l).
Proof.
  revert seen. induction l as [|d l IH]; intros seen; [by rewrite elem_of_nil|].
  rewrite elem_of_cons. simpl. intros [->|Hin].
  - case_bool_decide; [by left | right; simpl; set_solver].
  - case_bool_decide; [by apply IH|].
    destruct (IH (seen ++ [id d]) Hin) as [H1|H1]; simpl; set_solver.
Qed.

Lemma add_conversations_spec (l : list Conversation) (m : merge) :
  seen_ok m ->
  let m' := fold_left add_conversation l m in
  conversations m' = conversations m ++ keep_first (List.map id (conversations m)) l
  /\ seen_ok m'
  /\ failedStatuses m' = failedStatuses m
  /\ totalAvailable m' = totalAvailable m
  /\ totalByStatus m' = totalByStatus m.
Proof.
  revert m. induction l as [|c l IH]; intros m Hm; simpl.
  - by rewrite app_nil_r.
  - unfold add_conversation at 2 4 6 8 10.
    assert (Hiff : id c ∈ seenIds m <-> id c ∈ List.map id (conversations m)) by apply Hm.
    case_bool_decide as Hs; case_bool_decide as Hl; try tauto.
    + by apply IH.
    + set (m1 := {| seenIds := _ |}).
      assert (Hm1 : seen_ok m1).
      { intros x. subst m1. simpl. rewrite map_app. specialize (Hm x). set_solver. }
      destruct (IH m1 Hm1) as (Hc & Hs' & Hf & Ht & Hb).
      subst m1. simpl in *. rewrite Hc, map_app. simpl.
      by rewrite <- app_assoc.
Qed.

Lemma merge_loop_cons (statuses : list status) (index : nat) (r : settled)
    (rs : list settled) (m : merge) :
  merge_loop statuses index (r :: rs) m
  = merge_step statuses index r m ≫= merge_loop statuses (S index) rs.
Proof. reflexivity. Qed.

Lemma merge_step_fulfilled (statuses : list status) (index : nat) (v : response)
    (m : merge) :
  merge_step statuses index (Fulfilled v) m
  = ([], inr (fold_left add_conversation (conversations_of v)
                (add_total m (nth index statuses active) (total_of v)))).
Proof. reflexivity. Qed.

Lemma merge_step_rejected (statuses : list status) (index : nat) (e : thrown)
    (m : merge) :
  merge_step statuses index (Rejected e) m
  = if fatal e then ([], inl e)
    else ([log_of_failure (failure_of statuses index e)],
          inr (add_failure m (failure_of statuses index e))).
Proof.
  rewrite fatal_alt. unfold merge_step.
  destruct (negb (isApiError e)); [done|].
  destruct (is_critical (errorCode_of e)); done.
Qed.

Lemma merge_loop_fatal (statuses : list status) (rs : list settled)
    (index : nat) (m : merge) (e : thrown) :
  first_fatal rs = Some e ->
  outcome (merge_loop statuses index rs m) = inl e.
Proof.
  revert index m. induction rs as [|r rs IH]; intros index m Hf; [done|].
  rewrite merge_loop_cons, outcome_bind.
  destruct r as [v|e']; simpl in Hf.
  - rewrite merge_step_fulfilled. by apply IH.
  - rewrite merge_step_rejected. destruct (fatal e'); [by simplify_eq|].
    by apply IH.
Qed.

Lemma merge_loop_ok (statuses : list status) (rs : list settled)
    (index : nat) (m : merge) :
  first_fatal rs = None -> seen_ok m ->
  exists m',
    merge_loop statuses index rs m
      = (List.map log_of_failure (failures_from statuses index rs), inr m')
    /\ conversations m'
       = conversations m
         ++ keep_first (List.map id (conversations m)) (flat_map branch_conversations rs)
    /\ seen_ok m'
    /\ failedStatuses m' = failedStatuses m ++ failures_from statuses index rs
    /\ totalAvailable m' = totalAvailable m + sum_list (List.map branch_total rs)
    /\ totalByStatus m' = totals_from statuses index rs (totalByStatus m).
Proof.
  revert index m. induction rs as [|r rs IH]; intros index m Hf Hm.
  - exists m. simpl. rewrite !app_nil_r. unfold sum_list. simpl.
    split_and!; done.
  - rewrite merge_loop_cons, (M_eta (_ ≫= _)), outcome_bind, logged_bind.
    destruct r as [v|e]; simpl in Hf.
    + rewrite merge_step_fulfilled.
      set (m0 := add_total m (nth index statuses active) (total_of v)).
      assert (Hm0 : seen_ok m0) by exact Hm.
      destruct (add_conversations_spec (conversations_of v) m0 Hm0)
        as (Hc & Hs & Hfs & Ht & Hb).
      set (m1 := fold_left add_conversation (conversations_of v) m0) in *.
      destruct (IH (S index) m1 Hf Hs) as (m' & Hrun & Hc' & Hs' & Hf' & Ht' & Hb').
      exists m'. split_and!.
      * simpl. by rewrite Hrun.
      * rewrite Hc', Hc. simpl. by rewrite keep_first_app, map_app, app_assoc.
      * apply Hs'.
      * by rewrite Hf', Hfs.
      * rewrite Ht', Ht. unfold sum_list. simpl. lia.
      * by rewrite Hb', Hb.
    + rewrite merge_step_rejected.
      destruct (fatal e) eqn:Hfe; [done|].
      fold (failure_of statuses index e).
      set (f := failure_of statuses index e).
      assert (Hm1 : seen_ok (add_failure m f)) by exact Hm.
      destruct (IH (S index) (add_failure m f) Hf Hm1)
        as (m' & Hrun & Hc' & Hs' & Hf' & Ht' & Hb').
      exists m'. split_and!.
      * simpl. by rewrite Hrun.
      * by rewrite Hc'.
      * apply Hs'.
      * rewrite Hf'. simpl. by rewrite <- app_assoc.
      * rewrite Ht'. unfold sum_list. simpl. lia.
      * by rewrite Hb'.
Qed.

End MergeFacts.

Module FetchFacts.
Import Effects Query Search SearchSpec EffectFacts SortFacts MergeFacts.

Lemma limit_is_take {A : Type} (n : nat) (l : list A) :
  (if n <? length l then firstn n l else l) = take n l.
Proof.
  destruct (n <? length l) eqn:H; [done|].
  apply Nat.ltb_ge in H. by rewrite take_ge.
Qed.

Lemma fetch_multi_fatal (api : transport) (i : input) (q : option jsstr) (e : thrown) :
  in_status i = None ->
  first_fatal (branches api i q) = Some e ->
  outcome (fetch api i q) = inl e.
Proof.
  intros Hs Hf. unfold fetch. rewrite Hs, outcome_bind.
  by rewrite (merge_loop_fatal _ _ _ _ _ Hf).
Qed.

Lemma fetch_multi_ok (api : transport) (i : input) (q : option jsstr) :
  in_status i = None ->
  first_fatal (branches api i q) = None ->
  let rs := branches api i q in
  let fs := failures_from all_statuses 0 rs in
  fetch api i q
  = (List.map log_of_failure fs
       ++ [LogCompleted (searched fs) (length (reconciled rs i))],
     inr (reconciled rs i, searched fs,
          Counts (merged_counts rs (length (reconciled rs i))))).
Proof.
  intros Hs Hf rs fs.
  unfold fetch. rewrite Hs. fold (branches api i q). fold rs.
  fold rs in Hf. clearbody rs.
  destruct (merge_loop_ok all_statuses rs 0 merge_start Hf seen_ok_start)
    as (m & Hrun & Hc & _ & Hfs & Ht & Hb).
  change (conversations merge_start) with (@nil Conversation) in Hc.
  change (failedStatuses merge_start) with (@nil failure) in Hfs.
  change (totalAvailable merge_start) with 0 in Ht.
  change (totalByStatus merge_start) with (@nil (status * nat)) in Hb.
  simpl in Hc, Hfs, Ht. fold fs in Hrun, Hfs.
  rewrite Hrun.
  change ((?w, inr ?a) ≫= ?f) with (w ++ fst (f a), snd (f a)).
  cbv beta zeta. fold (effective_limit i).
  change (tell ?l ≫= ?f) with ([l] ++ fst (f tt), snd (f tt)).
  cbv beta. simpl fst. simpl snd.
  rewrite !limit_is_take.
  unfold reconciled, merged, merged_counts, merged_note, searched. fold fs.
  rewrite Hc, Hfs, Ht, Hb. simpl. reflexivity.
Qed.

End FetchFacts.

Module SearchConversationsFacts.
Import Effects Query Search SearchSpec EffectFacts SortFacts MergeFacts FetchFacts.

Lemma filter_keeps_all {A : Type} (p : A -> bool) (l : list A) :
  length l - length (List.filter p l) = 0 -> List.filter p l = l.
Proof.
  induction l as [|x l IH]; [done|]. simpl.
  pose proof (filter_length_le p l) as Hle.
  destruct (p x); simpl; intros H.
  - f_equal. apply IH. lia.
  - lia.
Qed.

Lemma searchConversations_inv (api : transport) (i : input) (r : search_result) :
  outcome (searchConversations api i) = inr r ->
  exists q convs ss pg,
    sent_query i = inr q
    /\ outcome (fetch api i q) = inr (convs, ss, pg)
    /\ statusesSearched r = ss
    /\ ((results r = convs /\ r_pagination r = pg /\ clientSideFiltering r = false)
        \/ (exists cb t,
              createdBefore i = Some cb /\ falsy (fst cb) = false /\ snd cb = Some t
              /\ results r = List.filter (before t) convs
              /\ length (results r) < length convs
              /\ clientSideFiltering r = true
              /\ r_pagination r = refiltered (length (results r)) pg)).
Proof.
  unfold searchConversations, sent_query. cbv zeta.
  set (baseQuery := if ofalsy (query i) then None else query i).
  destruct (appendCreatedAtFilter baseQuery (createdAfter i) None) as [e|qd]; [done|].
  set (q := if ofalsy qd then baseQuery else qd).
  rewrite outcome_bind. change (outcome (lift (inr qd))) with (@inr thrown _ qd).
  cbv beta iota. fold q. rewrite outcome_bind.
  destruct (outcome (fetch api i q)) as [e|[[convs ss] pg]] eqn:Hfetch; [done|].
  intros Hr. exists q, convs, ss, pg. split; [done|]. split; [done|].
  destruct (createdBefore i) as [cb|] eqn:Hcb.
  - destruct (falsy (fst cb)) eqn:Hfalsy.
    + simpl in Hr. simplify_eq. simpl. split; [done|]. by left.
    + rewrite outcome_bind in Hr. unfold applyCreatedBeforeFilter in Hr.
      destruct (snd cb) as [t|] eqn:Ht; [|done].
      rewrite outcome_bind in Hr.
      set (kept := List.filter _ convs) in Hr.
      destruct (0 <? length convs - length kept) eqn:Hrem; simpl in Hr; simplify_eq; simpl.
      * split; [done|]. right. exists cb, t.
        apply Nat.ltb_lt in Hrem. split_and!; try done.
        clearbody kept. lia.
      * split; [done|]. left. apply Nat.ltb_ge in Hrem.
        split; [|done]. apply filter_keeps_all. fold kept. lia.
  - simpl in Hr. simplify_eq. simpl. split; [done|]. by left.
Qed.

End SearchConversationsFacts.

Module ComprehensiveFacts.
Import Effects Query Search SearchSpec EffectFacts SortFacts MergeFacts FetchFacts
  SearchConversationsFacts.

Lemma on_branch_error_outcome (c : context) (s : status) (e : thrown) :
  outcome (on_branch_error c s e)
  = if fatal e then inl e else inr (placeholder c s).
Proof.
  destruct e as [code msg|msg]; simpl; [|done].
  by destruct (bool_decide (code = UNAUTHORIZED) || bool_decide (code = INVALID_INPUT)).
Qed.


Lemma outcome_try_catch {A : Type} (m : M A) (h : thrown -> M A) :
  outcome (try_catch m h)
  = match outcome m with inl e => outcome (h e) | inr a => inr a end.
Proof. by destruct m as [w [e|a]]. Qed.


Lemma branch_terminal (api : transport) (c : context) (s : status) :
  outcome (try_catch (searchSingleStatus api c s) (on_branch_error c s))
  = terminal api c s.
Proof.
  rewrite outcome_try_catch. unfold terminal, branch.
  destruct (outcome (searchSingleStatus api c s)); [|done].
  apply on_branch_error_outcome.
Qed.

Lemma search_statuses_cons (api : transport) (c : context) (s : status)
    (rest : list status) (acc : list status_result) :
  search_statuses api c (s :: rest) acc
  = try_catch (searchSingleStatus api c s) (on_branch_error c s)
    ≫= (fun result => search_statuses api c rest (acc ++ [result])).
Proof. reflexivity. Qed.

Lemma search_statuses_outcome (api : transport) (c : context) (todo : list status)
    (acc : list status_result) :
  outcome (search_statuses api c todo acc)
  = match collect api c todo with
    | inl e => inl e
    | inr rs => inr (acc ++ rs)
    end.
Proof.
  revert acc. induction todo as [|s rest IH]; intros acc.
  - simpl. by rewrite app_nil_r.
  - rewrite search_statuses_cons, outcome_bind, branch_terminal. simpl collect.
    destruct (terminal api c s) as [e|r]; [done|].
    rewrite IH. destruct (collect api c rest); [done|].
    by rewrite <- app_assoc.
Qed.

Lemma executeMultiStatusSearch_outcome (api : transport) (c : context) :
  outcome (executeMultiStatusSearch api c) = collect api c (statuses c).
Proof.
  unfold executeMultiStatusSearch. rewrite search_statuses_outcome.
  by destruct (collect api c (statuses c)).
Qed.

Lemma collect_Forall2 (api : transport) (c : context) (todo : list status)
    (rs : list status_result) :
  collect api c todo = inr rs ->
  Forall2 (fun s r => terminal api c s = inr r) todo rs.
Proof.
  revert rs. induction todo as [|s rest IH]; intros rs; simpl.
  - intros [= <-]. constructor.
  - destruct (terminal api c s) as [e|r] eqn:Ht; [done|].
    destruct (collect api c rest) as [e|rs']; [done|].
    intros [= <-]. constructor; [done | by apply IH].
Qed.


End ComprehensiveFacts.

Module ReconcileFacts.
Import Effects Query Search SearchSpec EffectFacts SortFacts MergeFacts FetchFacts
  SearchConversationsFacts.

Lemma keep_first_sublist (seen : list Z) (l : list Conversation) :
  sublist (keep_first seen l) l.
Proof.
  revert seen. induction l as [|c l IH]; intros seen; simpl; [constructor|].
  case_bool_decide; [apply sublist_cons | apply sublist_skip]; apply IH.
Qed.

Lemma newest_first_tail (a : Conversation) (l : list Conversation) :
  newest_first (a :: l) -> newest_first l.
Proof. destruct l; [done | by intros [_ H]]. Qed.

Lemma newest_first_head (a : Conversation) (l : list Conversation) :
  newest_first (a :: l) -> Forall (fun y => (createdAt y <= createdAt a)%Z) l.
Proof.
  revert a. induction l as [|b l IH]; intros a H; [constructor|].
  destruct H as [Hab Hl]. constructor; [done|].
  eapply Forall_impl; [apply (IH b Hl)|]. simpl. intros. lia.
Qed.

Lemma newest_first_cons (a : Conversation) (l : list Conversation) :
  Forall (fun y => (createdAt y <= createdAt a)%Z) l ->
  newest_first l -> newest_first (a :: l).
Proof.
  destruct l as [|b l]; [done|]. intros Ha Hl. split; [|done].
  by apply Forall_cons in Ha as [Hb _].
Qed.

Lemma newest_first_filter (p : Conversation -> bool) (l : list Conversation) :
  newest_first l -> newest_first (List.filter p l).
Proof.
  induction l as [|a l IH]; [done|]. intros Hl. simpl.
  pose proof (newest_first_head a l Hl) as Hhd.
  specialize (IH (newest_first_tail a l Hl)).
  destruct (p a); [|done].
  apply newest_first_cons; [|done].
  apply Forall_forall. intros y Hy%list_elem_of_In%filter_In.
  rewrite Forall_forall in Hhd. apply Hhd, list_elem_of_In, Hy.
Qed.

Lemma NoDup_ids_filter (p : Conversation -> bool) (l : list Conversation) :
  NoDup (List.map id l) -> NoDup (List.map id (List.filter p l)).
Proof.
  induction l as [|a l IH]; [done|]. simpl. intros [Hn Hl]%NoDup_cons.
  destruct (p a); [|by apply IH]. simpl. apply NoDup_cons. split; [|by apply IH].
  intros Hin. apply Hn. apply list_elem_of_In, in_map_iff in Hin as (c & Hc & Hin).
  apply list_elem_of_In, in_map_iff. exists c. split; [done|].
  by apply filter_In in Hin as [Hin _].
Qed.

Lemma NoDup_ids_take (n : nat) (l : list Conversation) :
  NoDup (List.map id l) -> NoDup (List.map id (take n l)).
Proof.
  intros H. rewrite <- firstn_map. eapply sublist_NoDup; [exact H | apply sublist_take].
Qed.

Lemma merged_NoDup (rs : list settled) : NoDup (List.map id (merged rs)).
Proof. apply keep_first_NoDup. Qed.

Lemma reconciled_NoDup (rs : list settled) (i : input) :
  NoDup (List.map id (reconciled rs i)).
Proof.
  apply NoDup_ids_take.
  rewrite (Permutation_map id (js_sort_perm by_createdAt_desc (merged rs))).
  apply merged_NoDup.
Qed.

Lemma reconciled_newest_first (rs : list settled) (i : input) :
  newest_first (reconciled rs i).
Proof. apply newest_first_take, js_sort_newest_first. Qed.

Lemma reconciled_length (rs : list settled) (i : input) :
  length (reconciled rs i) <= effective_limit i.
Proof. unfold reconciled. rewrite length_take. lia. Qed.

Lemma parsed_limit (raw : option Z) (n : nat) :
  parse_limit raw = inr n ->
  1 <= n <= 100 /\ match raw with Some z => Z.of_nat n = z | None => n = 50 end.
Proof.
  unfold parse_limit. destruct raw as [z|]; [|intros [= <-]; lia].
  destruct (z <? 1)%Z eqn:H1; [done|]. destruct (100 <? z)%Z eqn:H2; [done|].
  intros [= <-]. lia.
Qed.

Lemma effective_limit_parsed (raw : option Z) (i : input) :
  parse_limit raw = inr (limit i) -> effective_limit i = limit i.
Proof.
  intros [H _]%parsed_limit. unfold effective_limit.
  destruct (limit i =? 0) eqn:E; [apply Nat.eqb_eq in E; lia | done].
Qed.

(** What a search over all statuses returns, before and after the
    client-side filter. *)
Lemma multi_status_result (api : transport) (i : input) (r : search_result) :
  in_status i = None ->
  outcome (searchConversations api i) = inr r ->
  exists q,
    sent_query i = inr q
    /\ first_fatal (branches api i q) = None
    /\ let rs := branches api i q in
       let mc := merged_counts rs (length (reconciled rs i)) in
       statusesSearched r = searched (failures_from all_statuses 0 rs)
       /\ ((results r = reconciled rs i /\ r_pagination r = Counts mc
            /\ clientSideFiltering r = false)
           \/ (exists cb t,
                 createdBefore i = Some cb /\ snd cb = Some t
                 /\ results r = List.filter (before t) (reconciled rs i)
                 /\ length (results r) < length (reconciled rs i)
                 /\ r_pagination r = Counts (filtered_merged (length (results r)) mc)
                 /\ clientSideFiltering r = true)).
Proof.
  intros Hs Hr.
  destruct (searchConversations_inv api i r Hr) as (q & convs & ss & pg & Hq & Hfetch & Hss & Hcase).
  exists q. split; [done|].
  destruct (first_fatal (branches api i q)) as [e|] eqn:Hf.
  { rewrite (fetch_multi_fatal api i q e Hs Hf) in Hfetch. done. }
  split; [done|].
  rewrite (fetch_multi_ok api i q Hs Hf) in Hfetch. simpl in Hfetch.
  injection Hfetch as <- <- <-. cbv zeta. split; [done|].
  destruct Hcase as [(H1 & H2 & H3)|(cb & t & H1 & _ & H2 & H3 & H4 & H5 & H6)].
  - by left.
  - right. exists cb, t. split_and!; done.
Qed.

End ReconcileFacts.

Module ReconcileClaims.
Import Effects Query Search SearchSpec Scenario EffectFacts SortFacts MergeFacts
  FetchFacts SearchConversationsFacts ReconcileFacts.

(** C1.  A search over all statuses with a limit accepted by the schema
    and no fatal branch error returns a result.  The branches are taken
    in the order active, pending, closed; a conversation is appended only
    if its id was not added before ([keep_first]: a sublist of the
    branches' conversations that has every id once); the merged sequence
    is sorted by creation time, newest first, by a stable sort (a
    permutation that keeps the order of conversations created at the same
    time); the limit is applied to the sorted sequence.  The list that is
    returned, also after the client-side filter, has no id twice, is
    non-increasing in creation time and is not longer than the requested
    limit. *)
Theorem reconciliation_merge_sort_limit
    (api : transport) (i : input) (q : option jsstr) (raw : option Z) :
  in_status i = None ->
  parse_limit raw = inr (limit i) ->
  first_fatal (branches api i q) = None ->
  let rs := branches api i q in
  let all := flat_map branch_conversations rs in
  let kept := keep_first [] all in
  let sorted := js_sort by_createdAt_desc kept in
  rs = [settle (api (base_request i q active));
        settle (api (base_request i q pending));
        settle (api (base_request i q closed))]
  /\ (exists ss pg, outcome (fetch api i q) = inr (take (limit i) sorted, ss, pg))
  /\ (sublist kept all /\ NoDup (List.map id kept)
      /\ forall c, c ∈ all -> id c ∈ List.map id kept)
  /\ (sorted ≡ₚ kept /\ newest_first sorted
      /\ forall t : Z,
           List.filter (fun c => (createdAt c =? t)%Z) sorted
           = List.filter (fun c => (createdAt c =? t)%Z) kept)
  /\ (NoDup (List.map id (take (limit i) sorted))
      /\ newest_first (take (limit i) sorted)
      /\ length (take (limit i) sorted) <= limit i
      /\ forall n : Z, raw = Some n -> (Z.of_nat (length (take (limit i) sorted)) <= n)%Z)
  /\ (forall r, outcome (searchConversations api i) = inr r ->
        NoDup (List.map id (results r)) /\ newest_first (results r)
        /\ length (results r) <= limit i).
Proof.
  intros Hs Hlim Hf rs all kept sorted.
  pose proof (effective_limit_parsed raw i Hlim) as Heff.
  assert (Hrec : forall rs', reconciled rs' i
                 = take (limit i) (js_sort by_createdAt_desc (merged rs'))).
  { intros rs'. unfold reconciled. by rewrite Heff. }
  split; [done|]. split.
  { eexists _, _. rewrite (fetch_multi_ok api i q Hs Hf). simpl.
    by rewrite (Hrec (branches api i q)). }
  split.
  { split; [apply keep_first_sublist|]. split; [apply keep_first_NoDup|].
    intros c Hc. destruct (keep_first_complete [] all c Hc) as [H|H]; [|done].
    by apply elem_of_nil in H. }
  split.
  { split; [apply js_sort_perm|]. split; [apply js_sort_newest_first|].
    intros t. apply js_sort_filter. intros x y Hx%Z.eqb_eq Hy%Z.eqb_eq.
    unfold by_createdAt_desc. lia. }
  split.
  { subst sorted kept all.
    change (keep_first [] (flat_map branch_conversations rs)) with (merged rs).
    rewrite <- (Hrec rs).
    split; [apply reconciled_NoDup|]. split; [apply reconciled_newest_first|].
    pose proof (reconciled_length rs i) as Hlen. rewrite Heff in Hlen.
    split; [done|]. intros n ->.
    apply parsed_limit in Hlim as [_ <-]. lia. }
  intros r Hr.
  destruct (multi_status_result api i r Hs Hr) as (q' & _ & _ & _ & Hcase).
  pose proof (reconciled_length (branches api i q') i) as Hlen. rewrite Heff in Hlen.
  destruct Hcase as [(-> & _)|(cb & t & _ & _ & -> & Hlt & _)].
  - split; [apply reconciled_NoDup|]. split; [apply reconciled_newest_first | done].
  - split; [apply NoDup_ids_filter, reconciled_NoDup|].
    split; [apply newest_first_filter, reconciled_newest_first|].
    pose proof (filter_length_le (before t) (reconciled (branches api i q') i)). lia.
Qed.

Lemma reconciliation_merge_sort_limit_witness :
  in_status (search_all 4) = None
  /\ parse_limit (Some 4%Z) = inr (limit (search_all 4))
  /\ first_fatal (branches api_partial (search_all 4) None) = None
  /\ exists ss pg,
       outcome (fetch api_partial (search_all 4) None)
       = inr ([conv 2 300; conv 4 300; conv 5 250; conv 3 200], ss, pg).
Proof.
  split; [reflexivity|]. split; [reflexivity|]. split; [reflexivity|].
  exact (proj1 (proj2 (reconciliation_merge_sort_limit api_partial (search_all 4)
                         None (Some 4%Z) eq_refl eq_refl eq_refl))).
Defined.

End ReconcileClaims.

Module BranchFacts.
Import Effects Query Search SearchSpec EffectFacts SortFacts MergeFacts FetchFacts
  SearchConversationsFacts ReconcileFacts ComprehensiveFacts.







Lemma failures_from_nil (statuses : list status) (rs : list settled) (index : nat) :
  failures_from statuses index rs = [] <-> forall e, Rejected e ∉ rs.
Proof.
  revert index. induction rs as [|r rs IH]; intros index; simpl.
  - split; [intros _ e; apply not_elem_of_nil | done].
  - destruct r as [v|e].
    + rewrite IH. split; intros H e'; specialize (H e'); set_solver.
    + split; [done|]. intros H. destruct (H e). by left.
Qed.




(** The branches of the comprehensive search. *)
Lemma searchSingleStatus_inv (api : transport) (c : context) (s : status)
    (r : status_result) :
  branch api c s = inr r ->
  exists q resp,
    api {| rq_status := s; rq_query := q; rq_size := limitPerStatus c |} = inr resp
    /\ sr_status r = s /\ sr_searchQuery r = searchQuery c
    /\ let fetched := conversations_of resp in
       let apiTotal := or_nat (page_of resp ≫= totalElements) (length fetched) in
       (sr_conversations r = fetched /\ totalCount r = apiTotal
        /\ totalCountBeforeFilter r = None /\ filteredByCreatedBefore r = Some false)
       \/ (exists cb t,
             ctx_createdBefore c = Some cb /\ snd cb = Some t
             /\ sr_conversations r = List.filter (before t) fetched
             /\ length (sr_conversations r) < length fetched
             /\ totalCount r = length (sr_conversations r)
             /\ totalCountBeforeFilter r = Some apiTotal
             /\ filteredByCreatedBefore r = Some true).
Proof.
  unfold branch, searchSingleStatus.
  rewrite outcome_bind.
  destruct (appendCreatedAtFilter _ _ _) as [e|qd]; [done|].
  change (outcome (lift (inr qd))) with (@inr thrown _ qd). cbv beta iota zeta.
  set (q := if ofalsy qd then Some (searchQuery c) else qd).
  rewrite outcome_bind.
  destruct (api _) as [e|resp] eqn:Hapi; [done|].
  change (outcome (lift (inr resp))) with (@inr thrown _ resp). cbv beta iota.
  rewrite outcome_bind. unfold filter_if_asked.
  intros Hr. exists q, resp. split; [done|].
  destruct (ctx_createdBefore c) as [cb|] eqn:Hcb.
  - destruct (falsy (fst cb)).
    + simpl in Hr. simplify_eq. simpl. split_and!; try done. by left.
    + rewrite outcome_bind in Hr. unfold applyCreatedBeforeFilter in Hr.
      destruct (snd cb) as [t|] eqn:Ht; [|done].
      rewrite outcome_bind in Hr.
      set (kept := List.filter _ (conversations_of resp)) in Hr.
      destruct (0 <? length (conversations_of resp) - length kept) eqn:Hrem;
        simpl in Hr; simplify_eq; simpl.
      * split_and!; try done. right. exists cb, t.
        apply Nat.ltb_lt in Hrem. split_and!; try done. fold kept. lia.
      * split_and!; try done. left. apply Nat.ltb_ge in Hrem.
        split_and!; try done. apply filter_keeps_all. fold kept. lia.
  - simpl in Hr. simplify_eq. simpl. split_and!; try done. by left.
Qed.

Lemma terminal_status (api : transport) (c : context) (s : status) (r : status_result) :
  terminal api c s = inr r -> sr_status r = s.
Proof.
  unfold terminal. destruct (branch api c s) as [e|r'] eqn:Hb.
  - destruct (fatal e); [done|]. by intros [= <-].
  - intros [= <-]. by destruct (searchSingleStatus_inv api c s r' Hb) as (? & ? & _ & ? & _).
Qed.

Lemma collect_statuses (api : transport) (c : context) (todo : list status)
    (rs : list status_result) :
  collect api c todo = inr rs -> List.map sr_status rs = todo.
Proof.
  intros H%collect_Forall2. induction H as [|s r todo rs Hsr _ IH]; [done|].
  simpl. by rewrite IH, (terminal_status api c s r Hsr).
Qed.




(** The sums of [formatComprehensiveSearchResults]. *)
Lemma reduce_sum_spec {A : Type} (f : A -> nat) (xs : list A) :
  reduce_sum f xs = sum_list (List.map f xs).
Proof.
  unfold reduce_sum, sum_list.
  assert (H : forall n, fold_left (fun sum x => sum + f x) xs n
                        = n + foldr Nat.add 0 (List.map f xs)).
  { induction xs as [|x xs IH]; intros n; simpl; [lia|]. rewrite IH. lia. }
  apply (H 0).
Qed.

End BranchFacts.

Module PolicyClaims.
Import Effects Query Search SearchSpec Scenario EffectFacts SortFacts MergeFacts
  FetchFacts SearchConversationsFacts ReconcileFacts ComprehensiveFacts BranchFacts.






End PolicyClaims.

Module SettleClaims.
Import Effects Query Search SearchSpec Scenario EffectFacts SortFacts MergeFacts
  FetchFacts SearchConversationsFacts ReconcileFacts ComprehensiveFacts BranchFacts.

Lemma fetch_multi_inv (api : transport) (i : input) (q : option jsstr)
    (convs : list Conversation) (ss : list status) (pg : pagination) :
  in_status i = None ->
  outcome (fetch api i q) = inr (convs, ss, pg) ->
  let rs := branches api i q in
  first_fatal rs = None
  /\ convs = reconciled rs i
  /\ ss = searched (failures_from all_statuses 0 rs)
  /\ pg = Counts (merged_counts rs (length (reconciled rs i))).
Proof.
  intros Hs Hfetch rs.
  destruct (first_fatal rs) as [e|] eqn:Hf.
  { by rewrite (fetch_multi_fatal api i q e Hs Hf) in Hfetch. }
  rewrite (fetch_multi_ok api i q Hs Hf) in Hfetch. simpl in Hfetch.
  by injection Hfetch as <- <- <-.
Qed.

Ltac here := repeat first [apply list_elem_of_here | apply list_elem_of_further].

(** The three branches of [searchConversations], when none is fatal: the
    status of a successful branch is among the statuses searched and has
    its total; the status of a failed branch is among the errors and not
    among the statuses searched. *)
Lemma three_branches (r1 r2 r3 : settled) (k : nat) (s : status) :
  let rs := [r1; r2; r3] in
  first_fatal rs = None ->
  all_statuses !! k = Some s ->
  (exists v, rs !! k = Some (Fulfilled v)
     /\ s ∈ searched (failures_from all_statuses 0 rs)
     /\ exists tb, when_some (totals_from all_statuses 0 rs [])
                     (totals_from all_statuses 0 rs []) = Some tb
                   /\ (s, total_of v) ∈ tb)
  \/ (exists e, rs !! k = Some (Rejected e) /\ fatal e = false
        /\ (s ∉ searched (failures_from all_statuses 0 rs))
        /\ exists fs, when_some (failures_from all_statuses 0 rs)
                        (failures_from all_statuses 0 rs) = Some fs
                      /\ {| f_status := s; f_message := message_of e;
                            f_code := errorCode_of e |} ∈ fs).
Proof.
  intros rs Hf Hk.
  destruct k as [|[|[|k]]]; simpl in Hk; simplify_eq;
    destruct r1 as [v1|e1], r2 as [v2|e2], r3 as [v3|e3]; simpl in Hf;
    repeat match type of Hf with
           | context [fatal ?e] => destruct (fatal e) eqn:?; [discriminate|]
           end;
    first [ left; eexists; split; [reflexivity|]; split; [vm_compute; here|];
            eexists; split; [reflexivity|]; vm_compute; here
          | right; eexists; split; [reflexivity|]; split; [assumption|];
            split; [vm_compute; set_solver|];
            eexists; split; [reflexivity|]; vm_compute; here ].
Qed.

Lemma branches_eq (api : transport) (i : input) (q : option jsstr) :
  branches api i q
  = [settle (api (base_request i q active)); settle (api (base_request i q pending));
     settle (api (base_request i q closed))].
Proof. reflexivity. Qed.

(** C4.  [Promise.allSettled] hands [searchConversations] one outcome for
    each of the three statuses, in their order; when the search returns,
    every status is accounted for exactly once: its branch succeeded (the
    status is among the statuses searched, its total is in the totals by
    status and its conversations went through the merge) or its branch
    failed without being fatal (the status is among the errors and not
    among the statuses searched).  When [executeMultiStatusSearch]
    returns, its list has one entry for each requested status, in order:
    the result of the branch, or the entry of a failure that was not
    fatal; a failed branch does not keep the later ones from being
    searched, and the formatter receives that list. *)
Theorem one_outcome_per_status (api : transport) :
  (forall (i : input) (q : option jsstr),
     let rs := branches api i q in
     length rs = length all_statuses
     /\ (forall k s, all_statuses !! k = Some s ->
           rs !! k = Some (settle (api (base_request i q s))))
     /\ (forall convs ss pg,
           in_status i = None -> outcome (fetch api i q) = inr (convs, ss, pg) ->
           exists c, pg = Counts c
             /\ forall k s, all_statuses !! k = Some s ->
                  (exists v, rs !! k = Some (Fulfilled v) /\ s ∈ ss
                     /\ (exists tb, c_totalByStatus c = Some tb /\ (s, total_of v) ∈ tb)
                     /\ forall x, x ∈ conversations_of v ->
                          id x ∈ List.map id (merged rs))
                  \/ (exists e, rs !! k = Some (Rejected e) /\ fatal e = false
                        /\ (s ∉ ss)
                        /\ exists fs, errors c = Some fs
                             /\ {| f_status := s; f_message := message_of e;
                                   f_code := errorCode_of e |} ∈ fs)))
  /\ (forall (c : context) (rs : list status_result),
        outcome (executeMultiStatusSearch api c) = inr rs ->
        length rs = length (statuses c)
        /\ List.map sr_status rs = statuses c
        /\ Forall2 (fun s r =>
                      branch api c s = inr r
                      \/ exists e, branch api c s = inl e /\ fatal e = false
                                   /\ r = placeholder c s)
                   (statuses c) rs
        /\ resultsByStatus (formatComprehensiveSearchResults rs) = rs
        /\ outcome (comprehensiveConversationSearch api c)
           = inr (formatComprehensiveSearchResults rs)).
Proof.
  split.
  - intros i q rs. split; [done|]. split.
    { intros k s Hk. destruct k as [|[|[|k]]]; simpl in Hk; by simplify_eq. }
    intros convs ss pg Hs Hfetch.
    destruct (fetch_multi_inv api i q convs ss pg Hs Hfetch) as (Hf & -> & -> & ->).
    fold rs in Hf |- *. eexists. split; [reflexivity|].
    intros k s Hk.
    assert (Hrs : rs = [settle (api (base_request i q active));
                        settle (api (base_request i q pending));
                        settle (api (base_request i q closed))]) by reflexivity.
    pose proof (three_branches _ _ _ k s (eq_ind _ (fun l => first_fatal l = None) Hf _ Hrs) Hk)
      as Hcase.
    cbv zeta in Hcase. rewrite <- Hrs in Hcase. clearbody rs.
    destruct Hcase as [(v & Hv & Hin & Htb)|(e & He & Hfe & Hnot & Hfs)].
    + left. exists v. split_and!; try done.
      intros x Hx.
      destruct (keep_first_complete [] (flat_map branch_conversations rs) x) as [H|H];
        [|by apply elem_of_nil in H|done].
      apply list_elem_of_In, in_flat_map. exists (Fulfilled v).
      split; [|by apply list_elem_of_In].
      apply list_elem_of_In, list_elem_of_lookup. eauto.
    + right. exists e. split_and!; done.
  - intros c rs Hrs. rewrite executeMultiStatusSearch_outcome in Hrs.
    pose proof (collect_Forall2 api c _ rs Hrs) as Hall.
    split_and!.
    + symmetry. by eapply Forall2_length.
    + by apply collect_statuses in Hrs.
    + eapply Forall2_impl; [exact Hall|]. simpl. intros s r. unfold terminal.
      destruct (branch api c s) as [e|r'].
      * destruct (fatal e) eqn:Hfe; [done|]. intros [= <-]. right. by exists e.
      * intros [= <-]. by left.
    + done.
    + unfold comprehensiveConversationSearch.
      by rewrite outcome_bind, executeMultiStatusSearch_outcome, Hrs.
Qed.

End SettleClaims.

Module AccountingClaims.
Import Chars JS Effects Query Search SearchSpec Scenario EffectFacts SortFacts MergeFacts
  FetchFacts SearchConversationsFacts ReconcileFacts ComprehensiveFacts BranchFacts
  PolicyClaims.



Lemma occurs_in_app_l (part pre s : jsstr) :
  occurs_in part s -> occurs_in part (pre ++ s).
Proof. intros (a & b & ->). exists (pre ++ a), b. by rewrite <- app_assoc. Qed.

Lemma occurs_in_app_r (part s post : jsstr) :
  occurs_in part s -> occurs_in part (s ++ post).
Proof. intros (a & b & ->). exists a, (b ++ post). by rewrite <- !app_assoc. Qed.

Lemma occurs_in_here (part post : jsstr) : occurs_in part (part ++ post).
Proof. by exists [], post. Qed.










End AccountingClaims.

Module FilterClaims.
Import Chars JS Effects Query Search SearchSpec Scenario EffectFacts SortFacts MergeFacts
  FetchFacts SearchConversationsFacts ReconcileFacts ComprehensiveFacts BranchFacts
  PolicyClaims AccountingClaims.

(** Equalities between texts built from literals and variable parts. *)
Ltac text_eq :=
  rewrite <- ?app_assoc;
  repeat match goal with
         | |- context [of_nat ?n] => generalize (of_nat n); intro
         | |- context [show_total ?n] => generalize (show_total n); intro
         | |- context [default [] ?n] => generalize (default [] n); intro
         end;
  vm_compute; reflexivity.

Lemma refiltered_spec (count : nat) (pg : pagination) :
  exists c n,
    refiltered count pg = Counts c
    /\ totalResults c = count
    /\ c_totalAvailable c = api_total pg
    /\ c_totalByStatus c = api_totals_by_status pg
    /\ note c = Some n
    /\ occurs_in (filtered_count_text count) n
    /\ occurs_in (pre_filter_text (api_total pg)) n.
Proof.
  destruct pg as [p|m]; unfold refiltered, buildFilteredPagination, filtered_merged,
    api_total, api_totals_by_status; cbn [negb].
  - eexists _, _. split_and!; try reflexivity.
    + exists (str "Results filtered client-side by createdBefore. ").
      exists (str ", totalAvailable shows pre-filter API total ("
              ++ show_total (p ≫= totalElements) ++ str ").").
      unfold filtered_count_text. text_eq.
    + exists (str "Results filtered client-side by createdBefore. totalResults shows filtered count ("
              ++ of_nat count ++ str "), totalAvailable shows pre-filter API ").
      exists (str "."). unfold pre_filter_text. text_eq.
  - eexists _, _. split_and!; try reflexivity.
    + exists (str "Client-side createdBefore filter applied to merged results. ").
      exists (str ", totalAvailable shows pre-filter total ("
              ++ show_total (c_totalAvailable m) ++ str "). " ++ default [] (note m)).
      unfold filtered_count_text. text_eq.
    + exists (str "Client-side createdBefore filter applied to merged results. totalResults shows filtered count ("
              ++ of_nat count ++ str "), totalAvailable shows pre-filter ").
      exists (str ". " ++ default [] (note m)). unfold pre_filter_text.
      text_eq.
Qed.

Lemma format_filtered (rs : list status_result) :
  (exists r, r ∈ rs /\ filteredByCreatedBefore r = Some true) ->
  let sm := formatComprehensiveSearchResults rs in
  let pre := sum_list (List.map (fun r => or_nat (totalCountBeforeFilter r) (totalCount r)) rs) in
  totalConversationsFound sm = sum_list (List.map (fun r => length (sr_conversations r)) rs)
  /\ totalAvailableAcrossStatuses sm = sum_list (List.map totalCount rs)
  /\ totalBeforeClientSideFiltering sm = Some pre
  /\ exists n, clientSideFilteringApplied sm = Some n
       /\ occurs_in (str "totalConversationsFound ("
                     ++ of_nat (totalConversationsFound sm) ++ str ")") n
       /\ occurs_in (str "totalBeforeClientSideFiltering (" ++ of_nat pre ++ str ")") n.
Proof.
  intros (r & Hin & Hr) sm pre.
  assert (Hex : existsb (fun r => default false (filteredByCreatedBefore r)) rs = true).
  { apply existsb_exists. exists r. split; [by apply list_elem_of_In | by rewrite Hr]. }
  unfold sm, formatComprehensiveSearchResults. cbv zeta. rewrite Hex.
  cbn [totalConversationsFound totalAvailableAcrossStatuses
       totalBeforeClientSideFiltering clientSideFilteringApplied].
  rewrite !reduce_sum_spec. fold pre.
  split_and!; try reflexivity.
  eexists. split; [reflexivity|]. split.
  - exists (str "createdBefore filter applied - ").
    exists (str " reflects filtered results, totalBeforeClientSideFiltering ("
            ++ of_nat pre ++ str ") shows pre-filter API totals").
    simpl show_total. fold pre. text_eq.
  - exists (str "createdBefore filter applied - totalConversationsFound ("
            ++ of_nat (sum_list (List.map (fun r => length (sr_conversations r)) rs))
            ++ str ") reflects filtered results, ").
    exists (str " shows pre-filter API totals"). simpl show_total.
    fold pre. text_eq.
Qed.

(** C5, as amended.  When the client-side filter of [searchConversations]
    removed a record, the pagination carries the count after the filter
    as [totalResults], the total from before the filter as
    [totalAvailable] (the total the API reported for a single status, the
    sum over the successful branches for all statuses), the totals by
    status from before the filter, and a note that names both numbers;
    when it removed nothing the pagination is the original one.  In the
    comprehensive search a branch that lost a record to the filter has the
    count after the filter as [totalCount] and the total from before it as
    [totalCountBeforeFilter], and the summary adds up both and names them
    in its note. *)
Theorem filtered_counts_reported (api : transport) :
  (forall (i : input) (r : search_result),
     outcome (searchConversations api i) = inr r ->
     exists q convs ss pg,
       sent_query i = inr q /\ outcome (fetch api i q) = inr (convs, ss, pg)
       /\ (clientSideFiltering r = true <-> length (results r) < length convs)
       /\ (clientSideFiltering r = false ->
             results r = convs /\ r_pagination r = pg)
       /\ (clientSideFiltering r = true ->
             exists c n,
               r_pagination r = Counts c
               /\ totalResults c = length (results r)
               /\ c_totalAvailable c = api_total pg
               /\ c_totalByStatus c = api_totals_by_status pg
               /\ note c = Some n
               /\ occurs_in (str "totalResults shows filtered count ("
                             ++ of_nat (length (results r)) ++ str ")") n
               /\ occurs_in (str "total (" ++ show_total (api_total pg) ++ str ")") n))
  /\ (forall (c : context) (s : status) (r : status_result),
        branch api c s = inr r -> filteredByCreatedBefore r = Some true ->
        exists q resp,
          api {| rq_status := s; rq_query := q; rq_size := limitPerStatus c |} = inr resp
          /\ length (sr_conversations r) < length (conversations_of resp)
          /\ totalCount r = length (sr_conversations r)
          /\ totalCountBeforeFilter r
             = Some (or_nat (page_of resp ≫= totalElements)
                            (length (conversations_of resp))))
  /\ (forall rs : list status_result,
        (exists r, r ∈ rs /\ filteredByCreatedBefore r = Some true) ->
        let sm := formatComprehensiveSearchResults rs in
        let pre := sum_list (List.map (fun r => or_nat (totalCountBeforeFilter r)
                                                       (totalCount r)) rs) in
        totalConversationsFound sm
        = sum_list (List.map (fun r => length (sr_conversations r)) rs)
        /\ totalAvailableAcrossStatuses sm = sum_list (List.map totalCount rs)
        /\ totalBeforeClientSideFiltering sm = Some pre
        /\ exists n, clientSideFilteringApplied sm = Some n
             /\ occurs_in (str "totalConversationsFound ("
                           ++ of_nat (totalConversationsFound sm) ++ str ")") n
             /\ occurs_in (str "totalBeforeClientSideFiltering ("
                           ++ of_nat pre ++ str ")") n).
Proof.
  split_and!.
  - intros i r Hr.
    destruct (searchConversations_inv api i r Hr)
      as (q & convs & ss & pg & Hq & Hfetch & _ & Hcase).
    exists q, convs, ss, pg. split; [done|]. split; [done|].
    destruct Hcase as [(H1 & H2 & H3)|(cb & t & _ & _ & _ & H1 & H2 & H3 & H4)].
    + rewrite H3, H1. split_and!; try done. split; [done | lia].
    + rewrite H3. split_and!; try done.
      intros _. rewrite H4.
      destruct (refiltered_spec (length (results r)) pg)
        as (c & n & Hc & Hres & Hav & Hby & Hn & Ho1 & Ho2).
      exists c, n. split_and!; done.
  - intros c s r Hb Hfl.
    destruct (searchSingleStatus_inv api c s r Hb) as (q & resp & Hapi & _ & _ & Hcase).
    exists q, resp. split; [done|]. cbv zeta in Hcase.
    destruct Hcase as [(_ & _ & _ & H)|(cb & t & _ & _ & _ & H1 & H2 & H3 & _)].
    + congruence.
    + split_and!; done.
  - apply format_filtered.
Qed.

End FilterClaims.

Module SearchWitnesses.
Import Chars JS Effects Query Search SearchSpec Scenario EffectFacts SortFacts MergeFacts
  FetchFacts SearchConversationsFacts ReconcileFacts ComprehensiveFacts BranchFacts
  PolicyClaims SettleClaims AccountingClaims FilterClaims.


Lemma one_outcome_per_status_witness :
  outcome (executeMultiStatusSearch api_partial comprehensive) = inr partial_lists
  /\ length partial_lists = length (statuses comprehensive)
  /\ List.map sr_status partial_lists = statuses comprehensive.
Proof.
  split; [vm_compute; reflexivity|].
  pose proof (proj2 (one_outcome_per_status api_partial) comprehensive partial_lists
                    ltac:(vm_compute; reflexivity)) as (H1 & H2 & _).
  exact (conj H1 H2).
Defined.



(** C5 as stated fails in [searchConversations]: eight records fetched of
    twenty reported, three removed by the filter; [totalAvailable] is
    still the total the API reported before the filter, which counts the
    three records removed. *)
Lemma filtered_total_is_pre_filter_total :
  exists r c,
    outcome (searchConversations api_twenty (search_active_before 600)) = inr r
    /\ clientSideFiltering r = true
    /\ length (results r) = 5
    /\ r_pagination r = Counts c
    /\ totalResults c = 5
    /\ c_totalAvailable c = Some 20
    /\ ~ (20 <= 20 - 3).
Proof.
  eexists _, _. split; [vm_compute; reflexivity|].
  split_and!; try (vm_compute; reflexivity). lia.
Qed.

Lemma filtered_counts_reported_witness :
  exists r,
    outcome (searchConversations api_twenty (search_active_before 600)) = inr r
    /\ clientSideFiltering r = true
    /\ exists c n,
         r_pagination r = Counts c
         /\ totalResults c = length (results r)
         /\ c_totalAvailable c = Some 20
         /\ note c = Some n.
Proof.
  eexists. split; [vm_compute; reflexivity|]. split; [reflexivity|].
  destruct (proj1 (filtered_counts_reported api_twenty) (search_active_before 600) _
              ltac:(vm_compute; reflexivity))
    as (q & convs & ss & pg & Hq & Hfetch & _ & _ & H).
  destruct (H eq_refl) as (c & n & Hp & Hres & Hav & _ & Hn & _).
  exists c, n. split; [exact Hp|]. split; [exact Hres|]. split; [|exact Hn].
  rewrite Hav. injection Hq as <-. vm_compute in Hfetch. injection Hfetch as _ _ <-.
  reflexivity.
Defined.

End SearchWitnesses.

Module RegexFacts.
Import Chars Regex JS TextSpec.

Lemma run_seq_cls (p : N -> bool) (r : re) (pv : option N) (c : N) (t : jsstr) :
  run (Seq (Cls p) r) (pv, c :: t) = if p c then run r (Some c, t) else [].
Proof. simpl. destruct (p c); simpl; [by rewrite app_nil_r | done]. Qed.

Lemma run_seq_cls_nil (p : N -> bool) (r : re) (pv : option N) :
  run (Seq (Cls p) r) (pv, []) = [].
Proof. reflexivity. Qed.

Lemma first_match_bol (r : re) (c : N) (s : jsstr) :
  first_match (Seq Bol r) (Some c) s = None.
Proof. reflexivity. Qed.

Lemma search_from_bol (r : re) (c : N) (s : jsstr) (idx : nat) :
  search_from (Seq Bol r) (Some c) s idx = None.
Proof.
  revert c idx. induction s as [|d s IH]; intros c idx; [done|].
  simpl. apply IH.
Qed.

Lemma run_bol_start (r : re) (s : jsstr) :
  run (Seq Bol r) (None, s) = run r (None, s).
Proof. simpl. apply app_nil_r. Qed.

(** A pattern anchored at the start is tried at the start only. *)
Lemma test_bol (r : re) (s : jsstr) :
  test (Seq Bol r) s = match run r (None, s) with [] => false | _ => true end.
Proof.
  unfold test, search.
  assert (H : search_from (Seq Bol r) None s 0
              = match run r (None, s) with
                | [] => None
                | s' :: _ => Some (0, firstn (length s - length (snd s')) s)
                end).
  { destruct s as [|c s]; unfold search_from; fold search_from;
      unfold first_match; rewrite run_bol_start.
    - by destruct (run r (None, [])).
    - destruct (run r (None, c :: s)); [|done]. apply search_from_bol. }
  rewrite H. by destruct (run r (None, s)).
Qed.

Lemma progress_cons (pv pv' : option N) (c : N) (t : jsstr) :
  progress (pv, c :: t) (pv', t) = true.
Proof. unfold progress. simpl. apply Nat.ltb_lt. lia. Qed.

Lemma rep_iter_hi0 (step : st -> list st) (g : bool) (fuel lo : nat) (s : st) :
  rep_iter step g fuel lo (Some 0) s = [s].
Proof. by destruct fuel. Qed.

(** The loop of a quantifier over a class follows the input. *)
Lemma rep_cls (p : N -> bool) (g : bool) (s : jsstr) :
  forall (fuel lo : nat) (hi : option nat) (pv : option N),
    length s <= fuel ->
    rep_iter (run (Cls p)) g fuel lo hi (pv, s) = cls_loop p g lo hi pv s.
Proof.
  induction s as [|c t IH]; intros fuel lo hi pv Hfuel.
  - destruct fuel; simpl; destruct (hi_is_zero hi); try done.
    destruct g; simpl; [done | by rewrite app_nil_r].
  - destruct fuel as [|f]; [simpl in Hfuel; lia|].
    simpl. destruct (hi_is_zero hi); [done|].
    destruct (p c); simpl.
    + unfold progress. simpl.
      replace (length t <? S (length t)) with true by (symmetry; apply Nat.ltb_lt; lia).
      rewrite app_nil_r, IH by (simpl in Hfuel; lia).
      by destruct lo.
    + destruct g; simpl; [done | by rewrite app_nil_r].
Qed.

Lemma run_rep_cls (p : N -> bool) (g : bool) (lo : nat) (hi : option nat)
    (pv : option N) (s : jsstr) :
  run (Rep g lo hi (Cls p)) (pv, s) = cls_loop p g lo hi pv s.
Proof. simpl. apply rep_cls. lia. Qed.

End RegexFacts.

Module QueryFacts.
Import Chars Regex JS Effects Query SearchSpec TextSpec RegexFacts.

#[local] Arguments N.eqb : simpl never.
#[local] Arguments is_digit : simpl never.

Ltac use_tests :=
  repeat match goal with
         | H : ?b = true |- context [?b] => rewrite H
         | H : ?b = false |- context [?b] => rewrite H
         end.

Ltac by_tests :=
  unfold andb, orb, negb; rewrite ?progress_cons;
  repeat first
    [ reflexivity
    | match goal with
      | |- context [if ?b then _ else _] =>
          match type of b with bool => destruct b eqn:? end
      end; simpl; use_tests; simpl; rewrite ?progress_cons; simpl ].

Lemma first_match_millis (pv : option N) (s : jsstr) :
  first_match re_millis pv s = if is_millis s then Some s else None.
Proof.
  unfold first_match, is_millis.
  destruct s as [|d [|a [|b [|c [|z [|y s]]]]]]; simpl;
    rewrite ?(N.eqb_sym _ 46), ?(N.eqb_sym _ 90); by_tests.
Qed.

Lemma search_millis (s : jsstr) :
  forall (pv : option N) (idx : nat),
    match search_from re_millis pv s idx with
    | Some (i, m) =>
        exists k, i = idx + k
                  /\ firstn k s ++ str "Z" ++ skipn (k + length m) s = strip_millis s
    | None => strip_millis s = s
    end.
Proof.
  induction s as [|c t IH]; intros pv idx.
  - reflexivity.
  - unfold search_from; fold search_from. rewrite first_match_millis.
    unfold strip_millis; fold strip_millis.
    destruct (is_millis (c :: t)) eqn:Hm.
    + exists 0. split; [lia|]. rewrite Nat.add_0_l, skipn_all. reflexivity.
    + specialize (IH (Some c) (S idx)).
      destruct (search_from re_millis (Some c) t (S idx)) as [[i m]|].
      * destruct IH as (k & -> & Hk). exists (S k). split; [lia|].
        change (firstn (S k) (c :: t) ++ str "Z" ++ skipn (S k + length m) (c :: t))
          with (c :: (firstn k t ++ str "Z" ++ skipn (k + length m) t)).
        by rewrite Hk.
      * by rewrite IH.
Qed.

Lemma normalize_spec (d : jsstr) : normalize d = strip_millis d.
Proof.
  unfold normalize, replace_first, search.
  pose proof (search_millis d None 0) as H.
  destruct (search_from re_millis None d 0) as [[i m]|]; [|done].
  by destruct H as (k & -> & Hk).
Qed.




Lemma bound_spec (d : option jsstr) : bound d = range_end d.
Proof.
  destruct d as [[|c t]|]; try reflexivity.
  unfold bound. simpl ofalsy. cbv iota. apply normalize_spec.
Qed.






End QueryFacts.

Module StripFacts.
Import Chars Regex JS HtmlStripper TextSpec Bodies RegexFacts.

(** C10.  A maximum length of 0 is falsy: [stripHtml] returns the whole
    text, as it does without a maximum length; the same holds for the
    older [stripHtml] without the quote cut. *)
Theorem zero_max_length_is_no_cap (h : jsstr) :
  stripHtml h (Some 0%Z) = stripHtml h None
  /\ stripHtml_v1 h (Some 0%Z) = stripHtml_v1 h None.
Proof. unfold stripHtml, stripHtml_v1. by destruct (falsy h). Qed.

Example positive_max_length_caps :
  stripHtml (str "<p>ab cd</p>") (Some 3%Z) = str "ab "
  /\ stripHtml (str "<p>ab cd</p>") (Some 0%Z) = str "ab cd".
Proof. split; vm_compute; reflexivity. Qed.

Lemma date_follows_spec (lines : list jsstr) (i : nat) :
  date_follows lines i = true
  <-> exists j, i < j /\ j < i + 8 /\ j < length lines
                /\ test re_header_date (line_at lines j) = true.
Proof.
  unfold date_follows. rewrite existsb_exists. split.
  - intros (j & Hj%in_seq & Ht). exists j. split_and!; try done; lia.
  - intros (j & H1 & H2 & H3 & Ht). exists j. split; [|done]. apply in_seq. lia.
Qed.

End StripFacts.

Module ImageFacts.
Import Chars Regex JS HtmlStripper TextSpec Bodies RegexFacts QueryFacts.

#[local] Arguments N.eqb : simpl never.
#[local] Arguments lower : simpl never.




Lemma img_tags_cons_txt (c : N) (toks : list tok) :
  flat_map (fun t => match t with Mat m => [m] | Txt _ => [] end) (Txt c :: toks)
  = flat_map (fun t => match t with Mat m => [m] | Txt _ => [] end) toks.
Proof. reflexivity. Qed.






Lemma label_spec (k : nat) (a : jsstr) :
  label k a
  = match a with
    | [] => str "[Image " ++ of_nat k ++ str "]"
    | _ => str "[Image " ++ of_nat k ++ str ": " ++ a ++ str "]"
    end.
Proof. by destruct a. Qed.

End ImageFacts.

Module LineFacts.
Import Chars Regex JS HtmlStripper TextSpec RegexFacts.

#[local] Arguments N.eqb : simpl never.
#[local] Arguments is_space : simpl never.

Lemma split_lines_not_nil (s : jsstr) : split_lines s <> [].
Proof.
  induction s as [|c s IH]; simpl; [done|].
  destruct (N.eqb c LF); [done|]. by destruct (split_lines s).
Qed.








(** *** trim *)


Lemma trim_end_nil : trim_end [] = [].
Proof. reflexivity. Qed.








(** *** The lines of a trimmed text *)












End LineFacts.

Module QuoteFacts.
Import Chars Regex JS HtmlStripper TextSpec RegexFacts LineFacts.




(** *** The notice *)






(** *** The first line that cuts *)

Lemma find_seq_None (f : nat -> bool) (a n : nat) :
  List.find f (seq a n) = None <-> forall i, a <= i < a + n -> f i = false.
Proof.
  revert a. induction n as [|n IH]; intros a; simpl.
  - split; [intros _ i Hi; lia | done].
  - destruct (f a) eqn:Ha.
    + split; [done|]. intros H. rewrite H in Ha by lia. done.
    + rewrite IH. split; intros H i Hi.
      * destruct (decide (i = a)) as [->|]; [done|]. apply H. lia.
      * apply H. lia.
Qed.

Lemma find_seq_Some (f : nat -> bool) (a n x : nat) :
  List.find f (seq a n) = Some x ->
  a <= x < a + n /\ f x = true /\ forall i, a <= i < x -> f i = false.
Proof.
  revert a. induction n as [|n IH]; intros a; simpl; [done|].
  destruct (f a) eqn:Ha.
  - intros [= <-]. split_and!; [lia..|done|intros; lia].
  - intros (H1 & H2 & H3)%IH. split_and!; [lia..|done|].
    intros i Hi. destruct (decide (i = a)) as [->|]; [done|]. apply H3. lia.
Qed.




End QuoteFacts.

Module MarkupFacts.
Import Chars Regex JS HtmlStripper TextSpec RegexFacts LineFacts.

#[local] Arguments N.eqb : simpl never.

(** *** The walk of a global replace, one step at a time *)

Lemma tokens_from_nil (r : re) (pv : option N) :
  tokens_from r pv [] 0
  = match first_match r pv [] with Some m => [Mat m] | None => [] end.
Proof. reflexivity. Qed.

Lemma tokens_from_cons (r : re) (pv : option N) (c : N) (t : jsstr) :
  tokens_from r pv (c :: t) 0
  = match first_match r pv (c :: t) with
    | Some [] => Mat [] :: Txt c :: tokens_from r (Some c) t 0
    | Some (d :: m') => Mat (d :: m') :: tokens_from r (Some c) t (length m')
    | None => Txt c :: tokens_from r (Some c) t 0
    end.
Proof. simpl. destruct (first_match r pv (c :: t)) as [[|d m']|]; reflexivity. Qed.

Lemma tokens_from_skip (r : re) (pv : option N) (c : N) (t : jsstr) (k : nat) :
  tokens_from r pv (c :: t) (S k) = tokens_from r (Some c) t k.
Proof. reflexivity. Qed.

(** *** Patterns that begin with a fixed code unit *)















(** *** Replacing the runs of a class *)

Section Spans.
Context (p : N -> bool).

Lemma span_le (s : jsstr) : span p s <= length s.
Proof. induction s as [|c s IH]; simpl; [lia|]. destruct (p c); simpl; lia. Qed.



Lemma short_runs_tail (n : nat) (c : N) (s : jsstr) :
  short_runs p n (c :: s) = true -> short_runs p n s = true.
Proof. intros H. by apply andb_true_iff in H as [_ H]. Qed.

Lemma short_runs_drop (n k : nat) (s : jsstr) :
  short_runs p n s = true -> short_runs p n (drop k s) = true.
Proof.
  revert s. induction k as [|k IH]; intros s H; [by rewrite drop_0|].
  destruct s as [|c s]; [done|]. simpl. apply IH. by eapply short_runs_tail.
Qed.



End Spans.

Section Runs.
Context (p : N -> bool) (lo : nat) (by_ : jsstr).
Hypothesis Hlo : 1 <= lo.

(** The greedy loop takes the whole run, if it is long enough. *)
Lemma cls_loop_greedy (s : jsstr) :
  forall (n : nat) (pv : option N),
    match cls_loop p true n None pv s with
    | [] => span p s < n
    | (_, rest) :: _ => n <= span p s /\ rest = drop (span p s) s
    end.
Proof.
  induction s as [|c t IH]; intros n pv; simpl.
  - destruct n; simpl; [split; [lia|done] | lia].
  - destruct (p c).
    + specialize (IH (pred n) (Some c)).
      destruct (cls_loop p true (pred n) None (Some c) t) as [|[pv' rest] l]; simpl.
      * destruct n; simpl in *; lia.
      * destruct IH as [IH ->]. split; [lia|done].
    + destruct n; simpl; [split; [lia|done] | lia].
Qed.

Lemma first_match_runs (pv : option N) (s : jsstr) :
  first_match (at_least lo (Cls p)) pv s
  = if lo <=? span p s then Some (take (span p s) s) else None.
Proof.
  unfold first_match, at_least. rewrite run_rep_cls.
  pose proof (cls_loop_greedy s lo pv) as H.
  destruct (cls_loop p true lo None pv s) as [|[pv' rest] l].
  - by apply Nat.leb_gt in H as ->.
  - destruct H as [H ->]. apply Nat.leb_le in H as ->. f_equal. f_equal.
    simpl. rewrite length_drop. pose proof (span_le p s). lia.
Qed.

Lemma tokens_runs_prev (pv pv' : option N) (s : jsstr) (k : nat) :
  tokens_from (at_least lo (Cls p)) pv s k
  = tokens_from (at_least lo (Cls p)) pv' s k.
Proof.
  destruct k as [|k], s as [|c t]; try reflexivity.
  - by rewrite !tokens_from_nil, !first_match_runs.
  - by rewrite !tokens_from_cons, !first_match_runs.
Qed.

Lemma tokens_runs_drop (k : nat) :
  forall (s : jsstr) (pv : option N),
    tokens_from (at_least lo (Cls p)) pv s k
    = tokens_from (at_least lo (Cls p)) None (drop k s) 0.
Proof.
  induction k as [|k IH]; intros s pv.
  - rewrite drop_0. apply tokens_runs_prev.
  - destruct s as [|c t].
    + rewrite drop_nil, tokens_from_nil, first_match_runs. simpl span.
      by replace (lo <=? 0) with false by (symmetry; apply Nat.leb_gt; lia).
    + rewrite tokens_from_skip. apply IH.
Qed.

Lemma replace_runs_nil : replace_all (at_least lo (Cls p)) (fun _ => by_) [] = [].
Proof.
  unfold replace_all, tokens. rewrite tokens_from_nil, first_match_runs. simpl span.
  by replace (lo <=? 0) with false by (symmetry; apply Nat.leb_gt; lia).
Qed.

(** A run of [lo] or more is replaced as a whole; a code unit at which
    no such run begins is copied. *)
Lemma replace_runs_cons (c : N) (t : jsstr) :
  replace_all (at_least lo (Cls p)) (fun _ => by_) (c :: t)
  = if lo <=? span p (c :: t)
    then by_ ++ replace_all (at_least lo (Cls p)) (fun _ => by_)
                  (drop (span p (c :: t)) (c :: t))
    else c :: replace_all (at_least lo (Cls p)) (fun _ => by_) t.
Proof.
  unfold replace_all, tokens. rewrite tokens_from_cons, first_match_runs.
  destruct (lo <=? span p (c :: t)) eqn:E.
  - apply Nat.leb_le in E. pose proof (span_le p (c :: t)) as Hle.
    destruct (span p (c :: t)) as [|k]; [lia|]. simpl in Hle.
    cbn [take drop]. rewrite tokens_runs_drop, length_take.
    replace (k `min` length t) with k by lia. reflexivity.
  - by rewrite (tokens_runs_prev (Some c) None).
Qed.

(** Induction along the walk of the replacement. *)
Lemma replace_runs_ind (P : jsstr -> jsstr -> Prop) :
  P [] [] ->
  (forall c t, span p (c :: t) < lo ->
     P t (replace_all (at_least lo (Cls p)) (fun _ => by_) t) ->
     P (c :: t) (c :: replace_all (at_least lo (Cls p)) (fun _ => by_) t)) ->
  (forall c t u, lo <= span p (c :: t) -> u = drop (span p (c :: t)) (c :: t) ->
     P u (replace_all (at_least lo (Cls p)) (fun _ => by_) u) ->
     P (c :: t) (by_ ++ replace_all (at_least lo (Cls p)) (fun _ => by_) u)) ->
  forall s, P s (replace_all (at_least lo (Cls p)) (fun _ => by_) s).
Proof.
  intros Hnil Hcopy Hrun s.
  remember (length s) as n eqn:Hn. revert s Hn.
  induction n as [n IH] using lt_wf_ind. intros s Hn.
  destruct s as [|c t]; [by rewrite replace_runs_nil|].
  rewrite replace_runs_cons. destruct (lo <=? span p (c :: t)) eqn:E.
  - apply Nat.leb_le in E. apply (Hrun c t _ E eq_refl).
    apply (IH (length (drop (span p (c :: t)) (c :: t)))); [|done].
    rewrite length_drop. subst n. simpl length. lia.
  - apply Nat.leb_gt in E. apply (Hcopy c t E).
    apply (IH (length t)); [subst n; simpl; lia | done].
Qed.

(** Where every run is too short for the pattern nothing is replaced. *)
Lemma replace_runs_short (s : jsstr) :
  short_runs p lo s = true ->
  replace_all (at_least lo (Cls p)) (fun _ => by_) s = s.
Proof.
  induction s as [|c t IH]; intros H; [apply replace_runs_nil|].
  rewrite replace_runs_cons. cbn [short_runs] in H.
  apply andb_true_iff in H as [H1%Nat.ltb_lt H2].
  apply Nat.leb_gt in H1 as ->. by rewrite IH.
Qed.

End Runs.

(** *** Blanks and line feeds *)




Lemma is_lf_spec (c : N) : is_lf c = true <-> c = LF.
Proof. unfold is_lf. rewrite N.eqb_eq. split; congruence. Qed.







(** *** Trimming keeps a text collapsed *)

Lemma trim_start_suffix (s : jsstr) : exists a, s = a ++ trim_start s.
Proof.
  induction s as [|c s [a IH]]; [by exists []|]. simpl.
  destruct (is_space c); [|by exists []].
  exists (c :: a). simpl. by rewrite <- IH.
Qed.

Lemma trim_end_prefix (s : jsstr) : exists b, s = trim_end s ++ b.
Proof.
  unfold trim_end. destruct (trim_start_suffix (rev s)) as [a Ha].
  exists (rev a). rewrite <- rev_app_distr, <- Ha. by rewrite rev_involutive.
Qed.

Lemma trim_infix (s : jsstr) : exists a b, s = a ++ trim s ++ b.
Proof.
  unfold trim. destruct (trim_start_suffix s) as [a Ha].
  destruct (trim_end_prefix (trim_start s)) as [b Hb].
  exists a, b. by rewrite <- Hb.
Qed.




End MarkupFacts.

Module NormalizerClaims.
Import Chars Regex JS HtmlStripper TextSpec Bodies RegexFacts QueryFacts StripFacts
  ImageFacts LineFacts QuoteFacts MarkupFacts.






(** The three ways [stripQuotedContent] ends. *)
Lemma stripQuotedContent_cases (x : jsstr) :
  stripQuotedContent x = x
  \/ exists cut n,
       cutIndex (split_lines x) = Some cut
       /\ 10 <= length (trim (join [LF] (firstn cut (split_lines x))))
       /\ n = length (join [LF] (skipn cut (split_lines x)))
       /\ 100 <= n
       /\ stripQuotedContent x
          = trim (join [LF] (firstn cut (split_lines x))) ++ notice n.
Proof.
  unfold stripQuotedContent.
  destruct x as [|c x]; [by left|]. simpl falsy. cbv iota.
  destruct (cutIndex (split_lines (c :: x))) as [cut|] eqn:Hcut; [|by left].
  cbv zeta.
  destruct (length (trim (join [LF] (firstn cut (split_lines (c :: x))))) <? 10) eqn:Hk;
    [by left|].
  destruct (length (join [LF] (skipn cut (split_lines (c :: x)))) <? 100) eqn:Hr;
    [by left|].
  right. eexists cut, _. apply Nat.ltb_ge in Hk, Hr. split_and!; done.
Qed.


(** The line at which the text is cut is the first line at which a
    pattern matches. *)
Lemma cutIndex_spec (lines : list jsstr) (i : nat) :
  cutIndex lines = Some i
  <-> i < length lines /\ cuts_at lines i = true
      /\ forall j, j < i -> cuts_at lines j = false.
Proof.
  unfold cutIndex. split.
  - intros (H1 & H2 & H3)%find_seq_Some. split_and!; [simpl in H1; lia|done|].
    intros j Hj. apply H3. lia.
  - intros (H1 & H2 & H3).
    destruct (List.find (cuts_at lines) (seq 0 (length lines))) as [x|] eqn:Hx.
    + apply find_seq_Some in Hx as (Hx1 & Hx2 & Hx3). f_equal.
      destruct (Nat.lt_trichotomy x i) as [Hlt|[->|Hgt]]; [|done|].
      * rewrite (H3 x Hlt) in Hx2. done.
      * rewrite Hx3 in H2 by lia. done.
    + rewrite find_seq_None in Hx. rewrite Hx in H2 by (simpl; lia). done.
Qed.

Lemma cuts_at_spec (lines : list jsstr) (i : nat) :
  cuts_at lines i = true
  <-> test re_forward_marker (line_at lines i) = true
      \/ test re_begin_forwarded (line_at lines i) = true
      \/ test re_on_wrote (line_at lines i) = true
      \/ test re_am_schrieb (line_at lines i) = true
      \/ test re_le_ecrit (line_at lines i) = true
      \/ (test re_header_from (line_at lines i) = true
          /\ date_follows lines i = true).
Proof.
  unfold cuts_at. cbv zeta.
  destruct (test re_forward_marker _), (test re_begin_forwarded _), (test re_on_wrote _),
    (test re_am_schrieb _), (test re_le_ecrit _), (test re_header_from _),
    (date_follows lines i); simpl; intuition congruence.
Qed.

(** C8.  The text is cut at the first line at which a pattern matches,
    and only when at least 10 code units are kept and at least 100 are
    removed; the removed part is replaced by the notice with its length,
    otherwise the text comes back unchanged.  But the window after a From
    line is seven lines, not eight: the inner loop looks at the lines
    [i + 1] to [i + 7], so a Date line seven lines after the From line is
    found and the text is cut, while a Date line eight lines after it is
    not found and the text comes back unchanged. *)
Theorem quoted_content_cut :
  (forall x : jsstr,
     stripQuotedContent x = x
     \/ exists cut n,
          cutIndex (split_lines x) = Some cut
          /\ 10 <= length (trim (join [LF] (firstn cut (split_lines x))))
          /\ n = length (join [LF] (skipn cut (split_lines x)))
          /\ 100 <= n
          /\ stripQuotedContent x
             = trim (join [LF] (firstn cut (split_lines x))) ++ notice n)
  /\ (forall (lines : list jsstr) (i : nat),
        cutIndex lines = Some i
        <-> i < length lines /\ cuts_at lines i = true
            /\ forall j, j < i -> cuts_at lines j = false)
  /\ (forall (lines : list jsstr) (i : nat),
        cuts_at lines i = true
        <-> test re_forward_marker (line_at lines i) = true
            \/ test re_begin_forwarded (line_at lines i) = true
            \/ test re_on_wrote (line_at lines i) = true
            \/ test re_am_schrieb (line_at lines i) = true
            \/ test re_le_ecrit (line_at lines i) = true
            \/ (test re_header_from (line_at lines i) = true
                /\ date_follows lines i = true))
  /\ (forall (lines : list jsstr) (i : nat),
        date_follows lines i = true
        <-> exists j, i < j /\ j <= i + 7 /\ j < length lines
                      /\ test re_header_date (line_at lines j) = true)
  /\ cutIndex (split_lines (forwarded 6)) = Some 1
  /\ stripQuotedContent (forwarded 6)
     = str "Hello there, thanks." ++ notice 140
  /\ nth (1 + 8) (split_lines (forwarded 7)) [] = str "Date: Mon, 1 Jan 2024"
  /\ test re_header_from (line_at (split_lines (forwarded 7)) 1) = true
  /\ test re_header_date (line_at (split_lines (forwarded 7)) (1 + 8)) = true
  /\ cutIndex (split_lines (forwarded 7)) = None
  /\ stripQuotedContent (forwarded 7) = forwarded 7.
Proof.
  split; [apply stripQuotedContent_cases|].
  split; [apply cutIndex_spec|].
  split; [apply cuts_at_spec|].
  split.
  { intros lines i. rewrite date_follows_spec.
    split; intros (j & H1 & H2 & H3 & H4); exists j; split_and!; try done; lia. }
  split_and!; vm_compute; reflexivity.
Qed.

Lemma quoted_content_cut_witness :
  cutIndex (split_lines (forwarded 6)) = Some 1
  /\ cuts_at (split_lines (forwarded 6)) 0 = false.
Proof.
  assert (H : cutIndex (split_lines (forwarded 6)) = Some 1) by (vm_compute; reflexivity).
  split; [exact H|].
  apply (proj2 (proj2 (proj1 (proj1 (proj2 quoted_content_cut) _ _) H))). lia.
Defined.




End NormalizerClaims.

Module TermFacts.
Import Chars Regex JS QueryTerms QuerySpec TextSpec RegexFacts MarkupFacts.

#[local] Arguments N.eqb : simpl never.

(** *** Replacing the code units of a class *)

Lemma first_match_cls (p : N -> bool) (pv : option N) (s : jsstr) :
  first_match (Cls p) pv s
  = match s with
    | c :: _ => if p c then Some [c] else None
    | [] => None
    end.
Proof.
  unfold first_match. destruct s as [|c t]; [done|]. simpl.
  destruct (p c); [|done]. simpl. by replace (S (length t) - length t) with 1 by lia.
Qed.

Lemma tokens_cls (p : N -> bool) (s : jsstr) :
  forall pv, tokens_from (Cls p) pv s 0
             = List.map (fun c => if p c then Mat [c] else Txt c) s.
Proof.
  induction s as [|c t IH]; intros pv.
  - by rewrite tokens_from_nil, first_match_cls.
  - rewrite tokens_from_cons, first_match_cls. simpl.
    destruct (p c); simpl; by rewrite IH.
Qed.

Lemma replace_all_cls (p : N -> bool) (f : jsstr -> jsstr) (s : jsstr) :
  replace_all (Cls p) f s = flat_map (fun c => if p c then f [c] else [c]) s.
Proof.
  unfold replace_all, tokens. rewrite tokens_cls.
  induction s as [|c t IH]; [done|]. simpl. rewrite IH. by destruct (p c).
Qed.

(** *** escapeQueryTerm *)

Lemma escapeQueryTerm_spec (term : jsstr) :
  escapeQueryTerm term = flat_map escape_unit term.
Proof.
  unfold escapeQueryTerm, chr. rewrite !replace_all_cls.
  induction term as [|c t IH]; [done|]. simpl. rewrite flat_map_app, IH.
  f_equal. unfold escape_unit, BACKSLASH, DQUOTE.
  destruct (N.eqb_spec 92 c) as [<-|H1].
  - reflexivity.
  - rewrite (proj2 (N.eqb_neq c 92)) by congruence. simpl.
    rewrite (N.eqb_sym c 34). destruct (34 =? c)%N; by rewrite ?app_nil_r.
Qed.

Lemma escape_unit_length (c : N) :
  length (escape_unit c) = if (c =? BACKSLASH)%N || (c =? DQUOTE)%N then 2 else 1.
Proof. unfold escape_unit. by destruct (c =? BACKSLASH)%N, (c =? DQUOTE)%N. Qed.

(** Inside a phrase an escaped term is read back as the term, up to the
    closing quote. *)
Lemma read_escaped (term : jsstr) :
  forall (phrase rest : jsstr),
    read true phrase (flat_map escape_unit term ++ DQUOTE :: rest)
    = (phrase ++ term) :: read false [] rest.
Proof.
  induction term as [|c t IH]; intros phrase rest.
  - simpl. change (DQUOTE =? BACKSLASH)%N with false.
    change (DQUOTE =? DQUOTE)%N with true. by rewrite app_nil_r.
  - change (flat_map escape_unit (c :: t)) with (escape_unit c ++ flat_map escape_unit t).
    rewrite <- app_assoc.
    replace (phrase ++ c :: t) with ((phrase ++ [c]) ++ t) by (by rewrite <- app_assoc).
    unfold escape_unit at 1.
    destruct (c =? BACKSLASH)%N eqn:Hb.
    + apply N.eqb_eq in Hb as ->. simpl.
      change (BACKSLASH =? BACKSLASH)%N with true. cbv iota. apply IH.
    + destruct (c =? DQUOTE)%N eqn:Hq.
      * apply N.eqb_eq in Hq as ->. simpl.
        change (BACKSLASH =? BACKSLASH)%N with true. cbv iota. apply IH.
      * simpl. rewrite Hb, Hq. apply IH.
Qed.

(** Outside a phrase everything up to the next double quote is skipped. *)
Lemma read_plain (pre rest : jsstr) :
  DQUOTE ∉ pre -> read false [] (pre ++ rest) = read false [] rest.
Proof.
  induction pre as [|c t IH]; intros H; [done|]. simpl.
  rewrite (proj2 (N.eqb_neq c DQUOTE)) by set_solver. apply IH. set_solver.
Qed.

(** *** Queries are read back as their terms *)

Lemma reads_as_plain (pre : jsstr) : DQUOTE ∉ pre -> reads_as pre [].
Proof. intros H rest. by apply read_plain. Qed.

Lemma reads_as_app (q1 q2 : jsstr) (l1 l2 : list jsstr) :
  reads_as q1 l1 -> reads_as q2 l2 -> reads_as (q1 ++ q2) (l1 ++ l2).
Proof. intros H1 H2 rest. by rewrite <- !app_assoc, H1, H2. Qed.

Lemma reads_as_nil : reads_as [] [].
Proof. by intros rest. Qed.

Lemma str_plain (s : string) :
  forallb (fun c => negb (c =? DQUOTE)%N) (str s) = true -> DQUOTE ∉ str s.
Proof.
  rewrite forallb_forall. intros H Hin%list_elem_of_In.
  apply H, negb_true_iff, N.eqb_neq in Hin. done.
Qed.

Lemma reads_as_field (field : string) (term : jsstr) :
  DQUOTE ∉ str field ->
  reads_as (field_query field (escapeQueryTerm term)) [term].
Proof.
  intros Hf rest. unfold field_query. rewrite escapeQueryTerm_spec, <- !app_assoc.
  rewrite read_plain by done. simpl.
  change (58 =? DQUOTE)%N with false. cbv iota.
  change (DQUOTE =? DQUOTE)%N with true. cbv iota.
  change ([DQUOTE] ++ rest) with (DQUOTE :: rest).
  by rewrite read_escaped.
Qed.

Lemma reads_as_join (sep : jsstr) (qs : list jsstr) (ls : list (list jsstr)) :
  DQUOTE ∉ sep -> Forall2 reads_as qs ls -> reads_as (join sep qs) (concat ls).
Proof.
  intros Hsep H. induction H as [|q l qs ls Hq Hqs IH]; [apply reads_as_nil|].
  destruct Hqs as [|q' l' qs' ls' Hq' Hqs'].
  - simpl. by rewrite app_nil_r.
  - change (join sep (q :: q' :: qs')) with (q ++ sep ++ join sep (q' :: qs')).
    change (concat (l :: l' :: ls')) with (l ++ [] ++ concat (l' :: ls')).
    apply reads_as_app; [done|]. apply reads_as_app; [by apply reads_as_plain | done].
Qed.

Lemma reads_as_any_of (qs : list jsstr) (ls : list (list jsstr)) :
  Forall2 reads_as qs ls -> reads_as (any_of qs) (concat ls).
Proof.
  intros H. unfold any_of.
  replace (concat ls) with ([] ++ concat ls ++ []) by (by rewrite app_nil_r).
  apply reads_as_app; [by apply reads_as_plain, str_plain|].
  apply reads_as_app; [|by apply reads_as_plain, str_plain].
  apply reads_as_join; [by apply str_plain | done].
Qed.

Lemma reads_as_phrases (q : jsstr) (l : list jsstr) : reads_as q l -> phrases q = l.
Proof.
  intros H. unfold phrases. specialize (H []). by rewrite !app_nil_r in H.
Qed.

(** *** buildSearchQuery *)

Lemma add_term_spec (searchIn : list location) (queries : list jsstr) (term : jsstr) :
  add_term searchIn queries term = queries ++ add_term searchIn [] term.
Proof.
  unfold add_term. cbv zeta.
  destruct (0 <? length _); [done | by rewrite app_nil_r].
Qed.

Lemma fold_add_term (searchIn : list location) (terms : list jsstr) :
  forall queries,
    fold_left (add_term searchIn) terms queries
    = queries ++ flat_map (add_term searchIn []) terms.
Proof.
  induction terms as [|t terms IH]; intros queries; simpl.
  - by rewrite app_nil_r.
  - by rewrite IH, add_term_spec, <- app_assoc.
Qed.

Lemma add_term_reads (searchIn : list location) (term : jsstr) :
  Forall2 reads_as (add_term searchIn [] term)
    (match places searchIn with 0 => [] | n => [repeat term n] end).
Proof.
  unfold add_term, places. cbv zeta.
  destruct (includes searchIn BODY || includes searchIn BOTH),
    (includes searchIn SUBJECT || includes searchIn BOTH); simpl;
    repeat constructor.
  - apply (reads_as_any_of [_; _] [[term]; [term]]).
    repeat constructor; by apply reads_as_field, str_plain.
  - apply (reads_as_any_of [_] [[term]]).
    repeat constructor; by apply reads_as_field, str_plain.
  - apply (reads_as_any_of [_] [[term]]).
    repeat constructor; by apply reads_as_field, str_plain.
Qed.

Lemma buildSearchQuery_reads (terms : list jsstr) (searchIn : list location) :
  reads_as (buildSearchQuery terms searchIn)
    (flat_map (fun term => repeat term (places searchIn)) terms).
Proof.
  unfold buildSearchQuery. rewrite fold_add_term. simpl.
  assert (H : Forall2 reads_as (flat_map (add_term searchIn []) terms)
                (flat_map (fun term => match places searchIn with
                                       | 0 => []
                                       | n => [repeat term n]
                                       end) terms)).
  { induction terms as [|t terms IH]; [constructor|]. simpl.
    apply Forall2_app; [apply add_term_reads | done]. }
  apply (reads_as_join (str " OR ")) in H; [|by apply str_plain].
  replace (flat_map (fun term => repeat term (places searchIn)) terms)
    with (concat (flat_map (fun term => match places searchIn with
                                        | 0 => []
                                        | n => [repeat term n]
                                        end) terms)); [done|].
  clear. induction terms as [|t terms IH]; [done|]. cbn [flat_map].
  rewrite concat_app, IH. f_equal. destruct (places searchIn); [done|].
  cbn [concat]. by rewrite app_nil_r.
Qed.

Lemma places_zero (searchIn : list location) : places searchIn = 0 <-> searchIn = [].
Proof.
  unfold places, includes. split.
  - destruct searchIn as [|[] l]; [done|..]; intros H; exfalso; revert H.
    + rewrite (bool_decide_eq_true_2 (BODY ∈ BODY :: l)) by set_solver. simpl. lia.
    + rewrite (bool_decide_eq_true_2 (SUBJECT ∈ SUBJECT :: l)) by set_solver.
      simpl. destruct (_ || _); simpl; lia.
    + rewrite (bool_decide_eq_true_2 (BOTH ∈ BOTH :: l)) by set_solver.
      rewrite orb_true_r. simpl. lia.
  - intros ->. reflexivity.
Qed.

(** *** The query of advancedConversationSearch *)

Lemma terms_part_reads (field : string) (xs : option (list jsstr)) :
  DQUOTE ∉ str field ->
  Forall2 reads_as (terms_part field xs)
    (match terms_of xs with [] => [] | l => [l] end).
Proof.
  intros Hf. destruct xs as [[|x l]|]; [constructor| |constructor].
  cbn [terms_part terms_of default]. constructor; [|constructor].
  generalize (x :: l). intros ts.
  assert (Hc : concat (List.map (fun t => [t]) ts) = ts).
  { induction ts as [|t ts IH]; [done|]. simpl. by rewrite IH. }
  rewrite <- Hc at 2. apply reads_as_any_of. clear Hc.
  induction ts as [|t ts IH]; constructor; [|done].
  by apply reads_as_field.
Qed.

Lemma text_part_reads (x : option jsstr) (f : jsstr -> jsstr) :
  Forall2 reads_as
    (if ofalsy x then [] else [field_query "email" (escapeQueryTerm (f (default [] x)))])
    (List.map (fun t => [f t]) (text_of x)).
Proof.
  destruct x as [[|c t]|]; simpl; repeat constructor.
  by apply reads_as_field, str_plain.
Qed.

Lemma concat_one (l : list jsstr) :
  concat (match l with [] => [] | a :: b => [a :: b] end) = l.
Proof. destruct l; [done|]. simpl. by rewrite app_nil_r. Qed.

Lemma queryParts_reads (c : criteria) :
  reads_as (join (str " AND ") (queryParts c))
    (terms_of (contentTerms c) ++ terms_of (subjectTerms c)
     ++ text_of (customerEmail c)
     ++ List.map (remove_first 64) (text_of (emailDomain c))
     ++ terms_of (tags c)).
Proof.
  pose proof (terms_part_reads "body" (contentTerms c)) as H1.
  pose proof (terms_part_reads "subject" (subjectTerms c)) as H2.
  pose proof (text_part_reads (customerEmail c) (fun t => t)) as H3.
  pose proof (text_part_reads (emailDomain c) (remove_first 64)) as H4.
  pose proof (terms_part_reads "tag" (tags c)) as H5.
  specialize (H1 ltac:(by apply str_plain)). specialize (H2 ltac:(by apply str_plain)).
  specialize (H5 ltac:(by apply str_plain)).
  pose proof (Forall2_app H1 (Forall2_app H2 (Forall2_app H3 (Forall2_app H4 H5))))
    as H.
  apply (reads_as_join (str " AND ")) in H; [|by apply str_plain].
  unfold queryParts. rewrite !concat_app, !concat_one in H.
  replace (concat (List.map (fun t => [t]) (text_of (customerEmail c))))
    with (text_of (customerEmail c)) in H
    by (by destruct (customerEmail c) as [[|? ?]|]).
  replace (concat (List.map (fun t => [remove_first 64 t]) (text_of (emailDomain c))))
    with (List.map (remove_first 64) (text_of (emailDomain c))) in H
    by (by destruct (emailDomain c) as [[|? ?]|]).
  exact H.
Qed.

Lemma queryParts_nil (c : criteria) :
  queryParts c = []
  <-> terms_of (contentTerms c) = [] /\ terms_of (subjectTerms c) = []
      /\ text_of (customerEmail c) = [] /\ text_of (emailDomain c) = []
      /\ terms_of (tags c) = [].
Proof.
  unfold queryParts.
  destruct (contentTerms c) as [[|? ?]|], (subjectTerms c) as [[|? ?]|],
    (customerEmail c) as [[|? ?]|], (emailDomain c) as [[|? ?]|],
    (tags c) as [[|? ?]|]; simpl; split; try done; intros H; by destruct_and?.
Qed.

Lemma remove_first_absent (x : N) (s : jsstr) : x ∉ s -> remove_first x s = s.
Proof.
  induction s as [|c t IH]; [done|]. intros H. simpl.
  rewrite (proj2 (N.eqb_neq c x)) by set_solver. rewrite IH; [done | set_solver].
Qed.

Lemma remove_first_found (x : N) (a b : jsstr) :
  x ∉ a -> remove_first x (a ++ x :: b) = a ++ b.
Proof.
  induction a as [|c t IH]; intros H; simpl.
  - by rewrite N.eqb_refl.
  - rewrite (proj2 (N.eqb_neq c x)) by set_solver. rewrite IH; [done | set_solver].
Qed.

(** *** What a match is made of *)

Lemma rep_iter_made_of (q : N -> bool) (step : st -> list st) :
  (forall s x, x ∈ step s -> exists m, snd s = m ++ snd x /\ forallb q m = true) ->
  forall (g : bool) (fuel lo : nat) (hi : option nat) (s x : st),
    x ∈ rep_iter step g fuel lo hi s ->
    exists m, snd s = m ++ snd x /\ forallb q m = true.
Proof.
  intros Hstep g fuel. induction fuel as [|f IH]; intros lo hi s x Hx.
  - simpl in Hx. destruct (hi_is_zero hi).
    + apply list_elem_of_singleton in Hx as ->. by exists [].
    + destruct lo; [|by apply elem_of_nil in Hx].
      apply list_elem_of_singleton in Hx as ->. by exists [].
  - simpl in Hx. destruct (hi_is_zero hi).
    { apply list_elem_of_singleton in Hx as ->. by exists []. }
    assert (Hstop : x ∈ match lo with 0 => [s] | S _ => [] end ->
                    exists m, snd s = m ++ snd x /\ forallb q m = true).
    { destruct lo; [|by intros ?%elem_of_nil].
      intros ->%list_elem_of_singleton. by exists []. }
    assert (Hmore : x ∈ flat_map
                          (fun s' => if match lo with
                                        | 0 => negb (progress s s')
                                        | S _ => false
                                        end
                                     then []
                                     else rep_iter step g f (pred lo) (dec_hi hi) s')
                          (step s) ->
                    exists m, snd s = m ++ snd x /\ forallb q m = true).
    { intros (s' & Hs' & Hin)%list_elem_of_In%in_flat_map.
      apply list_elem_of_In in Hs'. destruct (Hstep s s' Hs') as (m1 & E1 & Q1).
      destruct (match lo with 0 => negb (progress s s') | S _ => false end);
        [done|].
      apply list_elem_of_In, IH in Hin as (m2 & E2 & Q2).
      exists (m1 ++ m2). rewrite E1, E2, <- app_assoc. split; [done|].
      by rewrite forallb_app, Q1, Q2. }
    destruct g; apply elem_of_app in Hx as [H|H]; auto.
Qed.

(** A match of a pattern whose classes lie within [q] consumes code
    units of [q] only. *)
Lemma run_made_of (q : N -> bool) (r : re) :
  made_of q r ->
  forall (s x : st), x ∈ run r s ->
    exists m, snd s = m ++ snd x /\ forallb q m = true.
Proof.
  induction r as [|p|r1 IH1 r2 IH2|r1 IH1 r2 IH2|g lo hi r1 IH1| | |];
    intros Hq s x Hx; simpl in Hq, Hx.
  - apply list_elem_of_singleton in Hx as ->. by exists [].
  - destruct s as [pv [|c t]]; simpl in Hx; [by apply elem_of_nil in Hx|].
    destruct (p c) eqn:Hp; [|by apply elem_of_nil in Hx].
    apply list_elem_of_singleton in Hx as ->. exists [c]. simpl.
    by rewrite (Hq c Hp).
  - destruct Hq as [Hq1 Hq2].
    apply list_elem_of_In, in_flat_map in Hx as (s' & Hs' & Hin).
    apply list_elem_of_In in Hs', Hin.
    destruct (IH1 Hq1 s s' Hs') as (m1 & E1 & Q1).
    destruct (IH2 Hq2 s' x Hin) as (m2 & E2 & Q2).
    exists (m1 ++ m2). rewrite E1, E2, <- app_assoc. split; [done|].
    by rewrite forallb_app, Q1, Q2.
  - destruct Hq as [Hq1 Hq2]. apply elem_of_app in Hx as [H|H]; eauto.
  - eapply rep_iter_made_of; [|exact Hx]. intros s0 x0. by apply IH1.
  - destruct (fst s); [by apply elem_of_nil in Hx|].
    apply list_elem_of_singleton in Hx as ->. by exists [].
  - destruct s as [pv [|c t]]; simpl in Hx; [|by apply elem_of_nil in Hx].
    apply list_elem_of_singleton in Hx as ->. by exists [].
  - destruct (xorb _ _); [|by apply elem_of_nil in Hx].
    apply list_elem_of_singleton in Hx as ->. by exists [].
Qed.

Lemma run_to_the_end (r : re) :
  to_the_end r -> forall (s x : st), x ∈ run r s -> snd x = [].
Proof.
  induction r as [|p|r1 _ r2 IH2|r1 _ r2 _|g lo hi r1 _| | |];
    intros He s x Hx; simpl in He; try done.
  - simpl in Hx. apply list_elem_of_In, in_flat_map in Hx as (s' & _ & Hin).
    apply list_elem_of_In in Hin. by apply (IH2 He s').
  - simpl in Hx. destruct (snd s) eqn:E; [|by apply elem_of_nil in Hx].
    by apply list_elem_of_singleton in Hx as ->.
Qed.

(** A text that a pattern anchored at both ends accepts is made of the
    code units of its classes. *)
Lemma test_made_of (q : N -> bool) (r : re) (s : jsstr) :
  made_of q r -> to_the_end r -> test (Seq Bol r) s = true -> forallb q s = true.
Proof.
  intros Hq He. rewrite test_bol.
  destruct (run r (None, s)) as [|x l] eqn:E; [done|]. intros _.
  assert (Hx : x ∈ run r (None, s)) by (rewrite E; apply list_elem_of_here).
  destruct (run_made_of q r Hq _ _ Hx) as (m & Em & Qm).
  rewrite (run_to_the_end r He _ _ Hx), app_nil_r in Em. simpl in Em. by subst m.
Qed.

Lemma isoDatePattern_units (d : jsstr) :
  test Query.isoDatePattern d = true -> forallb date_unit d = true.
Proof.
  apply test_made_of; [|done].
  assert (Hd : forall c, is_digit c = true -> date_unit c = true).
  { intros c H. unfold date_unit. by rewrite H. }
  simpl. split_and!; try done; intros c Hc; unfold date_unit.
  - apply N.eqb_eq in Hc as <-. done.
  - apply N.eqb_eq in Hc as <-. done.
  - apply N.eqb_eq in Hc as <-. done.
  - apply orb_true_iff in Hc as [Hc|Hc]; [|by rewrite Hc, !orb_true_r].
    apply orb_true_iff in Hc as [Hc|Hc]; [by rewrite Hc|by rewrite Hc, !orb_true_r].
  - apply N.eqb_eq in Hc as <-. done.
Qed.

End TermFacts.

Module QueryExtras.
Import Chars Regex JS Effects Query QueryTerms QuerySpec TextSpec RegexFacts QueryFacts
  MarkupFacts TermFacts.

#[local] Arguments N.eqb : simpl never.

Lemma flat_map_escape_inj (a b : jsstr) :
  flat_map escape_unit a = flat_map escape_unit b -> a = b.
Proof.
  intros H.
  assert (Ha : read true [] (flat_map escape_unit a ++ DQUOTE :: [])
               = a :: read false [] []) by apply (read_escaped a [] []).
  assert (Hb : read true [] (flat_map escape_unit b ++ DQUOTE :: [])
               = b :: read false [] []) by apply (read_escaped b [] []).
  rewrite H, Hb in Ha. by injection Ha.
Qed.

(** X1.  [escapeQueryTerm] puts a backslash before every backslash and
    every double quote of the term and changes nothing else.  Read with
    the backslash as escape character, the escaped term between double
    quotes is one phrase, the term itself; so two terms with the same
    escaped text are the same term. *)
Theorem escapeQueryTerm_reads_back (term other : jsstr) :
  escapeQueryTerm term = flat_map escape_unit term
  /\ phrases (DQUOTE :: escapeQueryTerm term ++ [DQUOTE]) = [term]
  /\ (escapeQueryTerm other = escapeQueryTerm term -> other = term).
Proof.
  split; [apply escapeQueryTerm_spec|]. split.
  - unfold phrases. rewrite escapeQueryTerm_spec. simpl.
    change (DQUOTE =? DQUOTE)%N with true. cbv iota.
    change ([DQUOTE]) with (DQUOTE :: []). by rewrite read_escaped.
  - rewrite !escapeQueryTerm_spec. apply flat_map_escape_inj.
Qed.

Lemma escapeQueryTerm_reads_back_witness :
  escapeQueryTerm [97; 34; 92; 98]%N = [97; 92; 34; 92; 92; 98]%N
  /\ [97; 34; 92; 98]%N = [97; 34; 92; 98]%N.
Proof.
  split; [vm_compute; reflexivity|].
  apply (proj2 (proj2 (escapeQueryTerm_reads_back [97; 34; 92; 98]%N [97; 34; 92; 98]%N))).
  reflexivity.
Defined.

(** X2.  The query of [buildSearchQuery], read with the backslash as
    escape character, has as its quoted phrases exactly the search terms,
    in order, each once for the body and once for the subject as
    [searchIn] asks: whatever a term contains, it does not end its phrase
    or start another.  With an empty [searchIn], or without terms, the
    query is the empty string. *)
Theorem buildSearchQuery_phrases (terms : list jsstr) (searchIn : list location) :
  phrases (buildSearchQuery terms searchIn)
  = flat_map (fun term => repeat term (places searchIn)) terms
  /\ (places searchIn = 0 <-> searchIn = [])
  /\ places searchIn <= 2
  /\ buildSearchQuery terms [] = []
  /\ buildSearchQuery [] searchIn = [].
Proof.
  split; [apply reads_as_phrases, buildSearchQuery_reads|].
  split; [apply places_zero|]. split.
  { unfold places. destruct (_ || _), (_ || _); simpl; lia. }
  split; [|reflexivity].
  unfold buildSearchQuery. rewrite fold_add_term.
  induction terms as [|t terms IH]; [done|]. exact IH.
Qed.

(** X4.  The query string of [advancedConversationSearch], read with the
    backslash as escape character, has as its quoted phrases the content
    terms, the subject terms, the customer email, the email domain
    without its first at sign, and the tags, in this order; there is no
    query string exactly when none of them is given. *)
Theorem advanced_query_phrases (c : criteria) :
  phrases (default [] (queryString c))
  = terms_of (contentTerms c) ++ terms_of (subjectTerms c)
    ++ text_of (customerEmail c)
    ++ List.map (remove_first 64) (text_of (emailDomain c))
    ++ terms_of (tags c)
  /\ (queryString c = None
      <-> terms_of (contentTerms c) = [] /\ terms_of (subjectTerms c) = []
          /\ text_of (customerEmail c) = [] /\ text_of (emailDomain c) = []
          /\ terms_of (tags c) = []).
Proof.
  unfold queryString. split.
  - destruct (queryParts c) as [|p ps] eqn:E.
    + apply queryParts_nil in E as (-> & -> & -> & -> & ->). reflexivity.
    + change (default [] _) with (join (str " AND ") (p :: ps)).
      rewrite <- E. apply reads_as_phrases, queryParts_reads.
  - rewrite <- queryParts_nil. destruct (queryParts c); simpl; split; done.
Qed.

(** *** The created-at clause *)

Lemma strip_millis_units (t : jsstr) :
  forallb date_unit t = true -> forallb date_unit (strip_millis t) = true.
Proof.
  induction t as [|c t IH]; [done|]. intros H.
  unfold strip_millis; fold strip_millis.
  destruct (is_millis (c :: t)); [done|].
  simpl in H |- *. apply andb_true_iff in H as [-> H]. by apply IH.
Qed.

Lemma date_units_plain (t : jsstr) : forallb date_unit t = true -> DQUOTE ∉ t.
Proof.
  rewrite forallb_forall. intros H Hin%list_elem_of_In. by apply H in Hin.
Qed.

Lemma bound_plain (d : option jsstr) : bad_date d = false -> DQUOTE ∉ bound d.
Proof.
  intros Hbad. rewrite bound_spec. destruct d as [[|c t]|]; try by apply str_plain.
  unfold bad_date in Hbad. simpl in Hbad. apply negb_false_iff in Hbad.
  by apply date_units_plain, strip_millis_units, isoDatePattern_units.
Qed.

Lemma clause_plain (a b : option jsstr) :
  bad_date a = false -> bad_date b = false -> DQUOTE ∉ clause a b.
Proof.
  intros Ha Hb. unfold clause. rewrite !not_elem_of_app. split_and!.
  - by apply str_plain.
  - by apply bound_plain.
  - by apply str_plain.
  - by apply bound_plain.
  - by apply str_plain.
Qed.

Lemma reads_as_empty (l : list jsstr) : reads_as [] l -> l = [].
Proof. intros H. specialize (H []). simpl in H. by rewrite app_nil_r in H. Qed.

(** Appending the created-at clause leaves the phrases of the query as
    they are. *)
Lemma appendCreatedAtFilter_reads (existingQuery a b q : option jsstr)
    (l : list jsstr) :
  appendCreatedAtFilter existingQuery a b = inr q ->
  reads_as (default [] existingQuery) l -> reads_as (default [] q) l.
Proof.
  unfold appendCreatedAtFilter.
  destruct (ofalsy a && ofalsy b); [by intros [= <-]|].
  destruct (bad_date a) eqn:Ha; [done|]. destruct (bad_date b) eqn:Hb; [done|].
  cbv zeta. pose proof (clause_plain a b Ha Hb) as Hc.
  destruct existingQuery as [[|c t]|]; simpl ofalsy; cbv iota; intros [= <-] Hl.
  - apply reads_as_empty in Hl as ->. by apply reads_as_plain.
  - change (reads_as (c :: t) l) in Hl.
    change (reads_as (str "(" ++ (c :: t) ++ str ") AND " ++ clause a b) l).
    replace l with ([] ++ l ++ [] ++ []) by (by rewrite !app_nil_r).
    apply reads_as_app; [by apply reads_as_plain, str_plain|].
    apply reads_as_app; [done|].
    apply reads_as_app; [by apply reads_as_plain, str_plain | by apply reads_as_plain].
  - apply reads_as_empty in Hl as ->. by apply reads_as_plain.
Qed.



End QueryExtras.

Module ToolFacts.
Import Chars Regex JS Effects Query Search SearchSpec QueryTerms QuerySpec Tools ToolSpec
  TextSpec EffectFacts FetchFacts SearchConversationsFacts BranchFacts RegexFacts
  QueryFacts TermFacts QueryExtras.

Lemma filter_length {A : Type} (p : A -> bool) (l : list A) :
  length (List.filter p l) <= length l.
Proof. induction l as [|x l IH]; simpl; [lia|]. destruct (p x); simpl; lia. Qed.

Lemma filter_all {A : Type} (p : A -> bool) (l : list A) :
  length (List.filter p l) = length l <-> List.filter p l = l.
Proof.
  split; [|by intros ->]. induction l as [|x l IH]; [done|]. simpl.
  pose proof (filter_length p l) as Hle. destruct (p x); simpl; intros H; [|lia].
  f_equal. apply IH. lia.
Qed.

Lemma filter_idem {A : Type} (p : A -> bool) (l : list A) :
  List.filter p (List.filter p l) = List.filter p l.
Proof.
  induction l as [|x l IH]; [done|]. simpl. destruct (p x) eqn:E; [|done].
  simpl. by rewrite E, IH.
Qed.

Lemma filter_sublist {A : Type} (p : A -> bool) (l : list A) :
  sublist (List.filter p l) l.
Proof.
  induction l as [|x l IH]; [done|]. simpl.
  destruct (p x); [by apply sublist_skip | by apply sublist_cons].
Qed.

(** [applyCreatedBeforeFilter] with a date. *)
Lemma applyCreatedBeforeFilter_date (convs : list Conversation) (text : jsstr) (t : Z) :
  applyCreatedBeforeFilter convs (text, Some t)
  = (filter_log (length convs) (length (List.filter (before t) convs)),
     inr {| filtered := List.filter (before t) convs;
            wasFiltered := 0 <? length convs - length (List.filter (before t) convs);
            removedCount := length convs - length (List.filter (before t) convs) |}).
Proof.
  unfold applyCreatedBeforeFilter, filter_log, before. simpl snd. cbv beta iota zeta.
  destruct (0 <? length convs
                 - length (List.filter (fun c => (createdAt c <? t)%Z) convs));
    reflexivity.
Qed.

(** The filter as the searches call it. *)
Lemma filter_if_asked_spec (cb : option (jsstr * option Z)) (convs : list Conversation) :
  filter_if_asked cb convs
  = match invalid_before cb with
    | Some e => ([], inl e)
    | None =>
        (filter_log (length convs) (length (kept_by cb convs)),
         inr (kept_by cb convs, 0 <? length convs - length (kept_by cb convs)))
    end.
Proof.
  unfold filter_if_asked, invalid_before, kept_by, filter_log.
  destruct cb as [[[|c text] [t|]]|]; simpl falsy; cbv iota;
    rewrite ?Nat.sub_diag; try reflexivity.
  rewrite applyCreatedBeforeFilter_date. unfold filter_log.
  by destruct (0 <? _).
Qed.

Lemma bind_lift_inr {A B : Type} (a : A) (f : A -> M B) : lift (inr a) ≫= f = f a.
Proof. unfold lift, mbind, M_bind. simpl. by destruct (f a). Qed.

Lemma bind_lift_inl {A B : Type} (e : thrown) (f : A -> M B) :
  lift (inl e) ≫= f = ([], inl e).
Proof. reflexivity. Qed.

End ToolFacts.

Module ToolExtras.
Import Chars Regex JS Effects Query Search SearchSpec Scenario QueryTerms QuerySpec Tools
  ToolSpec ToolScenario TextSpec EffectFacts FetchFacts SearchConversationsFacts
  BranchFacts RegexFacts QueryFacts TermFacts QueryExtras ToolFacts.

(** X5.  [applyCreatedBeforeFilter] throws, and logs nothing, when the
    bound is no date.  With a date it keeps, in their order, exactly the
    conversations created strictly before it (one created at the bound
    is removed); the count of removed and kept conversations is the
    count it was given; [wasFiltered] says whether a conversation was
    removed, and one warning is logged exactly then; filtering what was
    kept removes nothing more. *)
Theorem created_before_filter (convs : list Conversation) (text : jsstr) :
  applyCreatedBeforeFilter convs (text, None)
  = ([], inl (OtherError (str "Invalid createdBefore date format: " ++ text
               ++ str ". Expected ISO 8601 format (e.g., 2023-01-15T00:00:00Z)")))
  /\ forall t : Z,
       exists r,
         outcome (applyCreatedBeforeFilter convs (text, Some t)) = inr r
         /\ filtered r = List.filter (before t) convs
         /\ sublist (filtered r) convs
         /\ (forall c, c ∈ filtered r <-> c ∈ convs /\ (createdAt c < t)%Z)
         /\ removedCount r + length (filtered r) = length convs
         /\ (wasFiltered r = true <-> exists c, c ∈ convs /\ (t <= createdAt c)%Z)
         /\ (wasFiltered r = false <-> filtered r = convs)
         /\ logged (applyCreatedBeforeFilter convs (text, Some t))
            = (if wasFiltered r
               then [LogFiltered (length convs) (length (filtered r)) (removedCount r)]
               else [])
         /\ applyCreatedBeforeFilter (filtered r) (text, Some t)
            = ([], inr {| filtered := filtered r; wasFiltered := false;
                          removedCount := 0 |}).
Proof.
  split; [reflexivity|]. intros t. eexists.
  rewrite !applyCreatedBeforeFilter_date. split; [reflexivity|]. simpl.
  pose proof (filter_length (before t) convs) as Hle.
  assert (Hin : forall c, c ∈ List.filter (before t) convs
                          <-> c ∈ convs /\ (createdAt c < t)%Z).
  { intros c. rewrite !list_elem_of_In, filter_In. unfold before.
    by rewrite Z.ltb_lt. }
  split_and!.
  - done.
  - apply filter_sublist.
  - exact Hin.
  - lia.
  - rewrite Nat.ltb_lt. split.
    + intros Hlt.
      destruct (decide (Forall (fun c => before t c = true) convs)) as [Hall|Hex].
      * assert (List.filter (before t) convs = convs) as E; [|rewrite E in Hlt; lia].
        clear -Hall. induction Hall as [|x l Hx _ IH]; [done|]. simpl.
        by rewrite Hx, IH.
      * apply not_Forall_Exists in Hex; [|solve_decision].
        apply Exists_exists in Hex as (c & Hc & Hb). exists c. split; [done|].
        unfold before in Hb. apply not_true_iff_false, Z.ltb_ge in Hb. done.
    + intros (c & Hc & Hb).
      assert (List.filter (before t) convs <> convs) as Hne.
      { intros E. rewrite <- E in Hc. apply Hin in Hc. lia. }
      destruct (decide (length (List.filter (before t) convs) = length convs))
        as [E|E]; [|lia].
      by apply filter_all in E.
  - rewrite Nat.ltb_ge, <- filter_all. lia.
  - unfold filter_log. by destruct (0 <? _).
  - rewrite filter_idem. unfold filter_log. by rewrite Nat.sub_diag.
Qed.

(** *** advancedConversationSearch and structuredConversationFilter *)

Lemma advancedConversationSearch_eq (cfg : option jsstr) (api : client)
    (i : advanced_input) :
  advancedConversationSearch cfg api i
  = match advanced_params cfg i with
    | inl e => ([], inl e)
    | inr p =>
        match api p with
        | inl e => ([], inl e)
        | inr resp =>
            let fetched := conversations_of (body_of resp) in
            let results := kept_by (a_createdBefore i) fetched in
            match invalid_before (a_createdBefore i) with
            | Some e => ([], inl e)
            | None =>
                (filter_log (length fetched) (length results),
                 inr {| ar_results := results;
                        ar_searchQuery := queryString (a_criteria i);
                        ar_inboxScope :=
                          formatInboxScope (or_text (a_inboxId i) cfg) (a_inboxId i);
                        ar_searchCriteria := a_criteria i;
                        ar_pagination :=
                          accounted (length fetched) (length results)
                            (page_of (body_of resp));
                        ar_nextCursor := next_href resp;
                        ar_clientSideFiltering :=
                          removed_note (length fetched) (length results);
                        ar_note :=
                          if ofalsy (or_text (a_inboxId i) cfg)
                          then Some (str "Searching ALL inboxes. Set HELPSCOUT_DEFAULT_INBOX_ID for better LLM context.")
                          else None |})
            end
        end
    end.
Proof.
  unfold advancedConversationSearch. cbv zeta.
  destruct (advanced_params cfg i) as [e|p]; [reflexivity|].
  rewrite bind_lift_inr.
  destruct (api p) as [e|resp]; [reflexivity|].
  rewrite bind_lift_inr.
  rewrite filter_if_asked_spec.
  destruct (invalid_before (a_createdBefore i)); [reflexivity|].
  unfold accounted, removed_note, buildFilteredPagination.
  destruct (0 <? _); simpl; by rewrite ?app_nil_r.
Qed.

Lemma structuredConversationFilter_eq (cfg : option jsstr) (api : client)
    (i : structured_input) :
  structuredConversationFilter cfg api i
  = match structured_params cfg i with
    | inl e => ([], inl e)
    | inr p =>
        match api p with
        | inl e => ([], inl e)
        | inr resp =>
            let fetched := conversations_of (body_of resp) in
            let results := kept_by (s_createdBefore i) fetched in
            match invalid_before (s_createdBefore i) with
            | Some e => ([], inl e)
            | None =>
                (filter_log (length fetched) (length results),
                 inr {| st_results := results;
                        filterApplied :=
                          {| fa_assignedTo := assignedTo i;
                             fa_folderId := folderId i;
                             fa_customerIds := customerIds i;
                             fa_conversationNumber := conversationNumber i;
                             uniqueSorting := if is_unique_sorting (sortBy i)
                                              then Some (sort_by_name (sortBy i))
                                              else None |};
                        st_inboxScope :=
                          formatInboxScope (or_text (s_inboxId i) cfg) (s_inboxId i);
                        st_pagination :=
                          accounted (length fetched) (length results)
                            (page_of (body_of resp));
                        st_nextCursor := next_href resp;
                        st_clientSideFiltering :=
                          removed_note (length fetched) (length results) |})
            end
        end
    end.
Proof.
  unfold structuredConversationFilter. cbv zeta.
  destruct (structured_params cfg i) as [e|p]; [reflexivity|].
  rewrite bind_lift_inr.
  destruct (api p) as [e|resp]; [reflexivity|].
  rewrite bind_lift_inr.
  rewrite filter_if_asked_spec.
  destruct (invalid_before (s_createdBefore i)); [reflexivity|].
  unfold accounted, removed_note, buildFilteredPagination.
  destruct (0 <? _); simpl; by rewrite ?app_nil_r.
Qed.

Lemma when_truthy_default (x : option jsstr) : default [] (when_truthy x) = default [] x.
Proof. by destruct x as [[|c t]|]. Qed.

Lemma advanced_params_bad (cfg : option jsstr) (i : advanced_input) :
  bad_date (a_createdAfter i) = true ->
  advanced_params cfg i
  = inl (invalid_date "createdAfter" (default [] (a_createdAfter i))).
Proof.
  intros Hbad. unfold advanced_params, appendCreatedAtFilter. cbv zeta.
  assert (Hf : ofalsy (a_createdAfter i) = false).
  { unfold bad_date in Hbad. by destruct (ofalsy (a_createdAfter i)). }
  by rewrite Hf, Hbad.
Qed.

Lemma appendCreatedAtFilter_ok (q a : option jsstr) :
  bad_date a = false ->
  exists q', appendCreatedAtFilter q a None = inr q'
             /\ (ofalsy q' = true <-> ofalsy q = true /\ ofalsy a = true).
Proof.
  intros Hbad. unfold appendCreatedAtFilter. simpl (ofalsy None). rewrite andb_true_r.
  destruct (ofalsy a) eqn:Ha.
  - exists q. split; [done|]. tauto.
  - rewrite Hbad. change (bad_date None) with false. cbv iota zeta.
    destruct (ofalsy q); eexists; (split; [reflexivity|]); simpl; split; try done;
      by intros [_ ?].
Qed.

(** X6.  [advancedConversationSearch] with a creation date that does not
    have the form of a date throws before it asks the API anything and
    logs nothing.  Otherwise it sends one request, whose page size is the
    limit (50 for none), and whose query, read with the backslash as
    escape character, has as its quoted phrases exactly the criteria
    given, the date clause adding none; the request has no query exactly
    when no criterion and no creation date is given. *)
Theorem advanced_search_request (cfg : option jsstr) (i : advanced_input) :
  (bad_date (a_createdAfter i) = true ->
   forall api : client,
     advancedConversationSearch cfg api i
     = ([], inl (invalid_date "createdAfter" (default [] (a_createdAfter i)))))
  /\ (bad_date (a_createdAfter i) = false ->
      exists p,
        advanced_params cfg i = inr p
        /\ phrases (default [] (p_query p))
           = terms_of (contentTerms (a_criteria i))
             ++ terms_of (subjectTerms (a_criteria i))
             ++ text_of (customerEmail (a_criteria i))
             ++ List.map (remove_first 64) (text_of (emailDomain (a_criteria i)))
             ++ terms_of (tags (a_criteria i))
        /\ (ofalsy (p_query p) = true
            <-> queryString (a_criteria i) = None
                /\ ofalsy (a_createdAfter i) = true)
        /\ 1 <= p_size p
        /\ (a_limit i <> 0 -> p_size p = a_limit i)
        /\ (forall (api : client) (e : thrown),
              api p = inl e -> advancedConversationSearch cfg api i = ([], inl e))).
Proof.
  split.
  - intros Hbad api. rewrite advancedConversationSearch_eq.
    by rewrite advanced_params_bad.
  - intros Hbad.
    destruct (appendCreatedAtFilter_ok (when_truthy (queryString (a_criteria i)))
                (a_createdAfter i) Hbad) as (q' & Hq' & Hfalsy).
    eexists. split.
    { unfold advanced_params. cbv zeta. rewrite Hq'. reflexivity. }
    cbn [p_query p_size].
    assert (Hparts : reads_as (default [] (queryString (a_criteria i)))
                       (terms_of (contentTerms (a_criteria i))
                        ++ terms_of (subjectTerms (a_criteria i))
                        ++ text_of (customerEmail (a_criteria i))
                        ++ List.map (remove_first 64)
                             (text_of (emailDomain (a_criteria i)))
                        ++ terms_of (tags (a_criteria i)))).
    { unfold queryString. destruct (queryParts (a_criteria i)) as [|x l] eqn:E.
      - apply queryParts_nil in E as (-> & -> & -> & -> & ->). apply reads_as_nil.
      - change (default [] _) with (join (str " AND ") (x :: l)). rewrite <- E.
        apply queryParts_reads. }
    assert (Hnone : ofalsy (when_truthy (queryString (a_criteria i))) = true
                    <-> queryString (a_criteria i) = None).
    { unfold queryString.
      destruct (queryParts (a_criteria i)) as [|x l] eqn:E; [done|].
      change (0 <? length (x :: l)) with true. cbv iota.
      assert (Hne : join (str " AND ") (x :: l) <> []).
      { intros Hj. pose proof (queryParts_reads (a_criteria i)) as Hr.
        rewrite E, Hj in Hr. apply reads_as_empty in Hr.
        assert (Hx : x <> []).
        { unfold queryParts in E.
          destruct (contentTerms (a_criteria i)) as [[|? ?]|],
            (subjectTerms (a_criteria i)) as [[|? ?]|],
            (customerEmail (a_criteria i)) as [[|? ?]|],
            (emailDomain (a_criteria i)) as [[|? ?]|],
            (tags (a_criteria i)) as [[|? ?]|]; simpl in E; simplify_eq; done. }
        destruct l as [|y l]; [done|].
        change (join (str " AND ") (x :: y :: l))
          with (x ++ str " AND " ++ join (str " AND ") (y :: l)) in Hj.
        by destruct x. }
      destruct (join (str " AND ") (x :: l)); [done|]. simpl. done. }
    split_and!.
    + apply reads_as_phrases.
      destruct (ofalsy q') eqn:Hq.
      * by rewrite when_truthy_default.
      * eapply appendCreatedAtFilter_reads; [exact Hq'|].
        by rewrite when_truthy_default.
    + destruct (ofalsy q') eqn:Hq.
      * destruct (proj1 Hfalsy eq_refl) as [H1 H2]. split; [|done].
        intros _. split; [by apply Hnone | done].
      * split; [intros Hq2; congruence|]. intros [H1 H2]. apply Hnone in H1.
        by destruct (proj2 Hfalsy (conj H1 H2)).
    + destruct (a_limit i =? 0) eqn:E; [lia|]. apply Nat.eqb_neq in E. lia.
    + intros Hl. by apply Nat.eqb_neq in Hl as ->.
    + intros api e He. rewrite advancedConversationSearch_eq.
      unfold advanced_params. cbv zeta. rewrite Hq'. by rewrite He.
Qed.

Lemma advanced_search_request_witness :
  bad_date (a_createdAfter (advanced (Some (str "last week")) None)) = true
  /\ advancedConversationSearch None three_of_seven (advanced (Some (str "last week")) None)
     = ([], inl (invalid_date "createdAfter" (str "last week"))).
Proof.
  split; [vm_compute; reflexivity|].
  apply (proj1 (advanced_search_request None (advanced (Some (str "last week")) None))).
  vm_compute. reflexivity.
Defined.

Lemma structured_params_ok (cfg : option jsstr) (i : structured_input) :
  bad_date (s_createdAfter i) = false -> exists p, structured_params cfg i = inr p.
Proof.
  intros Hbad.
  destruct (appendCreatedAtFilter_ok (customerIds i ≫= customer_query)
              (s_createdAfter i) Hbad) as (q' & Hq' & _).
  eexists. unfold structured_params. cbv zeta. rewrite Hq'. reflexivity.
Qed.

Lemma accounted_cases (fetched kept : nat) (p : option page) :
  kept <= fetched ->
  (kept = fetched /\ accounted fetched kept p = ApiPage p
   /\ removed_note fetched kept = None /\ filter_log fetched kept = [])
  \/ (kept < fetched
      /\ (exists c n, accounted fetched kept p = Counts c
            /\ totalResults c = kept
            /\ c_totalAvailable c = p ≫= totalElements
            /\ Search.note c = Some n
            /\ occurs_in (filtered_count_text kept) n)
      /\ removed_note fetched kept = Some (removed_text fetched kept)
      /\ filter_log fetched kept = [LogFiltered fetched kept (fetched - kept)]).
Proof.
  intros Hle. unfold accounted, removed_note, filter_log.
  destruct (0 <? fetched - kept) eqn:E.
  - apply Nat.ltb_lt in E. right. split; [lia|]. split; [|done].
    eexists _, _. simpl. split_and!; try reflexivity.
    unfold filtered_count_text.
    exists (str "Results filtered client-side by createdBefore. "),
      (str ", totalAvailable shows pre-filter API total ("
       ++ show_total (p ≫= totalElements) ++ str ")."). 
    by rewrite <- !app_assoc.
  - apply Nat.ltb_ge in E. left. split; [lia | done].
Qed.

Lemma kept_by_sublist (cb : option (jsstr * option Z)) (convs : list Conversation) :
  sublist (kept_by cb convs) convs.
Proof.
  unfold kept_by. destruct cb as [[[|c text] [t|]]|]; try done. apply filter_sublist.
Qed.

(** X7.  [advancedConversationSearch] and [structuredConversationFilter]
    pass an error of the API on.  From an answer they return the
    conversations the [createdBefore] argument keeps, in the order of the
    answer.  When nothing was removed the pagination is the page of the
    API as it came, there is no filtering remark and nothing is logged;
    when something was removed the pagination has the count of the
    results as [totalResults], the total of the API as [totalAvailable]
    and a note, the remark states how many of how many were removed, and
    one warning is logged.  A [createdBefore] that is no date is rejected
    only after the API has answered. *)
Theorem filtered_search_accounting (cfg : option jsstr) (api : client) :
  (forall (i : advanced_input) (p : conv_params) (resp : listing),
     advanced_params cfg i = inr p -> api p = inr resp ->
     let fetched := conversations_of (body_of resp) in
     match invalid_before (a_createdBefore i) with
     | Some e => advancedConversationSearch cfg api i = ([], inl e)
     | None =>
         exists r,
           outcome (advancedConversationSearch cfg api i) = inr r
           /\ ar_results r = kept_by (a_createdBefore i) fetched
           /\ sublist (ar_results r) fetched
           /\ ar_nextCursor r = next_href resp
           /\ ((length (ar_results r) = length fetched
                /\ ar_pagination r = ApiPage (page_of (body_of resp))
                /\ ar_clientSideFiltering r = None
                /\ logged (advancedConversationSearch cfg api i) = [])
               \/ (length (ar_results r) < length fetched
                   /\ (exists c n,
                         ar_pagination r = Counts c
                         /\ totalResults c = length (ar_results r)
                         /\ c_totalAvailable c = page_of (body_of resp) ≫= totalElements
                         /\ Search.note c = Some n
                         /\ occurs_in (filtered_count_text (length (ar_results r))) n)
                   /\ ar_clientSideFiltering r
                      = Some (removed_text (length fetched) (length (ar_results r)))
                   /\ logged (advancedConversationSearch cfg api i)
                      = [LogFiltered (length fetched) (length (ar_results r))
                           (length fetched - length (ar_results r))]))
     end)
  /\ (forall (i : structured_input) (p : conv_params) (resp : listing),
        structured_params cfg i = inr p -> api p = inr resp ->
        let fetched := conversations_of (body_of resp) in
        match invalid_before (s_createdBefore i) with
        | Some e => structuredConversationFilter cfg api i = ([], inl e)
        | None =>
            exists r,
              outcome (structuredConversationFilter cfg api i) = inr r
              /\ st_results r = kept_by (s_createdBefore i) fetched
              /\ sublist (st_results r) fetched
              /\ st_nextCursor r = next_href resp
              /\ ((length (st_results r) = length fetched
                   /\ st_pagination r = ApiPage (page_of (body_of resp))
                   /\ st_clientSideFiltering r = None
                   /\ logged (structuredConversationFilter cfg api i) = [])
                  \/ (length (st_results r) < length fetched
                      /\ (exists c n,
                            st_pagination r = Counts c
                            /\ totalResults c = length (st_results r)
                            /\ c_totalAvailable c
                               = page_of (body_of resp) ≫= totalElements
                            /\ Search.note c = Some n
                            /\ occurs_in (filtered_count_text (length (st_results r))) n)
                      /\ st_clientSideFiltering r
                         = Some (removed_text (length fetched) (length (st_results r)))
                      /\ logged (structuredConversationFilter cfg api i)
                         = [LogFiltered (length fetched) (length (st_results r))
                              (length fetched - length (st_results r))]))
        end)
  /\ (forall (i : advanced_input) (p : conv_params) (e : thrown),
        advanced_params cfg i = inr p -> api p = inl e ->
        advancedConversationSearch cfg api i = ([], inl e))
  /\ (forall (i : structured_input) (p : conv_params) (e : thrown),
        structured_params cfg i = inr p -> api p = inl e ->
        structuredConversationFilter cfg api i = ([], inl e)).
Proof.
  split_and!.
  - intros i p resp Hp Hr fetched. rewrite advancedConversationSearch_eq, Hp, Hr.
    cbv zeta. fold fetched.
    destruct (invalid_before (a_createdBefore i)); [done|].
    eexists. split; [reflexivity|]. cbn [ar_results ar_nextCursor ar_pagination
      ar_clientSideFiltering logged fst].
    pose proof (kept_by_sublist (a_createdBefore i) fetched) as Hsub.
    split_and!; try done.
    destruct (accounted_cases (length fetched)
                (length (kept_by (a_createdBefore i) fetched))
                (page_of (body_of resp)) (sublist_length _ _ Hsub))
      as [(H1 & H2 & H3 & H4)|(H1 & H2 & H3 & H4)]; [left|right]; done.
  - intros i p resp Hp Hr fetched. rewrite structuredConversationFilter_eq, Hp, Hr.
    cbv zeta. fold fetched.
    destruct (invalid_before (s_createdBefore i)); [done|].
    eexists. split; [reflexivity|]. cbn [st_results st_nextCursor st_pagination
      st_clientSideFiltering logged fst].
    pose proof (kept_by_sublist (s_createdBefore i) fetched) as Hsub.
    split_and!; try done.
    destruct (accounted_cases (length fetched)
                (length (kept_by (s_createdBefore i) fetched))
                (page_of (body_of resp)) (sublist_length _ _ Hsub))
      as [(H1 & H2 & H3 & H4)|(H1 & H2 & H3 & H4)]; [left|right]; done.
  - intros i p e Hp He. by rewrite advancedConversationSearch_eq, Hp, He.
  - intros i p e Hp He. by rewrite structuredConversationFilter_eq, Hp, He.
Qed.

Lemma filtered_search_accounting_witness :
  exists r,
    outcome (structuredConversationFilter None three_of_seven
               (by_number 42 (Some (str "2024-03-01", Some 300%Z)))) = inr r
    /\ st_results r = [conv 1 100; conv 3 200].
Proof.
  pose proof (proj1 (proj2 (filtered_search_accounting None three_of_seven))
                (by_number 42 (Some (str "2024-03-01", Some 300%Z))) _ _
                eq_refl eq_refl) as H.
  cbv zeta in H. change (invalid_before _) with (@None thrown) in H. cbv iota in H.
  destruct H as (r & Hr & Hres & _). exists r. split; [exact Hr|].
  rewrite Hres. vm_compute. reflexivity.
Defined.

End ToolExtras.

Module ComprehensiveExtras.
Import Chars Regex JS Effects Query Search SearchSpec Scenario QueryTerms QuerySpec Tools
  ToolSpec ToolScenario TextSpec EffectFacts FetchFacts SearchConversationsFacts
  ComprehensiveFacts BranchFacts RegexFacts QueryFacts TermFacts QueryExtras ToolFacts.

Lemma sum_list_le {A : Type} (f g : A -> nat) (l : list A) :
  Forall (fun x => f x <= g x) l ->
  sum_list (List.map f l) <= sum_list (List.map g l).
Proof. induction 1 as [|x l Hx _ IH]; simpl; lia. Qed.

(** What a branch reports, for an answer whose total is not below what
    it carries. *)
Lemma branch_counts (api : transport) (c : context) (s : status) (r : status_result) :
  (forall rq resp, api rq = inr resp -> consistent resp) ->
  terminal api c s = inr r ->
  length (sr_conversations r) <= totalCount r
  /\ totalCount r <= or_nat (totalCountBeforeFilter r) (totalCount r).
Proof.
  intros Hok. unfold terminal.
  destruct (branch api c s) as [e|r'] eqn:Hb.
  { destruct (fatal e); [done|]. intros [= <-]. simpl. lia. }
  intros [= <-].
  destruct (searchSingleStatus_inv api c s r' Hb) as (q & resp & Hapi & _ & _ & Hcase).
  specialize (Hok _ _ Hapi). unfold consistent in Hok. cbv zeta in Hcase.
  set (fetched := conversations_of resp) in *.
  assert (Htotal : length fetched
                   <= or_nat (page_of resp ≫= totalElements) (length fetched)).
  { destruct (page_of resp ≫= totalElements) as [[|n]|]; simpl; lia. }
  destruct Hcase as [(-> & -> & -> & _)|(cb & t & _ & _ & _ & Hlt & -> & -> & _)].
  - simpl. lia.
  - split; [lia|].
    destruct (or_nat (page_of resp ≫= totalElements) (length fetched)) eqn:E;
      simpl; lia.
Qed.

(** X8.  When every answer of the API reports a total that is not below
    the number of conversations it carries (or no total), the summary of
    the comprehensive search has one entry for each status asked for,
    does not count more conversations found than available, and, when
    the client-side filter removed something, does not count more
    available than before the filter; the total before the filter and
    the remark about it are present together. *)
Theorem comprehensive_totals (api : transport) (c : context) (sm : summary) :
  (forall rq resp, api rq = inr resp -> consistent resp) ->
  outcome (comprehensiveConversationSearch api c) = inr sm ->
  length (resultsByStatus sm) = length (statuses c)
  /\ totalConversationsFound sm <= totalAvailableAcrossStatuses sm
  /\ (forall n, totalBeforeClientSideFiltering sm = Some n ->
        totalAvailableAcrossStatuses sm <= n)
  /\ (totalBeforeClientSideFiltering sm = None <-> clientSideFilteringApplied sm = None)
  /\ (totalBeforeClientSideFiltering sm = None
      <-> forall r, r ∈ resultsByStatus sm -> filteredByCreatedBefore r <> Some true).
Proof.
  intros Hok. unfold comprehensiveConversationSearch.
  rewrite outcome_bind, executeMultiStatusSearch_outcome.
  destruct (collect api c (statuses c)) as [e|rs] eqn:Hc; [done|].
  intros [= <-]. pose proof (collect_Forall2 api c _ rs Hc) as Hall.
  assert (Hcounts : Forall (fun r => length (sr_conversations r) <= totalCount r
                              /\ totalCount r
                                 <= or_nat (totalCountBeforeFilter r) (totalCount r)) rs).
  { clear Hc. induction Hall as [|s r ss rs Hr _ IH]; constructor; [|done].
    by apply (branch_counts api c s). }
  unfold formatComprehensiveSearchResults. cbv zeta.
  cbn [resultsByStatus totalConversationsFound totalAvailableAcrossStatuses
       totalBeforeClientSideFiltering clientSideFilteringApplied].
  rewrite !reduce_sum_spec. split_and!.
  - symmetry. by eapply Forall2_length.
  - apply sum_list_le. eapply Forall_impl; [exact Hcounts|]. by intros r [H _].
  - intros n. destruct (existsb _ rs); [|done]. intros [= <-].
    apply sum_list_le. eapply Forall_impl; [exact Hcounts|]. by intros r [_ H].
  - by destruct (existsb _ rs).
  - destruct (existsb _ rs) eqn:E.
    + split; [done|]. intros H. exfalso.
      apply existsb_exists in E as (r & Hr & Hf). apply (H r); [by apply list_elem_of_In|].
      by destruct (filteredByCreatedBefore r) as [[]|].
    + split; [|done]. intros _ r Hr Hf.
      apply not_true_iff_false in E. apply E, existsb_exists. exists r.
      split; [by apply list_elem_of_In | by rewrite Hf].
Qed.

Lemma api_partial_consistent (rq : request) (resp : response) :
  api_partial rq = inr resp -> consistent resp.
Proof.
  unfold api_partial. destruct (rq_status rq); intros [= <-]; unfold consistent; simpl;
    lia.
Qed.

Lemma comprehensive_totals_witness :
  exists sm,
    outcome (comprehensiveConversationSearch api_partial comprehensive) = inr sm
    /\ totalConversationsFound sm <= totalAvailableAcrossStatuses sm.
Proof.
  eexists. split; [vm_compute; reflexivity|].
  exact (proj1 (proj2 (comprehensive_totals api_partial comprehensive _
                         api_partial_consistent eq_refl))).
Defined.

(** *** The query of the comprehensive search *)

Lemma searchSingleStatus_eq (api : transport) (c : context) (s : status) :
  searchSingleStatus api c s
  = match single_query c with
    | inl e => ([], inl e)
    | inr q =>
        match api (status_request c s q) with
        | inl e => ([], inl e)
        | inr resp =>
            filter_if_asked (ctx_createdBefore c) (conversations_of resp) ≫=
            λ r : list Conversation * bool,
              mret {| sr_status := s;
                      totalCount :=
                        if snd r then length (fst r)
                        else or_nat (page_of resp ≫= totalElements)
                               (length (conversations_of resp));
                      totalCountBeforeFilter :=
                        if snd r
                        then Some (or_nat (page_of resp ≫= totalElements)
                                     (length (conversations_of resp)))
                        else None;
                      sr_conversations := fst r;
                      sr_searchQuery := searchQuery c;
                      filteredByCreatedBefore := Some (snd r) |}
        end
    end.
Proof.
  unfold searchSingleStatus, single_query.
  destruct (appendCreatedAtFilter _ _ _) as [e|qd]; [reflexivity|].
  rewrite bind_lift_inr. cbv zeta. unfold status_request.
  destruct (api _) as [e|resp]; [reflexivity|].
  by rewrite bind_lift_inr.
Qed.

Lemma search_statuses_throws (api : transport) (c : context) (s : status)
    (rest : list status) (m : jsstr) (acc : list status_result) :
  single_query c = inl (OtherError m) ->
  search_statuses api c (s :: rest) acc = ([LogUnexpected s m], inl (OtherError m)).
Proof.
  intros Hq. cbn [search_statuses]. rewrite searchSingleStatus_eq, Hq. reflexivity.
Qed.

Lemma single_query_ok (c : context) :
  bad_date (Some (ctx_createdAfter c)) = false ->
  exists q,
    single_query c = inr (Some q)
    /\ (forall l, reads_as (searchQuery c) l -> reads_as q l)
    /\ (searchQuery c = [] -> ctx_createdAfter c <> [] ->
        q = clause (Some (ctx_createdAfter c)) None).
Proof.
  intros Hbad. unfold single_query.
  destruct (appendCreatedAtFilter _ _ _) as [e|q'] eqn:Hq.
  - exfalso. unfold appendCreatedAtFilter in Hq. rewrite Hbad in Hq.
    change (bad_date None) with false in Hq. cbv iota zeta in Hq.
    by repeat case_match.
  - pose proof (fun l => appendCreatedAtFilter_reads _ _ _ _ l Hq) as Hr. simpl default in Hr.
    unfold appendCreatedAtFilter in Hq. rewrite Hbad in Hq.
    change (bad_date None) with false in Hq. cbv iota zeta in Hq.
    change (ofalsy None) with true in Hq. rewrite andb_true_r in Hq.
    destruct (ctx_createdAfter c) as [|x d] eqn:Ed.
    + simpl in Hq. injection Hq as <-. exists (searchQuery c).
      split; [by destruct (searchQuery c)|]. by split.
    + change (ofalsy (Some (x :: d))) with false in Hq. cbv iota in Hq.
      destruct (searchQuery c) as [|y t] eqn:Eq.
      * simpl ofalsy in Hq. cbv iota in Hq. injection Hq as <-.
        eexists. split; [reflexivity|]. split; [exact Hr|]. done.
      * change (ofalsy (Some (y :: t))) with false in Hq. cbv iota in Hq.
        injection Hq as <-. eexists. split; [reflexivity|]. split; [exact Hr|]. done.
Qed.

Lemma buildSearchQuery_nowhere (terms : list jsstr) : buildSearchQuery terms [] = [].
Proof.
  unfold buildSearchQuery. rewrite fold_add_term.
  by induction terms as [|y l IH].
Qed.

(** X9.  The comprehensive search builds its query from the terms and
    the places to search, and each status is asked once, with that query
    and the date clause: read with the backslash as escape character,
    the quoted phrases of the query sent are the search terms, once for
    each place to search.  With an empty [searchIn] the terms are not
    searched for: the query sent is the date clause alone.  A creation
    date that does not have the form of a date makes the search end with
    that error at the first status, whatever the API would answer; but
    when no status is asked for, the date is never looked at and the
    summary is empty. *)
Theorem comprehensive_search_query (toISOString : nat -> jsstr)
    (input : comprehensive_input) :
  let c := buildComprehensiveSearchContext toISOString input in
  let d := ctx_createdAfter c in
  (ci_statuses input = [] ->
   forall api, comprehensiveConversationSearch api c
               = ([], inr (formatComprehensiveSearchResults [])))
  /\ (forall s rest, ci_statuses input = s :: rest ->
        bad_date (Some d) = true ->
        forall api,
          comprehensiveConversationSearch api c
          = ([LogUnexpected s (str "Invalid createdAfter date format: " ++ d
                ++ str ". Expected ISO 8601 (e.g., 2024-01-15T00:00:00Z)")],
             inl (invalid_date "createdAfter" d)))
  /\ (bad_date (Some d) = false ->
      exists q,
        single_query c = inr (Some q)
        /\ phrases q
           = flat_map (fun term => repeat term (places (searchIn input)))
               (searchTerms input)
        /\ (searchIn input = [] -> d <> [] -> q = clause (Some d) None)
        /\ (forall api api' s,
              api (status_request c s (Some q)) = api' (status_request c s (Some q)) ->
              searchSingleStatus api c s = searchSingleStatus api' c s)).
Proof.
  intros c d. split_and!.
  - intros Hs api. unfold comprehensiveConversationSearch, executeMultiStatusSearch.
    change (statuses c) with (ci_statuses input). by rewrite Hs.
  - intros s rest Hs Hbad api.
    unfold comprehensiveConversationSearch, executeMultiStatusSearch.
    change (statuses c) with (ci_statuses input). rewrite Hs.
    assert (Hq : single_query c = inl (invalid_date "createdAfter" d)).
    { unfold single_query, appendCreatedAtFilter. fold d. rewrite Hbad.
      unfold bad_date in Hbad. apply andb_true_iff in Hbad as [Hf _].
      apply negb_true_iff in Hf. by rewrite Hf. }
    by rewrite (search_statuses_throws api c s rest _ [] Hq).
  - intros Hbad. destruct (single_query_ok c Hbad) as (q & Hq & Hr & He).
    exists q. split; [exact Hq|]. split_and!.
    + apply reads_as_phrases, Hr.
      exact (buildSearchQuery_reads (searchTerms input) (searchIn input)).
    + intros Hin Hd. apply He; [|exact Hd].
      change (searchQuery c)
        with (buildSearchQuery (searchTerms input) (searchIn input)).
      rewrite Hin. apply buildSearchQuery_nowhere.
    + intros api api' s Hsame. rewrite !searchSingleStatus_eq, Hq. by rewrite Hsame.
Qed.

End ComprehensiveExtras.

Module ThreadFacts.
Import Chars Regex JS HtmlStripper Effects Query Search SearchSpec TextSpec Tools
       Threads ThreadSpec.
Import SortFacts LineFacts MarkupFacts NormalizerClaims.

(** *** The first element of a sorted array *)

Section Heads.
Context {A : Type}.

Lemma head_sort_insert (cmp : A -> A -> Z) (x : A) (l : list A) :
  head (sort_insert cmp x l)
  = match head l with
    | None => Some x
    | Some y => if (0 <? cmp x y)%Z then Some y else Some x
    end.
Proof. destruct l as [|y l]; [done|]. simpl. by destruct (0 <? cmp x y)%Z. Qed.

Lemma head_js_sort_cons (cmp : A -> A -> Z) (x : A) (l : list A) :
  head (js_sort cmp (x :: l))
  = match head (js_sort cmp l) with
    | None => Some x
    | Some y => if (0 <? cmp x y)%Z then Some y else Some x
    end.
Proof. unfold js_sort. simpl foldr. apply head_sort_insert. Qed.

Lemma head_js_sort_nil (cmp : A -> A -> Z) (l : list A) :
  head (js_sort cmp l) = None <-> l = [].
Proof.
  split; [|by intros ->].
  destruct l as [|x l]; [done|]. rewrite head_js_sort_cons.
  destruct (head (js_sort cmp l)); [|done]. by destruct (0 <? cmp x a)%Z.
Qed.

(** With a comparison by a key, the first element of the sorted array is
    the first of the elements with the least key. *)
Lemma head_js_sort_least (key : A -> Z) (cmp : A -> A -> Z) (l : list A) (t : A) :
  (forall a b, cmp a b = (key a - key b)%Z) ->
  head (js_sort cmp l) = Some t ->
  exists l1 l2, l = l1 ++ t :: l2
    /\ (forall u, u ∈ l1 -> (key t < key u)%Z)
    /\ (forall u, u ∈ l2 -> (key t <= key u)%Z).
Proof.
  intros Hcmp. revert t. induction l as [|x l IH]; intros t; [done|].
  rewrite head_js_sort_cons.
  destruct (head (js_sort cmp l)) as [y|] eqn:Hy.
  - destruct (IH y eq_refl) as (l1 & l2 & -> & H1 & H2).
    rewrite Hcmp. destruct (0 <? key x - key y)%Z eqn:Hc; intros [= <-].
    + exists (x :: l1), l2. split; [done|]. split; [|done].
      intros u [->|Hu]%elem_of_cons; [lia | by apply H1].
    + exists [], (l1 ++ y :: l2). split; [done|]. split; [by intros u ?%elem_of_nil|].
      intros u [Hu|[->|Hu]%elem_of_cons]%elem_of_app.
      * apply H1 in Hu. lia.
      * lia.
      * apply H2 in Hu. lia.
  - apply head_js_sort_nil in Hy as ->. intros [= <-].
    exists [], []. split; [done|]. split; by intros u ?%elem_of_nil.
Qed.

Lemma sort_insert_map {B : Type} (f : A -> B) (cmp : A -> A -> Z) (cmp' : B -> B -> Z)
    (x : A) (l : list A) :
  (forall a b, cmp' (f a) (f b) = cmp a b) ->
  sort_insert cmp' (f x) (List.map f l) = List.map f (sort_insert cmp x l).
Proof.
  intros H. induction l as [|y l IH]; [done|].
  simpl. rewrite H. destruct (0 <? cmp x y)%Z; [|done]. simpl. by rewrite IH.
Qed.

Lemma js_sort_map {B : Type} (f : A -> B) (cmp : A -> A -> Z) (cmp' : B -> B -> Z)
    (l : list A) :
  (forall a b, cmp' (f a) (f b) = cmp a b) ->
  js_sort cmp' (List.map f l) = List.map f (js_sort cmp l).
Proof.
  intros H. induction l as [|x l IH]; [done|].
  unfold js_sort in *. simpl. rewrite IH. by apply sort_insert_map.
Qed.

Lemma filter_map_commute {B : Type} (f : A -> B) (P : A -> bool) (Q : B -> bool)
    (l : list A) :
  (forall a, Q (f a) = P a) ->
  List.filter Q (List.map f l) = List.map f (List.filter P l).
Proof.
  intros H. induction l as [|x l IH]; [done|].
  simpl. rewrite H. destruct (P x); simpl; by rewrite IH.
Qed.

Lemma head_map {B : Type} (f : A -> B) (l : list A) :
  head (List.map f l) = f <$> head l.
Proof. by destruct l. Qed.

Lemma filter_none (P : A -> bool) (l : list A) :
  List.filter P l = [] <-> forall x, x ∈ l -> P x = false.
Proof.
  induction l as [|x l IH]; simpl.
  - split; [by intros _ x ?%elem_of_nil | done].
  - destruct (P x) eqn:Hx.
    + split; [done|]. intros H. specialize (H x ltac:(left)). congruence.
    + rewrite IH. split.
      * intros H y [->|Hy]%elem_of_cons; [done | by apply H].
      * intros H y Hy. apply H. by right.
Qed.

End Heads.

(** *** Threads without their bodies *)

Lemma threads_of_blank (p : threads_page) :
  threads_of (blank_page p) = List.map blank (threads_of p).
Proof. unfold threads_of. simpl. by destruct (tp_threads p). Qed.

Lemma pick_blank {B : Type} (cmp : Thread -> Thread -> Z) (P : Thread -> bool)
    (mk : Thread -> B) (l : list Thread) :
  (forall a b, cmp (blank a) (blank b) = cmp a b) ->
  (forall a, P (blank a) = P a) ->
  (forall a, mk (blank a) = mk a) ->
  mk <$> head (js_sort cmp (List.filter P (List.map blank l)))
  = mk <$> head (js_sort cmp (List.filter P l)).
Proof.
  intros Hcmp HP Hmk.
  rewrite (filter_map_commute blank P P) by done.
  rewrite (js_sort_map blank cmp cmp) by done.
  rewrite head_map. destruct (head _); simpl; [by rewrite Hmk | done].
Qed.

Lemma pick_same {B : Type} (cmp : Thread -> Thread -> Z) (P : Thread -> bool)
    (mk : Thread -> B) (l l' : list Thread) :
  (forall a b, cmp (blank a) (blank b) = cmp a b) ->
  (forall a, P (blank a) = P a) ->
  (forall a, mk (blank a) = mk a) ->
  List.map blank l = List.map blank l' ->
  mk <$> head (js_sort cmp (List.filter P l))
  = mk <$> head (js_sort cmp (List.filter P l')).
Proof.
  intros Hcmp HP Hmk Hl.
  rewrite <- (pick_blank cmp P mk l), <- (pick_blank cmp P mk l') by done.
  by rewrite Hl.
Qed.

(** *** The length of a decimal numeral *)

Lemma succ_digits (d : Decimal.uint) :
  Decimal.nb_digits (Decimal.Little.succ d) <= S (Decimal.nb_digits d).
Proof. induction d; simpl; lia. Qed.

Lemma to_little_uint_digits (n : nat) :
  forall acc, Decimal.nb_digits (Nat.to_little_uint n acc) <= Decimal.nb_digits acc + n.
Proof.
  induction n as [|n IH]; intros acc; simpl; [lia|].
  etrans; [apply IH|]. pose proof (succ_digits acc). lia.
Qed.

Lemma to_little_uint_add (a b : nat) :
  forall acc, Nat.to_little_uint (a + b) acc
              = Nat.to_little_uint b (Nat.to_little_uint a acc).
Proof. induction a as [|a IH]; intros acc; simpl; [done | apply IH]. Qed.

Lemma uint_digits_revapp (d d' : Decimal.uint) :
  length (uint_digits (Decimal.revapp d d'))
  = Decimal.nb_digits d + Decimal.nb_digits d'.
Proof.
  revert d'. induction d; intros d'; simpl; try rewrite IHd; simpl; try lia.
  induction d'; simpl; lia.
Qed.

Lemma of_nat_length (n : nat) :
  length (of_nat n) = Decimal.nb_digits (Nat.to_little_uint n Decimal.zero).
Proof.
  unfold of_nat, Nat.to_uint, Decimal.rev. rewrite uint_digits_revapp. simpl. lia.
Qed.

(** A number of a hundred or more has at most as many digits as it
    exceeds ninety-seven. *)
Lemma of_nat_short (n : nat) : 100 <= n -> length (of_nat n) + 97 <= n.
Proof.
  intros Hn. rewrite of_nat_length.
  replace n with (100 + (n - 100)) at 1 by lia.
  rewrite to_little_uint_add.
  etrans; [apply Nat.add_le_mono_r, to_little_uint_digits|].
  change (Decimal.nb_digits (Nat.to_little_uint 100 Decimal.zero)) with 3. lia.
Qed.

Lemma notice_length (n : nat) : length (notice n) = 45 + length (of_nat n).
Proof. unfold notice. rewrite !length_app. simpl. lia. Qed.

Lemma trim_length (s : jsstr) : length (trim s) <= length s.
Proof.
  destruct (trim_infix s) as (a & b & H).
  rewrite H at 2. rewrite !length_app. lia.
Qed.

Lemma join_two (sep x y : jsstr) (l : list jsstr) :
  join sep (x :: y :: l) = x ++ sep ++ join sep (y :: l).
Proof. reflexivity. Qed.

Lemma join_app_length (sep : jsstr) (l1 l2 : list jsstr) :
  l1 <> [] -> l2 <> [] ->
  length (join sep (l1 ++ l2))
  = length (join sep l1) + length sep + length (join sep l2).
Proof.
  intros H1 H2. induction l1 as [|x l1 IH]; [done|].
  destruct l1 as [|y l1].
  - destruct l2 as [|z l2]; [done|].
    change ([x] ++ z :: l2) with (x :: z :: l2). rewrite join_two.
    change (join sep [x]) with x. rewrite !length_app. lia.
  - change ((x :: y :: l1) ++ l2) with (x :: y :: (l1 ++ l2)).
    rewrite !join_two, !length_app.
    change (y :: l1 ++ l2) with ((y :: l1) ++ l2). rewrite IH by done. lia.
Qed.

Lemma join_split (x : jsstr) : join [LF] (split_lines x) = x.
Proof.
  induction x as [|c t IH]; [done|].
  simpl split_lines. pose proof (split_lines_not_nil t) as Hne.
  destruct (split_lines t) as [|l ls] eqn:E; [done|].
  destruct (c =? LF)%N eqn:Hc.
  - apply N.eqb_eq in Hc as ->. by rewrite join_two, IH.
  - rewrite <- IH. by destruct ls.
Qed.

(** Removing quoted content never makes a text longer. *)
Lemma stripQuotedContent_length (x : jsstr) :
  length (stripQuotedContent x) <= length x.
Proof.
  destruct (stripQuotedContent_cases x) as [->|(cut & n & _ & Hk & Hn & Hn' & ->)];
    [done|].
  set (lines := split_lines x) in *.
  assert (Hx : length x = length (join [LF] (take cut lines ++ drop cut lines))).
  { rewrite take_drop. unfold lines. by rewrite join_split. }
  assert (H1 : take cut lines <> []).
  { intros E. rewrite E in Hk. simpl in Hk. lia. }
  assert (H2 : drop cut lines <> []).
  { intros E. change (skipn cut lines) with (drop cut lines) in Hn.
    rewrite E in Hn. simpl in Hn. lia. }
  rewrite join_app_length in Hx by done.
  rewrite length_app, notice_length.
  pose proof (trim_length (join [LF] (take cut lines))) as Ht.
  pose proof (of_nat_short n Hn') as Hd.
  change (firstn cut lines) with (take cut lines).
  change (skipn cut lines) with (drop cut lines) in Hn.
  simpl length in Hx. lia.
Qed.

Lemma cap_length (n : Z) (text : jsstr) :
  (0 < n)%Z -> length (cap (or_undefined (Some n)) text) <= Z.to_nat n.
Proof.
  intros Hn. unfold or_undefined, cap.
  destruct (n =? 0)%Z eqn:E; [lia|]. rewrite E. unfold slice0.
  destruct (n <? 0)%Z eqn:E'; [lia|]. rewrite length_take. lia.
Qed.

Lemma stripHtml_capped (n : Z) (h : jsstr) :
  (0 < n)%Z -> length (stripHtml h (or_undefined (Some n))) <= Z.to_nat n.
Proof.
  intros Hn. unfold stripHtml. destruct (falsy h); [simpl; lia|].
  by apply cap_length.
Qed.

End ThreadFacts.

Module ThreadExtras.
Import Chars Regex JS HtmlStripper Effects Query Search SearchSpec TextSpec Tools
       Threads ThreadSpec.
Import Bodies SortFacts LineFacts MarkupFacts NormalizerClaims ThreadFacts.

(** X10.  [getConversationSummary] asks for the conversation and then
    for its first fifty threads, and the first error ends it.  Otherwise
    the first customer message it shows is the thread of type customer
    that was created first, and the latest staff reply is the thread of
    type message with an author that was created last; of several
    threads of the same time the one that comes first in the answer of
    the API is taken.  A message is absent exactly when the answer has
    no thread of its kind. *)
Theorem summary_picks_messages (cfg : settings) (api : helpscout)
    (conversationId : jsstr) :
  match get_conversation api conversationId with
  | inl e => getConversationSummary cfg api conversationId = inl e
  | inr conversation =>
      match get_threads api conversationId 50 with
      | inl e => getConversationSummary cfg api conversationId = inl e
      | inr answer =>
          exists s,
            getConversationSummary cfg api conversationId = inr s
            /\ cs_conversation s = conversation
            /\ match firstCustomerMessage s with
               | None => forall t, t ∈ threads_of answer -> is_customer t = false
               | Some m =>
                   exists t,
                     earliest (List.filter is_customer (threads_of answer)) t
                     /\ t ∈ threads_of answer /\ is_customer t = true
                     /\ m = {| m_id := th_id t; m_body := processBody cfg (th_body t);
                               m_createdAt := th_createdAt t;
                               m_from := th_customer t |}
               end
            /\ match latestStaffReply s with
               | None => forall t, t ∈ threads_of answer -> is_staff t = false
               | Some m =>
                   exists t,
                     latest (List.filter is_staff (threads_of answer)) t
                     /\ t ∈ threads_of answer /\ is_staff t = true
                     /\ m = {| m_id := th_id t; m_body := processBody cfg (th_body t);
                               m_createdAt := th_createdAt t;
                               m_from := th_createdBy t |}
               end
      end
  end.
Proof.
  unfold getConversationSummary.
  destruct (get_conversation api conversationId) as [e|conversation]; [done|].
  destruct (get_threads api conversationId 50) as [e|answer]; [done|].
  eexists. split; [reflexivity|]. split; [done|]. cbv zeta. simpl.
  fold (threads_of answer). split.
  - destruct (head (js_sort oldest_first _)) as [t|] eqn:Ht.
    + exists t.
      destruct (head_js_sort_least th_createdAt oldest_first _ t
                  (fun a b => eq_refl) Ht) as (l1 & l2 & Hl & H1 & H2).
      assert (Hin : t ∈ List.filter is_customer (threads_of answer)).
      { rewrite Hl. apply elem_of_app. right. left. }
      apply list_elem_of_In, filter_In in Hin as [Hin%list_elem_of_In Hc].
      split; [by exists l1, l2|]. done.
    + apply head_js_sort_nil in Ht. by apply filter_none.
  - destruct (head (js_sort latest_first _)) as [t|] eqn:Ht.
    + exists t.
      destruct (head_js_sort_least (fun u => (- th_createdAt u)%Z) latest_first _ t
                  (fun a b => ltac:(unfold latest_first; lia)) Ht)
        as (l1 & l2 & Hl & H1 & H2).
      assert (Hin : t ∈ List.filter is_staff (threads_of answer)).
      { rewrite Hl. apply elem_of_app. right. left. }
      apply list_elem_of_In, filter_In in Hin as [Hin%list_elem_of_In Hc].
      split; [|done]. exists l1, l2. split; [done|]. split.
      * intros u Hu. apply H1 in Hu. lia.
      * intros u Hu. apply H2 in Hu. lia.
    + apply head_js_sort_nil in Ht. by apply filter_none.
Qed.

(** X11.  With [allowPii] off, no message body reaches the answers:
    [processBody] and [getThreads] give the same placeholder for every
    body, and [getThreads] and [getConversationSummary] answer the same
    for two answers of the API that differ only in the bodies of the
    threads. *)
Theorem redaction_hides_bodies (strip : bool) (max : option Z)
    (api api' : helpscout) (conversationId : jsstr) (limit : nat) :
  let cfg := {| allowPii := false; fmt_stripHtml := strip; maxBodyLength := max |} in
  (forall body, processBody cfg body = HIDDEN)
  /\ (forall thread, pt_body (process_thread cfg thread) = Some HIDDEN)
  /\ (same_but_bodies (get_threads api conversationId limit)
                      (get_threads api' conversationId limit) ->
      getThreads cfg api conversationId limit
      = getThreads cfg api' conversationId limit)
  /\ (get_conversation api conversationId = get_conversation api' conversationId ->
      same_but_bodies (get_threads api conversationId 50)
                      (get_threads api' conversationId 50) ->
      getConversationSummary cfg api conversationId
      = getConversationSummary cfg api' conversationId).
Proof.
  intros cfg. split_and!; [done | done | |].
  - unfold getThreads, same_but_bodies.
    destruct (get_threads api conversationId limit) as [e|p],
             (get_threads api' conversationId limit) as [e'|q]; try done;
      [by intros ->|].
    intros H. f_equal.
    assert (Hl : List.map (process_thread cfg) (threads_of p)
                 = List.map (process_thread cfg) (threads_of q)).
    { transitivity (List.map (process_thread cfg) (List.map blank (threads_of p))).
      - rewrite List.map_map. by apply map_ext.
      - rewrite <- threads_of_blank, H, threads_of_blank, List.map_map.
        by apply map_ext. }
    unfold threads_of in Hl. rewrite Hl.
    assert (tp_page p = tp_page q) as -> by (by injection H).
    assert (tp_next p = tp_next q) as -> by (by injection H).
    done.
  - intros Hc. unfold getConversationSummary, same_but_bodies. rewrite <- Hc.
    destruct (get_conversation api conversationId) as [e|conversation]; [done|].
    destruct (get_threads api conversationId 50) as [e|p],
             (get_threads api' conversationId 50) as [e'|q]; try done;
      [by intros ->|].
    intros H. cbv zeta.
    assert (Hl : List.map blank (threads_of p) = List.map blank (threads_of q))
      by (by rewrite <- !threads_of_blank, H).
    pose proof (pick_same oldest_first is_customer
                  (fun t => {| m_id := th_id t; m_body := processBody cfg (th_body t);
                               m_createdAt := th_createdAt t;
                               m_from := th_customer t |})
                  _ _ (fun a b => eq_refl) (fun a => eq_refl) (fun a => eq_refl) Hl)
      as H1.
    pose proof (pick_same latest_first is_staff
                  (fun t => {| m_id := th_id t; m_body := processBody cfg (th_body t);
                               m_createdAt := th_createdAt t;
                               m_from := th_createdBy t |})
                  _ _ (fun a b => eq_refl) (fun a => eq_refl) (fun a => eq_refl) Hl)
      as H2.
    unfold threads_of in H1, H2. f_equal. f_equal; [exact H1 | exact H2].
Qed.

(** X12.  Removing quoted content never makes a text longer.  So with
    [allowPii] and [stripHtml] on and a positive [maxBodyLength], no body
    that [getConversationSummary] or [getThreads] shows is longer than
    [maxBodyLength] code units, the notice of the removed content
    included. *)
Theorem bodies_within_cap (max : Z) (text : jsstr) :
  (0 < max)%Z ->
  let cfg := {| allowPii := true; fmt_stripHtml := true; maxBodyLength := Some max |} in
  length (stripQuotedContent text) <= length text
  /\ (forall body, length (processBody cfg body) <= Z.to_nat max)
  /\ (forall thread body,
        pt_body (process_thread cfg thread) = Some body ->
        length body <= Z.to_nat max).
Proof.
  intros Hmax cfg. split; [apply stripQuotedContent_length|]. split.
  - intros body. unfold processBody. simpl.
    destruct (ofalsy body); [simpl; lia|].
    etrans; [apply stripQuotedContent_length|]. by apply stripHtml_capped.
  - intros thread body. unfold process_thread. simpl.
    destruct (ofalsy (th_body thread)) eqn:Hb; simpl.
    + destruct (th_body thread) as [[|c t]|]; try done. intros [= <-]. simpl. lia.
    + intros [= <-].
      etrans; [apply stripQuotedContent_length|]. by apply stripHtml_capped.
Qed.

Lemma bodies_within_cap_witness :
  length (stripQuotedContent (forwarded 3)) <= length (forwarded 3)
  /\ length (processBody {| allowPii := true; fmt_stripHtml := true;
                            maxBodyLength := Some 40%Z |}
               (Some (forwarded 3))) <= 40.
Proof.
  pose proof (bodies_within_cap 40 (forwarded 3) ltac:(lia)) as [H1 [H2 _]].
  split; [exact H1 | exact (H2 (Some (forwarded 3)))].
Defined.

End ThreadExtras.

Module AttachmentFacts.
Import Chars Regex JS HtmlStripper Effects Query Search SearchSpec TextSpec Tools
       Threads ThreadSpec.
Import ThreadFacts.

Lemma push_all {A B : Type} (f : A -> B) (l : list A) (acc : list B) :
  fold_left (fun acc x => acc ++ [f x]) l acc = acc ++ List.map f l.
Proof.
  revert acc. induction l as [|x l IH]; intros acc; simpl; [by rewrite app_nil_r|].
  rewrite IH. by rewrite <- app_assoc.
Qed.

Lemma collect_from (threads : list Thread) (acc : list attachment_info) :
  fold_left (fun attachments thread =>
               fold_left (fun attachments att => attachments ++ [info_of thread att])
                         (threadAttachments thread) attachments)
            threads acc
  = acc ++ flat_map (fun t => List.map (info_of t) (threadAttachments t)) threads.
Proof.
  revert acc. induction threads as [|t threads IH]; intros acc; simpl;
    [by rewrite app_nil_r|].
  rewrite IH, push_all. by rewrite <- app_assoc.
Qed.

(** The two loops list the attachments thread by thread. *)
Lemma collect_attachments_spec (threads : list Thread) :
  collect_attachments threads
  = flat_map (fun t => List.map (info_of t) (threadAttachments t)) threads.
Proof. unfold collect_attachments. by rewrite collect_from. Qed.

Lemma attachmentCount_spec (cfg : settings) (t : Thread) :
  attachmentCount (process_thread cfg t) = length (threadAttachments t).
Proof.
  unfold process_thread, threadAttachments. simpl.
  by destruct (th_embedded t ≫= attachments).
Qed.

Lemma collect_length (cfg : settings) (threads : list Thread) :
  length (collect_attachments threads)
  = sum_list (List.map (fun t => attachmentCount (process_thread cfg t)) threads).
Proof.
  rewrite collect_attachments_spec.
  induction threads as [|t threads IH]; [done|].
  cbn [flat_map]. rewrite length_app, length_map, IH.
  by rewrite <- (attachmentCount_spec cfg t).
Qed.

Lemma info_state (t : Thread) (a : attachment) :
  ai_state (info_of t a) <> []
  /\ (ai_state (info_of t a) = str "virus" <-> is_virus a).
Proof.
  unfold is_virus. simpl. destruct (att_state a) as [[|c s]|]; simpl.
  - split; [done|]. split; intros H; discriminate H.
  - split; [done|]. split; [by intros -> | by intros [= -> ->]].
  - split; [done|]. split; intros H; discriminate H.
Qed.

(** The loop over the threads finds the first attachment of the page
    that has the id. *)
Lemma find_attachment_spec (attachmentId : jsstr) (threads : list Thread) :
  find_attachment attachmentId threads = head (with_id attachmentId threads).
Proof.
  unfold with_id. induction threads as [|t threads IH]; [done|].
  simpl. rewrite List.filter_app.
  induction (threadAttachments t) as [|a l IHl]; [exact IH|].
  simpl. by destruct (jsstr_eqb (att_id a) attachmentId).
Qed.

Lemma with_id_elem (attachmentId : jsstr) (threads : list Thread) (a : attachment) :
  a ∈ with_id attachmentId threads
  <-> att_id a = attachmentId
      /\ exists t, t ∈ threads /\ a ∈ threadAttachments t.
Proof.
  unfold with_id. rewrite list_elem_of_In, filter_In, in_flat_map.
  unfold jsstr_eqb. rewrite bool_decide_eq_true. split.
  - intros [(t & Ht & Ha) Hid]. split; [done|]. exists t.
    by rewrite !list_elem_of_In.
  - intros [Hid (t & Ht & Ha)]. split; [|done]. exists t.
    by rewrite <- !list_elem_of_In.
Qed.

Lemma head_elem {A : Type} (l : list A) (x : A) : head l = Some x -> x ∈ l.
Proof. destruct l; [done|]. intros [= ->]. left. Qed.

End AttachmentFacts.

Module AttachmentExtras.
Import Chars Regex JS HtmlStripper Effects Query Search SearchSpec TextSpec Tools
       Threads ThreadSpec.
Import ThreadFacts AttachmentFacts.

(** X13.  [getAttachments] asks for the first 200 threads and lists
    their attachments thread by thread, in the order of the answer.  Its
    [totalCount] is the sum of the [attachmentCount] that [getThreads]
    reports for the same threads; the state of a listed attachment is
    never empty; [virusWarnings] is present exactly when a listed
    attachment has the state virus, with one warning for each of them;
    and the id of every listed attachment is one that the loop of
    [getAttachmentData] finds. *)
Theorem attachments_listed (cfg : settings) (api : helpscout) (conversationId : jsstr) :
  match get_threads api conversationId MAX_THREAD_SIZE with
  | inl e => getAttachments api conversationId = inl e
  | inr answer =>
      exists a r,
        getAttachments api conversationId = inr a
        /\ getThreads cfg api conversationId MAX_THREAD_SIZE = inr r
        /\ at_attachments a
           = flat_map (fun t => List.map (info_of t) (threadAttachments t))
               (threads_of answer)
        /\ at_totalCount a = length (at_attachments a)
        /\ at_totalCount a = sum_list (List.map attachmentCount (tr_threads r))
        /\ (forall x, x ∈ at_attachments a -> ai_state x <> [])
        /\ match virusWarnings a with
           | None => forall x, x ∈ at_attachments a -> ai_state x <> str "virus"
           | Some ws =>
               ws <> []
               /\ ws = List.map virus_warning
                         (List.filter (fun x => jsstr_eqb (ai_state x) (str "virus"))
                            (at_attachments a))
           end
        /\ (forall x, x ∈ at_attachments a ->
              exists att, find_attachment (attachmentId x) (threads_of answer) = Some att
                          /\ att_id att = attachmentId x)
  end.
Proof.
  unfold getAttachments, getThreads.
  destruct (get_threads api conversationId MAX_THREAD_SIZE) as [e|answer]; [done|].
  eexists _, _. split; [reflexivity|]. split; [reflexivity|]. cbv zeta. simpl.
  fold (threads_of answer).
  assert (Hin : forall x, x ∈ collect_attachments (threads_of answer) ->
                  exists t a, t ∈ threads_of answer /\ a ∈ threadAttachments t
                              /\ x = info_of t a).
  { intros x. rewrite collect_attachments_spec, list_elem_of_In, in_flat_map.
    intros (t & Ht & Hx). apply in_map_iff in Hx as (a & <- & Ha).
    exists t, a. by rewrite !list_elem_of_In. }
  split_and!.
  - apply collect_attachments_spec.
  - done.
  - rewrite (collect_length cfg). by rewrite List.map_map.
  - intros x (t & a & _ & _ & ->)%Hin. apply info_state.
  - set (vs := List.filter _ _).
    destruct (0 <? length (List.map virus_warning vs)) eqn:Hv.
    + split; [|done]. apply Nat.ltb_lt in Hv. intros E. rewrite E in Hv. simpl in Hv. lia.
    + apply Nat.ltb_ge in Hv. rewrite length_map in Hv.
      assert (Hnil : vs = []) by (destruct vs; [done | simpl in Hv; lia]).
      intros x Hx Hs. pose proof (proj1 (filter_none _ _) Hnil x Hx) as Hf.
      simpl in Hf. unfold jsstr_eqb in Hf. by rewrite bool_decide_eq_false in Hf.
  - intros x (t & a & Ht & Ha & ->)%Hin. rewrite find_attachment_spec. simpl.
    assert (Hw : a ∈ with_id (att_id a) (threads_of answer)).
    { apply with_id_elem. split; [done|]. by exists t. }
    destruct (with_id (att_id a) (threads_of answer)) as [|b l] eqn:E;
      [by apply elem_of_nil in Hw|].
    exists b. split; [done|].
    assert (Hb : b ∈ with_id (att_id a) (threads_of answer)) by (rewrite E; left).
    by apply with_id_elem in Hb as [Hb _].
Qed.


End AttachmentExtras.

Module SetupFacts.
Import Chars Regex JS HtmlStripper Effects Query TextSpec Tools Threads Setup SetupSpec.
Import RegexFacts MarkupFacts.

(** *** Replacing a code unit with the run of a class behind it *)

Section Prefixed.
Context (c0 : N) (p : N -> bool) (lo : nat) (by_ : jsstr).

Local Abbreviation r := (Seq (chr c0) (at_least lo (Cls p))).

Lemma first_match_prefixed (pv : option N) (s : jsstr) :
  first_match r pv s
  = match s with
    | c :: t => if (c0 =? c)%N && (lo <=? span p t)
                then Some (c :: take (span p t) t) else None
    | [] => None
    end.
Proof.
  unfold first_match.
  change (run (Seq ?a ?b) ?x) with (flat_map (run b) (run a x)).
  destruct s as [|c t]; [done|].
  change (run (chr c0) (pv, c :: t)) with (if (c0 =? c)%N then [(Some c, t)] else []).
  destruct (c0 =? c)%N; [|done].
  cbn [flat_map andb]. rewrite app_nil_r. unfold at_least. rewrite run_rep_cls.
  pose proof (cls_loop_greedy p 1 (le_n 1) t lo (Some c)) as H.
  destruct (cls_loop p true lo None (Some c) t) as [|[pv' rest] l].
  - by apply Nat.leb_gt in H as ->.
  - destruct H as [H ->]. apply Nat.leb_le in H as ->. f_equal.
    cbn [snd]. rewrite length_drop. pose proof (span_le p t).
    replace (length (c :: t) - (length t - span p t)) with (S (span p t))
      by (simpl; lia).
    done.
Qed.

Lemma tokens_prefixed_prev (pv pv' : option N) (s : jsstr) (k : nat) :
  tokens_from r pv s k = tokens_from r pv' s k.
Proof.
  destruct k as [|k], s as [|c t]; try reflexivity.
Qed.

Lemma tokens_prefixed_drop (k : nat) :
  forall (s : jsstr) (pv : option N),
    tokens_from r pv s k = tokens_from r None (drop k s) 0.
Proof.
  induction k as [|k IH]; intros s pv.
  - rewrite drop_0. apply tokens_prefixed_prev.
  - destruct s as [|c t]; [done|]. rewrite tokens_from_skip. apply IH.
Qed.

Lemma replace_prefixed_nil : replace_all r (fun _ => by_) [] = [].
Proof. reflexivity. Qed.

(** The code unit and the whole run behind it are replaced together; a
    code unit at which no match begins is copied. *)
Lemma replace_prefixed_cons (c : N) (t : jsstr) :
  replace_all r (fun _ => by_) (c :: t)
  = if (c0 =? c)%N && (lo <=? span p t)
    then by_ ++ replace_all r (fun _ => by_) (drop (span p t) t)
    else c :: replace_all r (fun _ => by_) t.
Proof.
  unfold replace_all, tokens. rewrite tokens_from_cons, first_match_prefixed.
  destruct ((c0 =? c)%N && (lo <=? span p t)).
  - rewrite tokens_prefixed_drop, length_take.
    pose proof (span_le p t). by replace (span p t `min` length t) with (span p t) by lia.
  - by rewrite (tokens_prefixed_prev (Some c) None).
Qed.

Lemma replace_prefixed_ind (P : jsstr -> jsstr -> Prop) :
  P [] [] ->
  (forall c t, (c0 =? c)%N && (lo <=? span p t) = false ->
     P t (replace_all r (fun _ => by_) t) ->
     P (c :: t) (c :: replace_all r (fun _ => by_) t)) ->
  (forall t u, lo <= span p t -> u = drop (span p t) t ->
     P u (replace_all r (fun _ => by_) u) ->
     P (c0 :: t) (by_ ++ replace_all r (fun _ => by_) u)) ->
  forall s, P s (replace_all r (fun _ => by_) s).
Proof.
  intros Hnil Hcopy Hrun s.
  remember (length s) as n eqn:Hn. revert s Hn.
  induction n as [n IH] using lt_wf_ind. intros s Hn.
  destruct s as [|c t]; [done|].
  rewrite replace_prefixed_cons. destruct ((c0 =? c)%N && (lo <=? span p t)) eqn:E.
  - apply andb_true_iff in E as [->%N.eqb_eq E%Nat.leb_le].
    apply (Hrun t _ E eq_refl).
    apply (IH (length (drop (span p t) t))); [|done].
    rewrite length_drop. subst n. simpl length. lia.
  - apply (Hcopy c t E). apply (IH (length t)); [subst n; simpl; lia | done].
Qed.

End Prefixed.

(** *** Runs across a concatenation *)

Section Joins.
Context (p : N -> bool).

Lemma span_stop (a b : jsstr) (x : N) :
  p x = false -> span p (a ++ x :: b) = span p (a ++ [x]).
Proof.
  intros Hx. induction a as [|c a IH]; simpl; [by rewrite Hx|].
  destruct (p c); [by rewrite IH | done].
Qed.

Lemma short_runs_join (n : nat) (a b : jsstr) (x : N) :
  p x = false ->
  short_runs p n (a ++ [x]) = true -> short_runs p n b = true ->
  short_runs p n (a ++ x :: b) = true.
Proof.
  intros Hx. induction a as [|c a IH]; intros Ha Hb.
  - simpl in Ha |- *. rewrite Hx in Ha |- *. by rewrite Hb.
  - change ((c :: a) ++ x :: b) with (c :: (a ++ x :: b)).
    change ((c :: a) ++ [x]) with (c :: (a ++ [x])) in Ha.
    cbn [short_runs] in Ha |- *. apply andb_true_iff in Ha as [H1 H2].
    rewrite IH by done. rewrite andb_true_r.
    change (c :: a ++ x :: b) with ((c :: a) ++ x :: b).
    by rewrite span_stop.
Qed.

Lemma span_end (a b : jsstr) : span p b = 0 -> span p (a ++ b) = span p a.
Proof.
  intros Hb. induction a as [|c a IH]; [done|].
  simpl. by rewrite IH.
Qed.

Lemma short_runs_end (n : nat) (a b : jsstr) :
  span p b = 0 ->
  short_runs p n a = true -> short_runs p n b = true ->
  short_runs p n (a ++ b) = true.
Proof.
  intros Hz. induction a as [|c a IH]; intros Ha Hb; [done|].
  change ((c :: a) ++ b) with (c :: (a ++ b)).
  cbn [short_runs] in Ha |- *. apply andb_true_iff in Ha as [H1 H2].
  rewrite IH by done. rewrite andb_true_r.
  change (c :: a ++ b) with ((c :: a) ++ b). by rewrite span_end.
Qed.

End Joins.

(** *** The two replacements of the fallback *)

Lemma re_path_eq : re_path = Seq (chr 47) (at_least 1 (Cls not_space)).
Proof. reflexivity. Qed.

Lemma redact_tokens_short (s : jsstr) :
  no_token (replace_all re_token (fun _ => str "[REDACTED]") s) = true.
Proof.
  unfold no_token, re_token.
  enough (H : short_runs is_token_char 20
                (replace_all (at_least 20 (Cls is_token_char))
                   (fun _ => str "[REDACTED]") s) = true
              /\ span is_token_char
                   (replace_all (at_least 20 (Cls is_token_char))
                      (fun _ => str "[REDACTED]") s)
                 <= span is_token_char s) by apply H.
  apply (replace_runs_ind is_token_char 20 (str "[REDACTED]") ltac:(lia)
           (fun s out => short_runs is_token_char 20 out = true
                         /\ span is_token_char out <= span is_token_char s)).
  - done.
  - intros c t Hc (IH1 & IH2).
    assert (Hs : span is_token_char
                   (c :: replace_all (at_least 20 (Cls is_token_char))
                           (fun _ => str "[REDACTED]") t)
                 <= span is_token_char (c :: t)).
    { cbn [span]. destruct (is_token_char c); lia. }
    split; [|done]. cbn [short_runs]. rewrite IH1, andb_true_r.
    apply Nat.ltb_lt. lia.
  - intros c t u Hc Hu (IH1 & IH2). split.
    + apply (short_runs_join is_token_char 20 (str "[REDACTED") _ 93%N);
        [done | by vm_compute | done].
    + change (span is_token_char (str "[REDACTED]" ++ ?l)) with 0. lia.
Qed.

Lemma redact_tokens_fixed (s : jsstr) :
  no_token s = true -> replace_all re_token (fun _ => str "[REDACTED]") s = s.
Proof. apply replace_runs_short. lia. Qed.

Lemma redact_paths_short (s : jsstr) :
  no_token s = true ->
  no_token (replace_all re_path (fun _ => str "[PATH]") s) = true.
Proof.
  rewrite re_path_eq. unfold no_token.
  enough (H : short_runs is_token_char 20 s = true ->
              short_runs is_token_char 20
                (replace_all (Seq (chr 47) (at_least 1 (Cls not_space)))
                   (fun _ => str "[PATH]") s) = true
              /\ span is_token_char
                   (replace_all (Seq (chr 47) (at_least 1 (Cls not_space)))
                      (fun _ => str "[PATH]") s)
                 <= span is_token_char s) by (intros Hs; by apply H).
  apply (replace_prefixed_ind 47 not_space 1 (str "[PATH]")
           (fun s out => short_runs is_token_char 20 s = true ->
                         short_runs is_token_char 20 out = true
                         /\ span is_token_char out <= span is_token_char s)).
  - done.
  - intros c t _ IH Hs. cbn [short_runs] in Hs.
    apply andb_true_iff in Hs as [H1%Nat.ltb_lt H2].
    destruct (IH H2) as [IH1 IH2].
    assert (Hle : span is_token_char
                    (c :: replace_all (Seq (chr 47) (at_least 1 (Cls not_space)))
                            (fun _ => str "[PATH]") t)
                  <= span is_token_char (c :: t)).
    { cbn [span]. destruct (is_token_char c); lia. }
    split; [|done]. cbn [short_runs]. rewrite IH1, andb_true_r.
    apply Nat.ltb_lt. lia.
  - intros t u _ Hu IH Hs.
    assert (Hu' : short_runs is_token_char 20 u = true).
    { subst u. apply short_runs_drop. by apply short_runs_tail in Hs. }
    destruct (IH Hu') as [IH1 _]. split.
    + apply (short_runs_join is_token_char 20 (str "[PATH") _ 93%N);
        [done | by vm_compute | done].
    + change (span is_token_char (str "[PATH]" ++ ?l)) with 0. lia.
Qed.

Lemma space_not_solidus (d : N) : is_space d = true -> (47 =? d)%N = false.
Proof.
  intros H. apply N.eqb_neq. intros <-. by vm_compute in H.
Qed.

Lemma span_not_space_zero (t : jsstr) :
  span not_space t = 0 <-> match t with [] => True | d :: _ => is_space d = true end.
Proof.
  destruct t as [|d t]; [done|]. simpl. unfold not_space.
  destruct (is_space d); simpl; split; (done || lia).
Qed.

Lemma redact_paths_none (s : jsstr) :
  no_path (replace_all re_path (fun _ => str "[PATH]") s) = true.
Proof.
  rewrite re_path_eq.
  apply (replace_prefixed_ind 47 not_space 1 (str "[PATH]")
           (fun s out => no_path out = true)).
  - done.
  - intros c t Hc IH. cbn [no_path]. rewrite IH, andb_true_r.
    destruct (c =? 47)%N eqn:Ec; [|done].
    apply N.eqb_eq in Ec as ->. cbn [negb orb].
    change (47 =? 47)%N with true in Hc. cbn [andb] in Hc.
    apply Nat.leb_gt in Hc.
    assert (Hz : span not_space t = 0) by lia.
    apply span_not_space_zero in Hz.
    destruct t as [|d t]; [done|].
    rewrite replace_prefixed_cons, (space_not_solidus d Hz). done.
  - intros t u _ _ IH.
    change (str "[PATH]" ++ ?l) with (91 :: 80 :: 65 :: 84 :: 72 :: 93 :: l)%N.
    cbn [no_path]. rewrite IH. done.
Qed.

Lemma redact_paths_fixed (s : jsstr) :
  no_path s = true -> replace_all re_path (fun _ => str "[PATH]") s = s.
Proof.
  rewrite re_path_eq. induction s as [|c t IH]; [done|].
  cbn [no_path]. intros [H1 H2]%andb_true_iff.
  rewrite replace_prefixed_cons, IH by done.
  destruct (47 =? c)%N eqn:Ec; [|done].
  apply N.eqb_eq in Ec as <-. cbn [andb].
  change (47 =? 47)%N with true in H1. cbn [negb orb] in H1.
  assert (Hz : span not_space t = 0) by (apply span_not_space_zero; by destruct t).
  by rewrite Hz.
Qed.

End SetupFacts.

Module SetupExtras.
Import Chars Regex JS HtmlStripper Effects Query TextSpec Tools Threads Setup SetupSpec.
Import RegexFacts MarkupFacts SetupFacts.

(** X15.  [validateConfig] accepts the environment exactly when
    HELPSCOUT_API_KEY does not begin with the word Bearer and a blank,
    one of HELPSCOUT_APP_ID, HELPSCOUT_CLIENT_ID and HELPSCOUT_API_KEY
    and one of HELPSCOUT_APP_SECRET and HELPSCOUT_CLIENT_SECRET is set
    and not empty, and HELPSCOUT_BASE_URL is unset, empty or begins with
    https://.  The errors are reported in that order, and a
    configuration that is accepted always has a base URL that begins
    with https://. *)
Theorem validateConfig_accepts (e : env) :
  let bearer := begins e "HELPSCOUT_API_KEY" "Bearer " in
  let id := given e "HELPSCOUT_APP_ID" || given e "HELPSCOUT_CLIENT_ID"
            || given e "HELPSCOUT_API_KEY" in
  let secret := given e "HELPSCOUT_APP_SECRET" || given e "HELPSCOUT_CLIENT_SECRET" in
  let https := negb (given e "HELPSCOUT_BASE_URL")
               || begins e "HELPSCOUT_BASE_URL" "https://" in
  validateConfig e
  = (if bearer then inl (OtherError token_message)
     else if negb (id && secret) then inl (OtherError oauth_message)
     else if negb https
          then inl (OtherError (https_message (or_str (e "HELPSCOUT_BASE_URL"%string) [])))
          else inr tt)
  /\ (validateConfig e = inr tt <-> negb bearer && id && secret && https = true)
  /\ (validateConfig e = inr tt ->
      startsWith (baseUrl (config_helpscout e)) (str "https://") = true).
Proof.
  intros bearer id secret https.
  assert (H : validateConfig e
              = (if bearer then inl (OtherError token_message)
                 else if negb (id && secret) then inl (OtherError oauth_message)
                 else if negb https
                      then inl (OtherError
                                  (https_message (or_str (e "HELPSCOUT_BASE_URL"%string) [])))
                      else inr tt)
              /\ (https = true ->
                  startsWith (baseUrl (config_helpscout e)) (str "https://") = true)).
  { subst bearer id secret https. unfold validateConfig, begins, given.
    cbv zeta. unfold config_helpscout. cbn [clientId clientSecret baseUrl].
    unfold or_str, or_text.
    destruct (e "HELPSCOUT_API_KEY"%string) as [[|k1 k]|];
      destruct (e "HELPSCOUT_APP_ID"%string) as [[|a1 a]|];
      destruct (e "HELPSCOUT_CLIENT_ID"%string) as [[|b1 b]|];
      destruct (e "HELPSCOUT_APP_SECRET"%string) as [[|s1 s]|];
      destruct (e "HELPSCOUT_CLIENT_SECRET"%string) as [[|t1 t]|];
      destruct (e "HELPSCOUT_BASE_URL"%string) as [[|u1 u]|];
      cbn -[startsWith str token_message oauth_message https_message];
      try change (startsWith [] (str "Bearer ")) with false;
      try change (startsWith (str "https://api.helpscout.net/v2/") (str "https://"))
            with true;
      try (destruct (startsWith (k1 :: k) (str "Bearer ")));
      try (destruct (startsWith (u1 :: u) (str "https://")) eqn:Hu);
      cbn -[startsWith str token_message oauth_message https_message];
      split; done. }
  destruct H as [H Hs]. split; [exact H|]. split.
  - rewrite H. destruct bearer, id, secret, https; simpl; split; done.
  - rewrite H. destruct bearer, id, secret, https; simpl; try done.
    all: intros _; by apply Hs.
Qed.

(** X16.  The error text in the fallback instructions of the inbox
    discovery is sanitised: whatever the raw message, the sanitised text
    has no run of twenty or more letters, digits, underscores and
    hyphens, and every solidus in it is its last code unit or is
    followed by white space; the whole instructions have no such run
    either.  A message that has neither is shown as it is. *)
Theorem fallback_is_sanitised (rawError : jsstr) :
  no_token (sanitize rawError) = true
  /\ no_path (sanitize rawError) = true
  /\ no_token (fallback_instructions rawError) = true
  /\ (no_token rawError = true -> no_path rawError = true ->
      sanitize rawError = rawError).
Proof.
  assert (Ht : no_token (sanitize rawError) = true)
    by apply redact_paths_short, redact_tokens_short.
  split; [exact Ht|]. split; [apply redact_paths_none|]. split.
  - unfold fallback_instructions. cbv zeta.
    set (pre := str "Help Scout MCP Server - Read-only access to conversations."
                ++ [LF; LF] ++ str "Note: Inbox auto-discovery failed").
    change (no_token ((pre ++ [40%N]) ++ sanitize rawError
                      ++ str "). Use listAllInboxes tool to see available inboxes.")
            = true).
    rewrite <- app_assoc.
    apply (short_runs_join is_token_char 20 pre _ 40%N); [done | by vm_compute |].
    apply short_runs_end; [done | exact Ht | by vm_compute].
  - intros H1 H2. unfold sanitize. by rewrite redact_tokens_fixed, redact_paths_fixed.
Qed.

End SetupExtras.

Module SearchExtras.
Import Chars Regex JS Effects Query Search SearchSpec QueryTerms QuerySpec Tools ToolSpec
       Scenario.
Import EffectFacts ToolFacts.

Lemma bind_ret {A B : Type} (a : A) (f : A -> M B) : mret a ≫= f = f a.
Proof. apply (bind_lift_inr a f). Qed.

(** X17.  With an explicit status [searchConversations] sends one
    request, for that status, and neither merges, sorts nor cuts: what
    it returns are the conversations of the answer that pass the
    [createdBefore] filter, in the order of the answer, with the page
    object of the API (or, when the filter removed something, the two
    counts) and that one status as the statuses searched.  Every error
    ends the search: a malformed date, an error of the API of any code,
    and a [createdBefore] that is no date, which is noticed only after
    the request. *)
Theorem explicit_status_search (api : transport) (i : input) (s : status) :
  in_status i = Some s ->
  match sent_query i with
  | inl e => searchConversations api i = ([], inl e)
  | inr q =>
      match api (base_request i q s) with
      | inl e => searchConversations api i = ([], inl e)
      | inr resp =>
          let convs := conversations_of resp in
          let kept := kept_by (createdBefore i) convs in
          match invalid_before (createdBefore i) with
          | Some e => searchConversations api i = ([], inl e)
          | None =>
              searchConversations api i
              = (filter_log (length convs) (length kept),
                 inr {| results := kept;
                        r_pagination :=
                          accounted (length convs) (length kept) (page_of resp);
                        statusesSearched := [s];
                        clientSideFiltering := 0 <? length convs - length kept |})
          end
      end
  end.
Proof.
  intros Hs. unfold searchConversations, sent_query. cbv zeta.
  set (baseQuery := if ofalsy (query i) then None else query i).
  destruct (appendCreatedAtFilter baseQuery (createdAfter i) None) as [e|qd]; [done|].
  rewrite bind_lift_inr. set (q := if ofalsy qd then baseQuery else qd).
  unfold fetch. rewrite Hs.
  destruct (api (base_request i q s)) as [e|resp]; [done|].
  rewrite bind_lift_inr, bind_ret.
  assert (Hall : forall cb,
            kept_by cb (conversations_of resp) = conversations_of resp ->
            (mret {| results := conversations_of resp;
                     r_pagination := ApiPage (page_of resp);
                     statusesSearched := [s]; clientSideFiltering := false |}
               : M search_result)
            = (filter_log (length (conversations_of resp))
                 (length (kept_by cb (conversations_of resp))),
               inr {| results := kept_by cb (conversations_of resp);
                      r_pagination :=
                        accounted (length (conversations_of resp))
                          (length (kept_by cb (conversations_of resp))) (page_of resp);
                      statusesSearched := [s];
                      clientSideFiltering :=
                        0 <? length (conversations_of resp)
                             - length (kept_by cb (conversations_of resp)) |})).
  { intros cb ->. unfold filter_log, accounted. by rewrite Nat.sub_diag. }
  destruct (createdBefore i) as [[[|c text] [t|]]|];
    [by apply Hall | by apply Hall | | done | by apply Hall].
  change (falsy (fst (c :: text, Some t))) with false. cbv iota.
  unfold applyCreatedBeforeFilter, kept_by, invalid_before, filter_log, accounted.
  cbn [snd]. cbv zeta. fold (before t).
  destruct (0 <? length (conversations_of resp)
                 - length (List.filter (before t) (conversations_of resp))); done.
Qed.

Lemma explicit_status_search_witness :
  outcome (searchConversations api_twenty (search_active_before 600))
  = inr {| results := [conv 1 100; conv 2 200; conv 3 300; conv 4 400; conv 5 500];
           r_pagination :=
             accounted 8 5 (Some {| totalElements := Some 20 |});
           statusesSearched := [active];
           clientSideFiltering := true |}.
Proof.
  pose proof (explicit_status_search api_twenty (search_active_before 600) active
                eq_refl) as H.
  change (sent_query (search_active_before 600)) with (@inr thrown _ (@None jsstr)) in H.
  cbv beta iota zeta in H. rewrite H. reflexivity.
Defined.

End SearchExtras.

Module InboxExtras.
Import Chars Regex JS Effects QueryTerms Threads Inboxes.
Import ToolFacts.

Lemma includes_empty (s : jsstr) : includes_text s [] = true.
Proof. by destruct s. Qed.

Lemma filter_true {A : Type} (p : A -> bool) (l : list A) :
  (forall x, p x = true) -> List.filter p l = l.
Proof. intros H. induction l as [|x l IH]; simpl; [done|]. by rewrite H, IH. Qed.

(** X18.  [searchInboxes] asks for one page of inboxes and keeps, in
    the order of the answer, those whose name contains the query, both
    in lower case.  The empty query keeps every inbox of the page, as
    the hint for an empty result says.  For every query [totalFound] is
    the number of results and is at most [totalAvailable], the number of
    inboxes on the page; the example is absent, and the hint is the one
    for an empty result, exactly when nothing was found. *)
Theorem empty_query_lists_all (toLowerCase : jsstr -> jsstr)
    (mailboxes : nat -> thrown + option (list Inbox)) (query : jsstr) (limit : nat) :
  toLowerCase [] = [] ->
  match mailboxes limit with
  | inl e => searchInboxes toLowerCase mailboxes query limit = inl e
  | inr response =>
      let inboxes := default [] response in
      exists r r0,
        searchInboxes toLowerCase mailboxes query limit = inr r
        /\ searchInboxes toLowerCase mailboxes [] limit = inr r0
        /\ is_results r0 = List.map entry_of inboxes
        /\ totalFound r0 = length inboxes
        /\ is_results r
           = List.map entry_of
               (List.filter (fun inbox => includes_text (toLowerCase (inbox_name inbox))
                                                        (toLowerCase query)) inboxes)
        /\ totalFound r = length (is_results r)
        /\ is_totalAvailable r = length inboxes
        /\ totalFound r <= is_totalAvailable r
        /\ (example r = None <-> totalFound r = 0)
        /\ (usage r = usage_none <-> totalFound r = 0)
  end.
Proof.
  intros Hlow. unfold searchInboxes.
  destruct (mailboxes limit) as [e|response]; [done|]. cbv zeta.
  eexists _, _. split; [reflexivity|]. split; [reflexivity|]. simpl.
  rewrite Hlow.
  assert (Hall : List.filter (fun inbox => includes_text (toLowerCase (inbox_name inbox)) [])
                   (default [] response)
                 = default [] response).
  { apply filter_true. intros x. apply includes_empty. }
  rewrite Hall. clear Hall. set (found := List.filter _ _). split_and!; try done.
  - by rewrite length_map.
  - apply filter_length.
  - by destruct found.
  - destruct found; [done|].
    split; intros H; [|discriminate H]. by vm_compute in H.
Qed.

Lemma empty_query_lists_all_witness :
  exists r,
    searchInboxes (List.map lower)
      (fun _ => inr (Some [ {| inbox_id := str "7"; inbox_name := str "Support";
                               inbox_email := str "help@acme.com";
                               inbox_slug := str "support";
                               inbox_createdAt := str "2024-01-01T00:00:00Z";
                               inbox_updatedAt := str "2024-01-02T00:00:00Z" |} ]))
      [] 50 = inr r
    /\ totalFound r = 1.
Proof.
  pose proof (empty_query_lists_all (List.map lower)
                (fun _ => inr (Some [ {| inbox_id := str "7"; inbox_name := str "Support";
                                         inbox_email := str "help@acme.com";
                                         inbox_slug := str "support";
                                         inbox_createdAt := str "2024-01-01T00:00:00Z";
                                         inbox_updatedAt := str "2024-01-02T00:00:00Z" |} ]))
                [] 50 eq_refl) as H.
  cbv beta iota zeta in H. destruct H as (r & r0 & _ & Hr0 & _ & Hn & _).
  exists r0. split; [exact Hr0 | exact Hn].
Defined.

End InboxExtras.

Module CutExtras.
Import Chars Regex JS HtmlStripper TextSpec CutSpec.
Import RegexFacts MarkupFacts ThreadFacts.

Lemma search_from_bound (r : re) (s : jsstr) :
  forall pv idx i m, search_from r pv s idx = Some (i, m) -> idx <= i <= idx + length s.
Proof.
  induction s as [|c t IH]; intros pv idx i m; simpl.
  - destruct (first_match r pv []); [|done]. intros [= <- _]. lia.
  - destruct (first_match r pv (c :: t)).
    + intros [= <- _]. lia.
    + intros H%IH. lia.
Qed.

Lemma first_index_bound (p : re) (text : jsstr) (i : nat) :
  first_index p text = Some i -> i <= length text.
Proof.
  unfold first_index, search.
  destruct (search_from p None text 0) as [[j m]|] eqn:E; [|done].
  intros [= <-]. apply search_from_bound in E. simpl. lia.
Qed.

Lemma cut_html_quote_cases (ps : list re) (text : jsstr) :
  (cut_html_quote ps text = text /\ forall q, q ∈ ps -> cuts text q = false)
  \/ (exists ps1 p ps2 n,
        ps = ps1 ++ p :: ps2
        /\ (forall q, q ∈ ps1 -> cuts text q = false)
        /\ first_index p text = Some n /\ 50 < n
        /\ cut_html_quote ps text = take n text).
Proof.
  induction ps as [|p ps IH].
  - left. split; [done|]. by intros q ?%elem_of_nil.
  - cbn [cut_html_quote].
    assert (Hcase : cuts text p = false ->
              match search p text with
              | Some (i, _) => if 50 <? i then take i text else cut_html_quote ps text
              | None => cut_html_quote ps text
              end = cut_html_quote ps text).
    { unfold cuts, first_index. destruct (search p text) as [[i m]|]; [|done].
      simpl. by intros ->. }
    destruct (cuts text p) eqn:Hp.
    + right. unfold cuts, first_index in Hp.
      destruct (search p text) as [[i m]|] eqn:E; [|done]. simpl in Hp.
      exists [], p, ps, i. rewrite Hp. split; [done|].
      split; [by intros q ?%elem_of_nil|]. unfold first_index. rewrite E.
      split; [done|]. split; [by apply Nat.ltb_lt|done].
    + change (firstn ?n ?l) with (take n l). rewrite (Hcase eq_refl).
      destruct IH as [[H1 H2]|(ps1 & p' & ps2 & n & -> & H1 & H2 & H3 & H4)].
      * left. split; [done|]. intros q [->|Hq]%elem_of_cons; [done | by apply H2].
      * right. exists (p :: ps1), p', ps2, n. split; [done|].
        split; [|done]. intros q [->|Hq]%elem_of_cons; [done | by apply H1].
Qed.

(** X19.  Before the tags are stripped, [stripHtml] cuts the HTML at a
    quote marker: the patterns are tried in their order, and the first
    one whose leftmost match begins behind the first 51 code units cuts
    the text there.  A pattern whose leftmost match begins earlier cuts
    nothing, whatever follows that match.  So what is kept is either the
    whole text or a proper beginning of it of more than 50 code units. *)
Theorem html_quote_cut (h : jsstr) (maxLength : option Z) :
  let kept := cut_html_quote htmlQuotePatterns h in
  stripHtml h maxLength = (if falsy h then [] else cap maxLength (to_text kept))
  /\ ((kept = h /\ forall q, q ∈ htmlQuotePatterns -> cuts h q = false)
      \/ (exists ps1 p ps2 n,
            htmlQuotePatterns = ps1 ++ p :: ps2
            /\ (forall q, q ∈ ps1 -> cuts h q = false)
            /\ first_index p h = Some n
            /\ 50 < n <= length h
            /\ kept = take n h /\ length kept = n))
  /\ (forall p i, first_index p h = Some i -> i <= 50 -> cut_html_quote [p] h = h).
Proof.
  intros kept. split; [done|]. split.
  - destruct (cut_html_quote_cases htmlQuotePatterns h)
      as [H|(ps1 & p & ps2 & n & H1 & H2 & H3 & H4 & H5)]; [by left|].
    right. exists ps1, p, ps2, n. pose proof (first_index_bound _ _ _ H3) as Hn.
    split_and!; try done. subst kept. rewrite H5, length_take. lia.
  - intros p i Hi Hle. unfold first_index in Hi. cbn [cut_html_quote].
    destruct (search p h) as [[j m]|]; [|done]. simpl in Hi. injection Hi as ->.
    by replace (50 <? i) with false by (symmetry; apply Nat.ltb_ge; lia).
Qed.

End CutExtras.

Module ServerExtras.
Import Chars Regex JS Effects QueryTerms Threads Inboxes Setup SetupSpec Server
       ServerScenario.

(** X20.  Creating and starting the server never throws: it ends
    listening or with [process.exit(1)].  The inboxes are requested only
    with a configuration that [validateConfig] accepts, and the
    connection test is made exactly when the configuration is accepted
    and the discovery found no inbox.  The transport is connected only
    when the configuration is accepted and either the discovery found an
    inbox or the connection test answered true; the server ends
    listening exactly when moreover the connection of the transport
    succeeds, and then nothing was done after [process.stdin.resume()]
    and the process was never told to exit. *)
Theorem server_starts_guarded (w : world) :
  let r := boot w in
  let valid := validateConfig (w_env w) = inr tt in
  let found :=
    match validateConfig (w_env w), w_mailboxes w 100 with
    | inr _, inr response => default [] response
    | _, _ => []
    end in
  let reachable := found <> [] \/ w_testConnection w = inr true in
  (snd r = inr Listening \/ snd r = inr (Exited 1))
  /\ (forall n, GetMailboxes n ∈ fst r -> n = 100 /\ valid)
  /\ (TestConnection ∈ fst r <-> valid /\ found = [])
  /\ (Connect ∈ fst r <-> valid /\ reachable)
  /\ (snd r = inr Listening <-> valid /\ reachable /\ w_connect w = inr tt)
  /\ (snd r = inr Listening ->
      last (fst r) = Some Resume /\ forall c, Exit c ∉ fst r)
  /\ (snd r = inr (Exited 1) -> last (fst r) = Some (Exit 1)).
Proof.
  intros r valid found reachable. subst r valid found reachable.
  unfold boot, create, discoverAndBuildInstructions, start.
  destruct (validateConfig (w_env w)) as [e|[]].
  - cbn -[str fallback_instructions]. split_and!.
    + by right.
    + intros n H. repeat (apply elem_of_cons in H as [H|H]; [discriminate H|]).
      by apply elem_of_nil in H.
    + split; [|by intros [? _]]. intros H.
      repeat (apply elem_of_cons in H as [H|H]; [discriminate H|]).
      by apply elem_of_nil in H.
    + split; [|by intros [? _]]. intros H.
      repeat (apply elem_of_cons in H as [H|H]; [discriminate H|]).
      by apply elem_of_nil in H.
    + split; [done | by intros [? _]].
    + done.
    + done.
  - destruct (w_mailboxes w 100) as [e|[[|inbox l]|]];
      destruct (w_testConnection w) as [e'|[|]];
      destruct (w_connect w) as [e''|[]];
      cbn -[str fallback_instructions instructions_for];
      (split_and!;
       [ first [by left | by right]
       | intros n H;
         repeat (apply elem_of_cons in H as [H|H];
                 [first [by injection H as -> | discriminate H]|]);
         by apply elem_of_nil in H
       | split;
         [ intros H;
           repeat (apply elem_of_cons in H as [H|H]; [first [done | discriminate H]|]);
           by apply elem_of_nil in H
         | intros [_ H]; first [discriminate H | by repeat constructor] ]
       | split;
         [ intros H;
           repeat (apply elem_of_cons in H as [H|H];
                   [first [split; [done|]; first [by left | by right] | discriminate H]|]);
           by apply elem_of_nil in H
         | intros [_ [H|H]]; first [done | discriminate H | by repeat constructor] ]
       | split;
         [ first [done | intros _; split; [done|]; split; [|done];
                         first [by left | by right]]
         | intros (_ & [H|H] & H'); first [done | discriminate H | discriminate H'] ]
       | first [ done
               | intros _; split; [done|]; intros c H;
                 repeat (apply elem_of_cons in H as [H|H]; [discriminate H|]);
                 by apply elem_of_nil in H ]
       | done ]).
Qed.

Lemma server_starts_guarded_witness :
  snd (boot healthy) = inr Listening /\ Connect ∈ fst (boot healthy).
Proof.
  pose proof (server_starts_guarded healthy) as (_ & _ & _ & Hc & Hl & _).
  assert (Hv : validateConfig (w_env healthy) = inr tt) by (vm_compute; reflexivity).
  split.
  - apply Hl. split; [exact Hv|]. split; [|reflexivity]. left.
    rewrite Hv. simpl. discriminate.
  - apply Hc. split; [exact Hv|]. left. rewrite Hv. simpl. discriminate.
Defined.

End ServerExtras.

Module TimeFacts.
Import Chars Regex JS Effects Query Search SearchSpec TextSpec QueryTerms QuerySpec
       Tools ToolSpec TimeSpec.
Import RegexFacts QueryFacts MarkupFacts.

(** *** Ways to match *)

Lemma run_seq_reach (r1 r2 : re) (s s1 s2 : st) :
  s1 ∈ run r1 s -> s2 ∈ run r2 s1 -> s2 ∈ run (Seq r1 r2) s.
Proof.
  intros H1 H2. change (run (Seq r1 r2) s) with (flat_map (run r2) (run r1 s)).
  apply list_elem_of_In, in_flat_map. exists s1. by rewrite <- !list_elem_of_In.
Qed.

Lemma run_chr_reach (c : N) (pv : option N) (t : jsstr) :
  (Some c, t) ∈ run (chr c) (pv, c :: t).
Proof. simpl. rewrite N.eqb_refl. left. Qed.

Lemma run_eol_reach (pv : option N) : (pv, []) ∈ run Eol (pv, []).
Proof. left. Qed.

Lemma run_opt_take (r : re) (s s' : st) :
  s' ∈ run r s -> progress s s' = true -> s' ∈ run (opt r) s.
Proof.
  intros Hin Hp. unfold opt. cbn [run]. destruct s as [pv t]. cbn [snd].
  destruct t as [|c t]; [unfold progress in Hp; simpl in Hp; done|].
  cbn [length Nat.add rep_iter hi_is_zero]. apply elem_of_app. left.
  apply list_elem_of_In, in_flat_map. exists s'.
  split; [by apply list_elem_of_In|]. rewrite Hp. cbn [negb dec_hi pred].
  rewrite rep_iter_hi0. left. reflexivity.
Qed.

Lemma run_opt_chr (c : N) (pv : option N) (t : jsstr) :
  (Some c, t) ∈ run (opt (chr c)) (pv, c :: t).
Proof.
  unfold opt, chr. rewrite run_rep_cls. simpl. rewrite N.eqb_refl.
  apply elem_of_app. left. destruct t; left.
Qed.

(** A class repeated exactly as often as the text before [rest] is
    long. *)
Lemma run_exactly_reach (p : N -> bool) (ds rest : jsstr) :
  forallb p ds = true ->
  forall pv, exists pv',
    (pv', rest) ∈ run (exactly (length ds) (Cls p)) (pv, ds ++ rest).
Proof.
  intros Hp pv. unfold exactly. rewrite run_rep_cls. revert pv.
  induction ds as [|c ds IH]; intros pv.
  - exists pv. destruct rest; left.
  - simpl in Hp. apply andb_true_iff in Hp as [Hc Hp].
    destruct (IH Hp (Some c)) as [pv' H]. exists pv'.
    simpl. rewrite Hc. apply elem_of_app. by left.
Qed.

(** A class repeated at least once, over a text of the class. *)
Lemma run_plus_reach (p : N -> bool) (ds rest : jsstr) :
  forallb p ds = true -> ds <> [] ->
  forall pv, exists pv', (pv', rest) ∈ run (plus (Cls p)) (pv, ds ++ rest).
Proof.
  intros Hp Hne pv. unfold plus. rewrite run_rep_cls.
  assert (H : forall lo pv, lo <= length ds ->
            exists pv', (pv', rest) ∈ cls_loop p true lo None pv (ds ++ rest)).
  { clear Hne pv. induction ds as [|c ds IH]; intros lo pv Hlo.
    - simpl in Hlo. assert (lo = 0) as -> by lia. exists pv.
      destruct rest as [|d rest]; simpl; [left|].
      destruct (p d); [apply elem_of_app; right; left | left].
    - simpl in Hp. apply andb_true_iff in Hp as [Hc Hp].
      destruct (IH Hp (pred lo) (Some c)) as [pv' H]; [simpl in Hlo; lia|].
      exists pv'. simpl. rewrite Hc. apply elem_of_app. by left. }
  apply H. destruct ds; [done | simpl; lia].
Qed.

Lemma test_reach (r : re) (s : jsstr) (pv : option N) :
  (pv, []) ∈ run r (None, s) -> test (Seq Bol r) s = true.
Proof.
  intros H. rewrite test_bol. destruct (run r (None, s)); [|done].
  by apply elem_of_nil in H.
Qed.

(** A date with a time in seconds and a Z has the form of a date. *)
Lemma instant_valid (y m d h n s : jsstr) :
  length y = 4 -> length m = 2 -> length d = 2 ->
  forallb is_digit y = true -> forallb is_digit m = true ->
  forallb is_digit d = true -> forallb is_digit (h ++ n ++ s) = true ->
  h <> [] ->
  test isoDatePattern
    (y ++ 45%N :: m ++ 45%N :: d ++ 84%N :: h ++ 58%N :: n ++ 58%N :: s ++ [90%N])
  = true.
Proof.
  intros Ly Lm Ld Hy Hm Hd Ht Hh.
  set (dc := fun x => is_digit x || (x =? 58)%N || (x =? 46)%N).
  assert (Hdc : forallb dc (h ++ 58%N :: n ++ 58%N :: s) = true).
  { rewrite !forallb_app in Ht. apply andb_true_iff in Ht as [H1 H2].
    apply andb_true_iff in H2 as [H2 H3].
    assert (Hsub : forall l, forallb is_digit l = true -> forallb dc l = true).
    { intros l Hl. rewrite forallb_forall in Hl |- *. intros x Hx.
      unfold dc. by rewrite (Hl x Hx). }
    rewrite forallb_app. cbn [forallb]. rewrite forallb_app. cbn [forallb].
    rewrite !Hsub by done. reflexivity. }
  change isoDatePattern
    with (Seq Bol
            (Seq (exactly 4 digit) (Seq (chr 45) (Seq (exactly 2 digit) (Seq (chr 45)
               (Seq (exactly 2 digit)
                  (Seq (opt (Seq (chr 84) (Seq (plus (Cls dc)) (opt (chr 90))))) Eol))))))).
  destruct (run_exactly_reach is_digit y
              (45%N :: m ++ 45%N :: d ++ 84%N :: h ++ 58%N :: n ++ 58%N :: s ++ [90%N])
              Hy None) as [p1 H1].
  destruct (run_exactly_reach is_digit m
              (45%N :: d ++ 84%N :: h ++ 58%N :: n ++ 58%N :: s ++ [90%N])
              Hm (Some 45%N)) as [p2 H2].
  destruct (run_exactly_reach is_digit d
              (84%N :: h ++ 58%N :: n ++ 58%N :: s ++ [90%N])
              Hd (Some 45%N)) as [p3 H3].
  destruct (run_plus_reach dc (h ++ 58%N :: n ++ 58%N :: s) [90%N] Hdc
              ltac:(by destruct h) (Some 84%N)) as [p4 H4].
  rewrite Ly in H1. rewrite Lm in H2. rewrite Ld in H3.
  rewrite <- !app_assoc in H4. cbn [app] in H4. rewrite <- !app_assoc in H4.
  cbn [app] in H4.
  apply (test_reach _ _ (Some 90%N)).
  eapply run_seq_reach; [exact H1|].
  eapply run_seq_reach; [apply run_chr_reach|].
  eapply run_seq_reach; [exact H2|].
  eapply run_seq_reach; [apply run_chr_reach|].
  eapply run_seq_reach; [exact H3|].
  eapply run_seq_reach; [|apply run_eol_reach].
  apply run_opt_take.
  - eapply run_seq_reach; [apply run_chr_reach|].
    eapply run_seq_reach; [exact H4|]. apply run_opt_chr.
  - unfold progress. cbn [snd length]. apply Nat.ltb_lt. lia.
Qed.

(** Without its milliseconds an instant is a valid bound. *)
Lemma instant_normalized (iso : jsstr) :
  is_iso_instant iso = true ->
  strip_millis iso = take 19 iso ++ str "Z"
  /\ test isoDatePattern (strip_millis iso) = true.
Proof.
  unfold is_iso_instant.
  destruct iso as [|y1 [|y2 [|y3 [|y4 [|a [|m1 [|m2 [|b [|d1 [|d2 [|t [|h1 [|h2 [|c
    [|n1 [|n2 [|e [|s1 [|s2 [|f [|f1 [|f2 [|f3 [|z [|x l]]]]]]]]]]]]]]]]]]]]]]]]];
    try done.
  rewrite !andb_true_iff, !N.eqb_eq.
  intros [[[[[[[Hd ->] ->] ->] ->] ->] ->] ->].
  cbn [forallb] in Hd. rewrite !andb_true_iff in Hd.
  destruct Hd as (Hy1 & Hy2 & Hy3 & Hy4 & Hm1 & Hm2 & Hd1 & Hd2 & Hh1 & Hh2 & Hn1 & Hn2
                  & Hs1 & Hs2 & Hf1 & Hf2 & Hf3 & _).
  assert (Hs : strip_millis [y1; y2; y3; y4; 45; m1; m2; 45; d1; d2; 84; h1; h2; 58;
                             n1; n2; 58; s1; s2; 46; f1; f2; f3; 90]%N
               = [y1; y2; y3; y4; 45; m1; m2; 45; d1; d2; 84; h1; h2; 58;
                  n1; n2; 58; s1; s2; 90]%N).
  { cbv [strip_millis is_millis]. rewrite Hf1, Hf2, Hf3. reflexivity. }
  rewrite Hs. split; [done|].
  apply (instant_valid [y1; y2; y3; y4] [m1; m2] [d1; d2] [h1; h2] [n1; n2] [s1; s2]);
    try done; cbn [forallb app];
    by rewrite ?Hy1, ?Hy2, ?Hy3, ?Hy4, ?Hm1, ?Hm2, ?Hd1, ?Hd2, ?Hh1, ?Hh2, ?Hn1, ?Hn2,
               ?Hs1, ?Hs2.
Qed.

End TimeFacts.

Module TimeExtras.
Import Chars Regex JS Effects Query Search SearchSpec TextSpec QueryTerms QuerySpec
       Tools ToolSpec TimeSpec ToolScenario.
Import RegexFacts QueryFacts MarkupFacts TimeFacts ComprehensiveExtras.

(** X21.  Without a [createdAfter], the comprehensive search takes the
    instant that lies [timeframeDays] days back, and that default never
    fails the check of the date: for an instant in the form of
    [toISOString], YYYY-MM-DDTHH:mm:ss.sssZ, [calculateTimeRange] gives
    the instant with the milliseconds removed, which has the form of a
    date and no milliseconds left to strip, so that a query is built for
    every status. *)
Theorem default_time_range_is_valid (toISOString : nat -> jsstr)
    (input : comprehensive_input) :
  (forall days, is_iso_instant (toISOString days) = true) ->
  ofalsy (ci_createdAfter input) = true ->
  let c := buildComprehensiveSearchContext toISOString input in
  let d := ctx_createdAfter c in
  d = calculateTimeRange toISOString (timeframeDays input)
  /\ d = take 19 (toISOString (timeframeDays input)) ++ str "Z"
  /\ length d = 20
  /\ bad_date (Some d) = false
  /\ strip_millis d = d
  /\ exists q, single_query c = inr (Some q).
Proof.
  intros Hiso Hnone c d.
  assert (Hd : d = calculateTimeRange toISOString (timeframeDays input)).
  { subst d c. cbn [buildComprehensiveSearchContext ctx_createdAfter]. by rewrite Hnone. }
  destruct (instant_normalized _ (Hiso (timeframeDays input))) as [H1 H2].
  assert (Hn : d = strip_millis (toISOString (timeframeDays input))).
  { rewrite Hd. unfold calculateTimeRange. apply normalize_spec. }
  assert (Hlen : length d = 20).
  { rewrite Hn, H1, length_app, length_take.
    specialize (Hiso (timeframeDays input)). unfold is_iso_instant in Hiso.
    destruct (toISOString (timeframeDays input))
      as [|y1 [|y2 [|y3 [|y4 [|a [|m1 [|m2 [|b [|d1 [|d2 [|t [|h1 [|h2 [|c'
         [|n1 [|n2 [|e [|s1 [|s2 [|f [|f1 [|f2 [|f3 [|z [|x l]]]]]]]]]]]]]]]]]]]]]]]]];
      done. }
  assert (Hbad : bad_date (Some d) = false).
  { unfold bad_date. change (default [] (Some d)) with d.
    rewrite Hn, H2. by rewrite andb_false_r. }
  split; [exact Hd|]. split; [by rewrite Hn|]. split; [exact Hlen|].
  split; [exact Hbad|]. split.
  - rewrite Hn at 2. rewrite Hn, H1.
    pose proof (Hiso (timeframeDays input)) as Hi. unfold is_iso_instant in Hi.
    destruct (toISOString (timeframeDays input))
      as [|y1 [|y2 [|y3 [|y4 [|a [|m1 [|m2 [|b [|d1 [|d2 [|t [|h1 [|h2 [|c'
         [|n1 [|n2 [|e [|s1 [|s2 [|f [|f1 [|f2 [|f3 [|z [|x l]]]]]]]]]]]]]]]]]]]]]]]]];
      try done.
    rewrite !andb_true_iff, !N.eqb_eq in Hi.
    destruct Hi as [[[[[[[_ ->] ->] ->] ->] ->] ->] ->].
    cbn [take app str]. cbv [strip_millis is_millis].
    change (is_digit 58) with false. by destruct (n2 =? 46)%N.
  - destruct (single_query_ok c Hbad) as (q & Hq & _). by exists q.
Qed.

Lemma default_time_range_is_valid_witness :
  ctx_createdAfter
    (buildComprehensiveSearchContext (fun _ => str "2024-01-15T10:30:00.123Z")
       {| searchTerms := [str "refund"]; ci_statuses := [active]; searchIn := [BOTH];
          timeframeDays := 60; ci_createdAfter := None; ci_createdBefore := None;
          ci_limitPerStatus := 25 |})
  = str "2024-01-15T10:30:00Z".
Proof.
  pose proof (default_time_range_is_valid (fun _ => str "2024-01-15T10:30:00.123Z")
                {| searchTerms := [str "refund"]; ci_statuses := [active];
                   searchIn := [BOTH]; timeframeDays := 60; ci_createdAfter := None;
                   ci_createdBefore := None; ci_limitPerStatus := 25 |}
                (fun _ => eq_refl) eq_refl) as (_ & H & _).
  exact H.
Defined.

End TimeExtras.

Module ScopeExtras.
Import Chars Regex JS Effects Query Search SearchSpec TextSpec QueryTerms QuerySpec
       Tools ToolSpec ScopeSpec ToolScenario.
Import EffectFacts ToolFacts ToolExtras.

Lemma scoped_spec (explicit default_ : option jsstr) :
  scoped explicit default_ (when_truthy (or_text explicit default_))
    (formatInboxScope (or_text explicit default_) explicit).
Proof.
  unfold scoped, when_truthy, or_text, formatInboxScope.
  destruct explicit as [[|c m]|], default_ as [[|c' m']|]; simpl; try done.
  - split; [done|]. right. done.
  - split; [done|]. left. done.
  - split; [done|]. left. done.
  - split; [done|]. left. done.
  - split; [done|]. right. done.
Qed.

(** X22.  What [advancedConversationSearch] and
    [structuredConversationFilter] report as their inbox scope is what
    they asked the API for: the inbox of the arguments when it is given
    and not empty, else the default inbox of the configuration, else no
    mailbox at all, reported as all inboxes.  The advanced search adds
    its note about searching all inboxes exactly when it sent no
    mailbox. *)
Theorem inbox_scope_reported (cfg : option jsstr) (api : client) :
  (forall (i : advanced_input) (p : conv_params) (r : advanced_result),
     advanced_params cfg i = inr p ->
     outcome (advancedConversationSearch cfg api i) = inr r ->
     scoped (a_inboxId i) cfg (p_mailbox p) (ar_inboxScope r)
     /\ (ar_note r = None <-> p_mailbox p <> None))
  /\ (forall (i : structured_input) (p : conv_params) (r : structured_result),
        structured_params cfg i = inr p ->
        outcome (structuredConversationFilter cfg api i) = inr r ->
        scoped (s_inboxId i) cfg (p_mailbox p) (st_inboxScope r)).
Proof.
  split.
  - intros i p r Hp. rewrite advancedConversationSearch_eq, Hp.
    assert (Hm : p_mailbox p = when_truthy (or_text (a_inboxId i) cfg)).
    { unfold advanced_params in Hp.
      destruct (appendCreatedAtFilter _ _ _); [done|]. by injection Hp as <-. }
    destruct (api p) as [e|resp]; [done|]. cbv zeta.
    destruct (invalid_before (a_createdBefore i)); [done|].
    intros [= <-]. cbn [ar_inboxScope ar_note]. rewrite Hm.
    split; [apply scoped_spec|].
    unfold when_truthy. by destruct (ofalsy (or_text (a_inboxId i) cfg)) eqn:E;
      [|destruct (or_text (a_inboxId i) cfg)].
  - intros i p r Hp. rewrite structuredConversationFilter_eq, Hp.
    assert (Hm : p_mailbox p = when_truthy (or_text (s_inboxId i) cfg)).
    { unfold structured_params in Hp. cbv zeta in Hp.
      destruct (appendCreatedAtFilter _ _ _); [done|]. by injection Hp as <-. }
    destruct (api p) as [e|resp]; [done|]. cbv zeta.
    destruct (invalid_before (s_createdBefore i)); [done|].
    intros [= <-]. cbn [st_inboxScope]. rewrite Hm. apply scoped_spec.
Qed.

End ScopeExtras.
